(** * ROMP (simple_romp/romp/model.py): a shallow embedding of the network
      definition and of its forward pass.

    The file follows [model.py] top to bottom: the coordinate map, the layout
    helper, the residual blocks, the high-resolution fusion module, the
    backbone and the ROMPv1 head; then the properties.

    Conventions.
    - A tensor is a shape together with an indexing function; an index outside
      the shape has no meaning and no statement reads one.
    - [torch.int32] entries are integers ([Z]); every entry the code produces
      is an index below a tensor dimension, so no wrap-around occurs.
    - [torch.float32] entries are idealised as extended reals ([fval]): a real
      number, one of the two infinities, or NaN, with the IEEE-754 rules for
      the special values.  Rounding and the sign of zero are not modelled;
      overflow and underflow are modelled where a property rests on them, in
      [torch.pow], and not elsewhere.  The statements are chosen so that they
      do not rest on the exactness of an operation: they transcribe the
      operations of the code, or leave a margin that rounding cannot cross.
    - An exception raised by Python or torch is [None].
    - A constructor of [model.py] builds a tree of [torch.nn] modules; the
      tree holds the hyper-parameters only.  The learnt parameters are a
      function [params] from state-dict keys (the path of the layer in the
      tree, as torch names it, then [weight] or [bias]) to tensor entries.
    - The state of a model is its training flag and the buffers of its
      normalisation layers; a forward pass is a computation in a state and
      error monad.
    - The in-place operations of the code ([nn.ReLU(inplace=True)],
      [out += residual], [cam_maps[:, 0] = ...]) always write to a tensor that
      the preceding layer has just allocated and that nothing else refers to,
      so they are modelled as functions. *)

From Stdlib Require Import List Arith ZArith Lia String Ascii Bool QArith.
From Stdlib Require Import Reals Lra DecimalString.
Import ListNotations.

Close Scope Q_scope.
Close Scope R_scope.
Open Scope nat_scope.
Abbreviation length := List.length (only parsing).

Set Implicit Arguments.

(** ** Fallible computations (exceptions) *)

Notation "'let?' x := e 'in' k" :=
  (match e with Some x => k | None => None end)
  (at level 10, x pattern, e at level 100, k at level 200).

(** ** Idealised float32 values *)

Inductive fval : Type :=
| Fin (r : R)
| PInf
| NInf
| NaN.

Definition fneg (x : fval) : fval :=
  match x with
  | Fin r => Fin (- r)%R
  | PInf => NInf
  | NInf => PInf
  | NaN => NaN
  end.

Definition fadd (x y : fval) : fval :=
  match x, y with
  | NaN, _ | _, NaN => NaN
  | PInf, NInf | NInf, PInf => NaN
  | PInf, _ | _, PInf => PInf
  | NInf, _ | _, NInf => NInf
  | Fin a, Fin b => Fin (a + b)%R
  end.

Definition fsub (x y : fval) : fval := fadd x (fneg y).

Definition fmul (x y : fval) : fval :=
  match x, y with
  | NaN, _ | _, NaN => NaN
  | Fin a, Fin b => Fin (a * b)%R
  | Fin a, PInf | PInf, Fin a =>
      if Req_dec_T a 0%R then NaN else if Rlt_dec 0%R a then PInf else NInf
  | Fin a, NInf | NInf, Fin a =>
      if Req_dec_T a 0%R then NaN else if Rlt_dec 0%R a then NInf else PInf
  | PInf, PInf | NInf, NInf => PInf
  | PInf, NInf | NInf, PInf => NInf
  end.

(** Division; a zero divisor is the positive zero. *)
Definition fdiv (x y : fval) : fval :=
  match x, y with
  | NaN, _ | _, NaN => NaN
  | Fin a, Fin b =>
      if Req_dec_T b 0%R
      then (if Req_dec_T a 0%R then NaN else if Rlt_dec 0%R a then PInf else NInf)
      else Fin (a / b)%R
  | Fin _, PInf | Fin _, NInf => Fin 0%R
  | PInf, Fin b => if Rlt_dec b 0%R then NInf else PInf
  | NInf, Fin b => if Rlt_dec b 0%R then PInf else NInf
  | _, _ => NaN
  end.

(** Half the least positive float32, 2^-150: a positive result that is not
    larger rounds to zero. *)
Definition float32_tiny : R := (/ 2 ^ 150)%R.

(** The largest float32 plus half a unit in its last place,
    (2 - 2^-24) * 2^127: a result that is not smaller rounds to infinity. *)
Definition float32_huge : R := ((2 - / 2 ^ 24) * 2 ^ 127)%R.

(** [torch.pow(1.1, x)], entry by entry: the power underflows to zero and
    overflows to infinity as a float32 does. *)
Definition fpow_base (base : R) (x : fval) : fval :=
  match x with
  | Fin r =>
      let v := Rpower base r in
      if Rle_dec v float32_tiny then Fin 0%R
      else if Rle_dec float32_huge v then PInf
      else Fin v
  | PInf => PInf
  | NInf => Fin 0%R
  | NaN => NaN
  end.

(** [relu], entry by entry: [max(0, x)], NaN stays NaN. *)
Definition frelu (x : fval) : fval :=
  match x with
  | Fin r => Fin (Rmax 0%R r)
  | PInf => PInf
  | NInf => Fin 0%R
  | NaN => NaN
  end.

Definition is_finite (x : fval) : Prop := exists r, x = Fin r.

(** ** Tensors *)

Definition shape := list nat.
Definition index := list nat.

Record tensor (A : Type) : Type := mkTensor {
  tshape : shape;
  tdata : index -> A
}.
Arguments mkTensor {A} _ _.

(** [idx] addresses an entry of a tensor of shape [s]. *)
Fixpoint in_range (idx : index) (s : shape) : Prop :=
  match idx, s with
  | [], [] => True
  | i :: idx', n :: s' => i < n /\ in_range idx' s'
  | _, _ => False
  end.

Definition tmap {A B} (f : A -> B) (t : tensor A) : tensor B :=
  mkTensor (tshape t) (fun idx => f (tdata t idx)).

(** A dimension argument, which Python allows to be negative, for a tensor of
    [rank] dimensions. *)
Definition norm_dim (rank : nat) (d : Z) : option nat :=
  if ((0 <=? d) && (d <? Z.of_nat rank))%Z then Some (Z.to_nat d)
  else if ((- Z.of_nat rank <=? d) && (d <? 0))%Z
       then Some (Z.to_nat (d + Z.of_nat rank))
       else None.

Definition insert_at {A} (k : nat) (x : A) (l : list A) : list A :=
  firstn k l ++ x :: skipn k l.

Definition remove_at {A} (k : nat) (l : list A) : list A :=
  firstn k l ++ skipn (S k) l.

Definition swap_at (i j : nat) (l : list nat) : list nat :=
  map (fun k => nth (if k =? i then j else if k =? j then i else k) l 0)
      (seq 0 (length l)).

Fixpoint index_of (m : nat) (l : list nat) : nat :=
  match l with
  | [] => 0
  | x :: l' => if x =? m then 0 else S (index_of m l')
  end.

Fixpoint nodupb (l : list nat) : bool :=
  match l with
  | [] => true
  | x :: l' => negb (existsb (Nat.eqb x) l') && nodupb l'
  end.

Fixpoint all_some {A} (l : list (option A)) : option (list A) :=
  match l with
  | [] => Some []
  | None :: _ => None
  | Some x :: l' => let? r := all_some l' in Some (x :: r)
  end.

Section TensorOps.
Context {A : Type}.

(** [t.unsqueeze(d)] *)
Definition unsqueeze (d : Z) (t : tensor A) : option (tensor A) :=
  let? k := norm_dim (S (length (tshape t))) d in
  Some (mkTensor (insert_at k 1 (tshape t))
                 (fun idx => tdata t (remove_at k idx))).

(** [t.squeeze(d)]: the dimension goes only when its size is 1. *)
Definition squeeze (d : Z) (t : tensor A) : option (tensor A) :=
  let? k := norm_dim (length (tshape t)) d in
  if nth k (tshape t) 0 =? 1
  then Some (mkTensor (remove_at k (tshape t))
                      (fun idx => tdata t (insert_at k 0 idx)))
  else Some t.

(** [t.transpose(d0, d1)] *)
Definition transpose (d0 d1 : Z) (t : tensor A) : option (tensor A) :=
  let? k0 := norm_dim (length (tshape t)) d0 in
  let? k1 := norm_dim (length (tshape t)) d1 in
  Some (mkTensor (swap_at k0 k1 (tshape t))
                 (fun idx => tdata t (swap_at k0 k1 idx))).

(** [t.permute(dims)]: output dimension [k] is input dimension [dims[k]]. *)
Definition permute (dims : list Z) (t : tensor A) : option (tensor A) :=
  let rank := length (tshape t) in
  let? ds := all_some (map (norm_dim rank) dims) in
  if (length ds =? rank) && nodupb ds
  then Some (mkTensor (map (fun d => nth d (tshape t) 0) ds)
                      (fun idx => tdata t
                         (map (fun m => nth (index_of m ds) idx 0)
                              (seq 0 rank))))
  else None.

(** Which operand of a concatenation holds position [i] along the
    concatenated dimension, and at which position of its own. *)
Fixpoint cat_select (k : nat) (ts : list (tensor A)) (i : nat)
  : option (tensor A * nat) :=
  match ts with
  | [] => None
  | t :: ts' =>
      let n := nth k (tshape t) 0 in
      if i <? n then Some (t, i) else cat_select k ts' (i - n)
  end.

Definition replace_at (k : nat) (x : nat) (l : list nat) : list nat :=
  firstn k l ++ x :: skipn (S k) l.

(** [torch.cat(ts, dim)]: the operands agree on every other dimension. *)
Definition cat (default : A) (ts : list (tensor A)) (dim : Z)
  : option (tensor A) :=
  match ts with
  | [] => None
  | t0 :: _ =>
      let? k := norm_dim (length (tshape t0)) dim in
      if forallb (fun t => (length (tshape t) =? length (tshape t0))
                           && forallb (fun p => Nat.eqb (fst p) (snd p))
                                (combine (remove_at k (tshape t))
                                         (remove_at k (tshape t0)))) ts
      then
        let total := fold_right (fun t n => nth k (tshape t) 0 + n) 0 ts in
        Some (mkTensor (replace_at k total (tshape t0))
                (fun idx =>
                   match cat_select k ts (nth k idx 0) with
                   | Some (t, i) => tdata t (replace_at k i idx)
                   | None => default
                   end))
      else None
  end.

(** [t.repeat(reps)] *)
Definition repeat_tensor (reps : list nat) (t : tensor A)
  : option (tensor A) :=
  let rank := length (tshape t) in
  if length reps <? rank then None
  else
    let lead := length reps - rank in
    let padded := List.repeat 1 lead ++ tshape t in
    Some (mkTensor (map (fun p => fst p * snd p) (combine reps padded))
            (fun idx =>
               tdata t (map (fun p => Nat.modulo (fst p) (snd p))
                            (combine (skipn lead idx) (tshape t))))).
End TensorOps.

(** [torch.ones(s, dtype=torch.int32)] *)
Definition ones (s : shape) : tensor Z := mkTensor s (fun _ => 1%Z).

(** [torch.arange(n, dtype=torch.int32)] *)
Definition arange (n : nat) : tensor Z :=
  mkTensor [n] (fun idx => Z.of_nat (nth 0 idx 0)).

Definition zsum (n : nat) (f : nat -> Z) : Z :=
  fold_right (fun k acc => (f k + acc)%Z) 0%Z (seq 0 n).

(** [torch.matmul(a, b)] in the case the code uses: two 3-dimensional
    operands, a batch of matrix products (a batch of size 1 is broadcast). *)
Definition matmul (a b : tensor Z) : option (tensor Z) :=
  match tshape a, tshape b with
  | [ba; n; m], [bb; m'; p] =>
      if (m =? m') && ((ba =? bb) || (ba =? 1) || (bb =? 1))
      then Some (mkTensor [if ba =? 1 then bb else ba; n; p]
                  (fun idx =>
                     let bi := nth 0 idx 0 in
                     let i := nth 1 idx 0 in
                     let j := nth 2 idx 0 in
                     zsum m (fun k =>
                       Z.mul (tdata a [if ba =? 1 then 0 else bi; i; k])
                             (tdata b [if bb =? 1 then 0 else bi; k; j]))))
      else None
  | _, _ => None
  end.

(** [t.float()] *)
Definition to_float (t : tensor Z) : tensor fval :=
  tmap (fun z => Fin (IZR z)) t.

Definition div_scalar (t : tensor fval) (c : fval) : tensor fval :=
  tmap (fun x => fdiv x c) t.
Definition mul_scalar (t : tensor fval) (c : fval) : tensor fval :=
  tmap (fun x => fmul x c) t.
Definition sub_scalar (t : tensor fval) (c : fval) : tensor fval :=
  tmap (fun x => fsub x c) t.

(** ** [get_coord_maps] *)

Definition get_coord_maps (size : nat) : option (tensor fval) :=
  let xx_ones := ones [1; size] in
  let? xx_ones := unsqueeze (-1) xx_ones in

  let? xx_range := unsqueeze 0 (arange size) in
  let? xx_range := unsqueeze 1 xx_range in

  let? xx_channel := matmul xx_ones xx_range in
  let? xx_channel := unsqueeze (-1) xx_channel in

  let yy_ones := ones [1; size] in
  let? yy_ones := unsqueeze 1 yy_ones in

  let? yy_range := unsqueeze 0 (arange size) in
  let? yy_range := unsqueeze (-1) yy_range in

  let? yy_channel := matmul yy_range yy_ones in
  let? yy_channel := unsqueeze (-1) yy_channel in

  let? xx_channel := permute [0; 3; 1; 2]%Z xx_channel in
  let? yy_channel := permute [0; 3; 1; 2]%Z yy_channel in

  let xx_channel :=
    div_scalar (to_float xx_channel) (Fin (IZR (Z.of_nat size - 1))) in
  let yy_channel :=
    div_scalar (to_float yy_channel) (Fin (IZR (Z.of_nat size - 1))) in

  let xx_channel := sub_scalar (mul_scalar xx_channel (Fin 2%R)) (Fin 1%R) in
  let yy_channel := sub_scalar (mul_scalar yy_channel (Fin 2%R)) (Fin 1%R) in

  cat NaN [xx_channel; yy_channel] 1.

(** ** [BHWC_to_BCHW] *)

Definition BHWC_to_BCHW {A} (x : tensor A) : option (tensor A) :=
  let? x := unsqueeze 1 x in
  let? x := transpose 1 (-1) x in
  squeeze (-1) x.

(** ** Modules

    A [torch.nn] module tree.  A layer stores its hyper-parameters; its learnt
    parameters and buffers live in the state dict under the layer's path in
    the tree, as in torch. *)

Definition BN_MOMENTUM : Q := (1 # 10)%Q.

#[warnings="-register-all"]
Inductive module : Type :=
| Conv2d (in_channels out_channels kernel_size stride padding : nat)
         (bias : bool)
| BatchNorm2d (num_features : nat) (momentum : Q)
| ReLU (inplace : bool)
| Upsample (scale_factor : nat)                      (* mode='nearest' *)
| Sequential (layers : list module)
| BasicBlockM (conv1 bn1 relu conv2 bn2 : module)
              (downsample : option module) (stride : nat)
| BottleneckM (conv1 bn1 conv2 bn2 conv3 bn3 relu : module)
              (downsample : option module) (stride : nat).

(** [nn.BatchNorm2d(n)] with the default momentum. *)
Definition BatchNorm2d_default (num_features : nat) : module :=
  BatchNorm2d num_features (1 # 10)%Q.

(** 3x3 convolution with padding *)
Definition conv3x3 (in_planes out_planes stride : nat) : module :=
  Conv2d in_planes out_planes 3 stride 1 false.

(** [BasicBlock.__init__] *)
Definition BasicBlock (inplanes planes stride : nat)
    (downsample : option module) : module :=
  BasicBlockM (conv3x3 inplanes planes stride)
              (BatchNorm2d planes BN_MOMENTUM)
              (ReLU true)
              (conv3x3 planes planes 1)
              (BatchNorm2d planes BN_MOMENTUM)
              downsample stride.

(** [Bottleneck.__init__]; [BN] is always [nn.BatchNorm2d]. *)
Definition Bottleneck (inplanes planes stride : nat)
    (downsample : option module) : module :=
  BottleneckM (Conv2d inplanes planes 1 1 0 false)
              (BatchNorm2d planes BN_MOMENTUM)
              (Conv2d planes planes 3 stride 1 false)
              (BatchNorm2d planes BN_MOMENTUM)
              (Conv2d planes (planes * 4) 1 1 0 false)
              (BatchNorm2d (planes * 4) BN_MOMENTUM)
              (ReLU true)
              downsample stride.

(** The two block classes, as values passed to the builders. *)
Inductive block_class : Type := BasicBlock_class | Bottleneck_class.

Definition expansion (block : block_class) : nat :=
  match block with
  | BasicBlock_class => 1
  | Bottleneck_class => 4
  end.

Definition blocks_dict (key : string) : option block_class :=
  if String.eqb key "BASIC" then Some BasicBlock_class
  else if String.eqb key "BOTTLENECK" then Some Bottleneck_class
  else None.

(** [block(inplanes, planes, stride, downsample)] *)
Definition new_block (block : block_class) (inplanes planes stride : nat)
    (downsample : option module) : module :=
  match block with
  | BasicBlock_class => BasicBlock inplanes planes stride downsample
  | Bottleneck_class => Bottleneck inplanes planes stride downsample
  end.

(** [block(inplanes, planes, stride, downsample, BN=BN)]: only [Bottleneck]
    takes the keyword [BN]; [BasicBlock.__init__] raises [TypeError]. *)
Definition new_block_BN (block : block_class) (inplanes planes stride : nat)
    (downsample : option module) : option module :=
  match block with
  | BasicBlock_class => None
  | Bottleneck_class => Some (Bottleneck inplanes planes stride downsample)
  end.

(** [l[i] = v] on a Python list of length above [i]. *)
Fixpoint list_set {A} (l : list A) (i : nat) (v : A) : list A :=
  match l, i with
  | [], _ => []
  | _ :: l', 0 => v :: l'
  | x :: l', S i' => x :: list_set l' i' v
  end.

(** [l[-1]] *)
Definition last_error {A} (l : list A) : option A :=
  nth_error l (length l - 1).

(** ** [HighResolutionModule] *)

Record HighResolutionModule : Type := mkHRM {
  num_inchannels : list nat;
  fuse_method : string;
  num_branches : nat;
  multi_scale_output : bool;
  branches : list module;
  fuse_layers : option (list (list (option module)));
  hrm_relu : module
}.

(** [_make_one_branch]; the assignment to [self.num_inchannels[branch_index]]
    is returned as the updated list.  ([self.num_inchannels] and
    [num_channels] are distinct list objects at every call of this file.) *)
Definition _make_one_branch (self_num_inchannels : list nat)
    (branch_index : nat) (block : block_class)
    (num_blocks num_channels : list nat) (stride : nat)
  : option (module * list nat) :=
  let? inch := nth_error self_num_inchannels branch_index in
  let? ch := nth_error num_channels branch_index in
  let downsample :=
    if negb (stride =? 1) || negb (inch =? ch * expansion block)
    then Some (Sequential
                 [Conv2d inch (ch * expansion block) 1 stride 0 false;
                  BatchNorm2d (ch * expansion block) BN_MOMENTUM])
    else None in
  let layers := [new_block block inch ch stride downsample] in
  let self_num_inchannels :=
    list_set self_num_inchannels branch_index (ch * expansion block) in
  let? nb := nth_error num_blocks branch_index in
  let layers :=
    layers ++ map (fun _ => new_block block (ch * expansion block) ch 1 None)
                  (seq 1 (nb - 1)) in
  Some (Sequential layers, self_num_inchannels).

(** [_make_branches]: the loop over [range(num_branches)], from index [i]. *)
Fixpoint _make_branches_from (self_num_inchannels : list nat)
    (i count : nat) (block : block_class)
    (num_blocks num_channels : list nat)
  : option (list module * list nat) :=
  match count with
  | 0 => Some ([], self_num_inchannels)
  | S count' =>
      let? (b, nic) :=
        _make_one_branch self_num_inchannels i block num_blocks num_channels 1
      in
      let? (bs, nic') :=
        _make_branches_from nic (S i) count' block num_blocks num_channels in
      Some (b :: bs, nic')
  end.

Definition _make_branches (self_num_inchannels : list nat)
    (num_branches : nat) (block : block_class)
    (num_blocks num_channels : list nat)
  : option (list module * list nat) :=
  _make_branches_from self_num_inchannels 0 num_branches block
                      num_blocks num_channels.

(** The element that iteration [k] of the loop [for k in range(i-j)] of
    [_make_fuse_layers] appends to [conv3x3s]. *)
Definition make_conv3x3s_step (num_inchannels : list nat) (i j k : nat)
  : option module :=
  if k =? i - j - 1 then
    let? num_outchannels_conv3x3 := nth_error num_inchannels i in
    let? cj := nth_error num_inchannels j in
    Some (Sequential [Conv2d cj num_outchannels_conv3x3 3 2 1 false;
                      BatchNorm2d_default num_outchannels_conv3x3])
  else
    let? num_outchannels_conv3x3 := nth_error num_inchannels j in
    let? cj := nth_error num_inchannels j in
    Some (Sequential [Conv2d cj num_outchannels_conv3x3 3 2 1 false;
                      BatchNorm2d_default num_outchannels_conv3x3;
                      ReLU true]).

(** The entry [fuse_layers[i][j]] that [_make_fuse_layers] builds. *)
Definition make_fuse_entry (num_inchannels : list nat) (i j : nat)
  : option (option module) :=
  if i <? j then
    let? cj := nth_error num_inchannels j in
    let? ci := nth_error num_inchannels i in
    Some (Some (Sequential
                  [Conv2d cj ci 1 1 0 false;
                   BatchNorm2d_default ci;
                   Upsample (2 ^ (j - i))]))
  else if j =? i then Some None
  else
    let? conv3x3s :=
      all_some (map (make_conv3x3s_step num_inchannels i j)
                    (seq 0 (i - j))) in
    Some (Some (Sequential conv3x3s)).

(** [_make_fuse_layers] *)
Definition _make_fuse_layers (self_num_branches : nat)
    (self_num_inchannels : list nat) (self_multi_scale_output : bool)
  : option (option (list (list (option module)))) :=
  if self_num_branches =? 1 then Some None
  else
    let num_branches := self_num_branches in
    let num_inchannels := self_num_inchannels in
    let? fuse_layers :=
      all_some
        (map (fun i =>
                all_some (map (fun j => make_fuse_entry num_inchannels i j)
                              (seq 0 num_branches)))
             (seq 0 (if self_multi_scale_output then num_branches else 1))) in
    Some (Some fuse_layers).

(** [HighResolutionModule.__init__] *)
Definition HighResolutionModule_init (num_branches : nat)
    (blocks : block_class) (num_blocks num_inchannels num_channels : list nat)
    (fuse_method : string) (multi_scale_output : bool)
  : option HighResolutionModule :=
  let? (branches, num_inchannels) :=
    _make_branches num_inchannels num_branches blocks num_blocks num_channels
  in
  let? fuse_layers :=
    _make_fuse_layers num_branches num_inchannels multi_scale_output in
  Some (mkHRM num_inchannels fuse_method num_branches multi_scale_output
              branches fuse_layers (ReLU true)).

Definition get_num_inchannels (self : HighResolutionModule) : list nat :=
  num_inchannels self.

(** ** [HigherResolutionNet] *)

Record layer_config : Type := mkConfig {
  NUM_MODULES : nat;
  NUM_BRANCHES : nat;
  BLOCK : string;
  NUM_BLOCKS : list nat;
  NUM_CHANNELS : list nat;
  FUSE_METHOD : string
}.

(** The entry [transition_layers[i]] that [_make_transition_layer] builds. *)
Definition make_transition_entry
    (num_channels_pre_layer num_channels_cur_layer : list nat) (i : nat)
  : option (option module) :=
  let num_branches_pre := length num_channels_pre_layer in
  if i <? num_branches_pre then
    let? cur := nth_error num_channels_cur_layer i in
    let? pre := nth_error num_channels_pre_layer i in
    if negb (cur =? pre) then
      Some (Some (Sequential [Conv2d pre cur 3 1 1 false;
                              BatchNorm2d_default cur;
                              ReLU true]))
    else Some None
  else
    let? conv3x3s :=
      all_some
        (map (fun j =>
                let? inchannels := last_error num_channels_pre_layer in
                let? outchannels :=
                  if j =? i - num_branches_pre
                  then nth_error num_channels_cur_layer i
                  else Some inchannels in
                Some (Sequential [Conv2d inchannels outchannels 3 2 1 false;
                                  BatchNorm2d_default outchannels;
                                  ReLU true]))
             (seq 0 (i + 1 - num_branches_pre))) in
    Some (Some (Sequential conv3x3s)).

(** [_make_transition_layer] *)
Definition _make_transition_layer
    (num_channels_pre_layer num_channels_cur_layer : list nat)
  : option (list (option module)) :=
  let num_branches_cur := length num_channels_cur_layer in
  all_some
    (map (make_transition_entry num_channels_pre_layer num_channels_cur_layer)
         (seq 0 num_branches_cur)).

(** [_make_layer]; the assignment to [self.inplanes] is returned as the
    second component. *)
Definition _make_layer (self_inplanes : nat) (block : block_class)
    (planes blocks stride : nat) : option (module * nat) :=
  let downsample :=
    if negb (stride =? 1) || negb (self_inplanes =? planes * expansion block)
    then Some (Sequential
                 [Conv2d self_inplanes (planes * expansion block) 1 stride 0
                         false;
                  BatchNorm2d (planes * expansion block) BN_MOMENTUM])
    else None in
  let? first := new_block_BN block self_inplanes planes stride downsample in
  let self_inplanes := planes * expansion block in
  let? rest :=
    all_some (map (fun _ => new_block_BN block self_inplanes planes 1 None)
                  (seq 1 (blocks - 1))) in
  Some (Sequential (first :: rest), self_inplanes).

(** [_make_stage]: the loop over [range(num_modules)], from index [i]. *)
Fixpoint _make_stage_from (i count num_modules num_branches : nat)
    (block : block_class) (num_blocks num_inchannels num_channels : list nat)
    (fuse_method : string) (multi_scale_output : bool)
  : option (list HighResolutionModule * list nat) :=
  match count with
  | 0 => Some ([], num_inchannels)
  | S count' =>
      (* multi_scale_output is only used last module *)
      let reset_multi_scale_output :=
        if negb multi_scale_output && (i =? num_modules - 1)
        then false else true in
      let? m :=
        HighResolutionModule_init num_branches block num_blocks
          num_inchannels num_channels fuse_method reset_multi_scale_output in
      let num_inchannels := get_num_inchannels m in
      let? (ms, num_inchannels) :=
        _make_stage_from (S i) count' num_modules num_branches block
          num_blocks num_inchannels num_channels fuse_method
          multi_scale_output in
      Some (m :: ms, num_inchannels)
  end.

Definition _make_stage (cfg : layer_config) (num_inchannels : list nat)
    (multi_scale_output : bool)
  : option (list HighResolutionModule * list nat) :=
  let num_modules := NUM_MODULES cfg in
  let num_branches := NUM_BRANCHES cfg in
  let num_blocks := NUM_BLOCKS cfg in
  let num_channels := NUM_CHANNELS cfg in
  let? block := blocks_dict (BLOCK cfg) in
  let fuse_method := FUSE_METHOD cfg in
  _make_stage_from 0 num_modules num_modules num_branches block num_blocks
                   num_inchannels num_channels fuse_method multi_scale_output.

Record HigherResolutionNet : Type := mkBackbone {
  inplanes : nat;
  conv1 : module;
  bn1 : module;
  conv2 : module;
  bn2 : module;
  relu : module;
  layer1 : module;
  stage2_cfg : layer_config;
  transition1 : list (option module);
  stage2 : list HighResolutionModule;
  stage3_cfg : layer_config;
  transition2 : list (option module);
  stage3 : list HighResolutionModule;
  stage4_cfg : layer_config;
  transition3 : list (option module);
  stage4 : list HighResolutionModule;
  backbone_channels : nat
}.

(** [HigherResolutionNet.__init__] with [make_baseline] *)
Definition make_baseline : option HigherResolutionNet :=
  let self_inplanes := 64 in
  (* stem net *)
  let conv1 := Conv2d 3 64 3 2 1 false in
  let bn1 := BatchNorm2d 64 BN_MOMENTUM in
  let conv2 := Conv2d 64 64 3 2 1 false in
  let bn2 := BatchNorm2d 64 BN_MOMENTUM in
  let relu := ReLU true in
  let? (layer1, self_inplanes) :=
    _make_layer self_inplanes Bottleneck_class 64 4 1 in

  let stage2_cfg := mkConfig 1 2 "BASIC" [4; 4] [32; 64] "SUM" in
  let num_channels := NUM_CHANNELS stage2_cfg in
  let? block := blocks_dict (BLOCK stage2_cfg) in
  let num_channels := map (fun c => c * expansion block) num_channels in
  let? transition1 := _make_transition_layer [256] num_channels in
  let? (stage2, pre_stage_channels) :=
    _make_stage stage2_cfg num_channels true in

  let stage3_cfg := mkConfig 4 3 "BASIC" [4; 4; 4] [32; 64; 128] "SUM" in
  let num_channels := NUM_CHANNELS stage3_cfg in
  let? block := blocks_dict (BLOCK stage3_cfg) in
  let num_channels := map (fun c => c * expansion block) num_channels in
  let? transition2 := _make_transition_layer pre_stage_channels num_channels in
  let? (stage3, pre_stage_channels) :=
    _make_stage stage3_cfg num_channels true in

  let stage4_cfg :=
    mkConfig 3 4 "BASIC" [4; 4; 4; 4] [32; 64; 128; 256] "SUM" in
  let num_channels := NUM_CHANNELS stage4_cfg in
  let? block := blocks_dict (BLOCK stage4_cfg) in
  let num_channels := map (fun c => c * expansion block) num_channels in
  let? transition3 := _make_transition_layer pre_stage_channels num_channels in
  let? (stage4, pre_stage_channels) :=
    _make_stage stage4_cfg num_channels false in
  Some (mkBackbone self_inplanes conv1 bn1 conv2 bn2 relu layer1
          stage2_cfg transition1 stage2
          stage3_cfg transition2 stage3
          stage4_cfg transition3 stage4
          32).

(** ** [ROMPv1] *)

Record head_config : Type := mkHeadConfig {
  NUM_HEADS : nat;
  NUM_CHANNELS_head : nat;
  NUM_BASIC_BLOCKS : nat
}.

Record output_config : Type := mkOutputConfig {
  NUM_PARAMS_MAP : nat;
  NUM_CENTER_MAP : nat;
  NUM_CAM_MAP : nat
}.

Record ROMPv1 : Type := mkROMPv1 {
  backbone : HigherResolutionNet;
  outmap_size : nat;
  head_cfg : head_config;
  output_cfg : output_config;
  final_layers : list (option module);
  coordmaps : tensor fval
}.

(** [_make_head_layers] *)
Definition _make_head_layers (self_head_cfg : head_config)
    (input_channels output_channels : nat) : module :=
  let num_channels := NUM_CHANNELS_head self_head_cfg in
  let head_layers :=
    [Sequential [Conv2d input_channels num_channels 3 2 1 true;
                 BatchNorm2d num_channels BN_MOMENTUM;
                 ReLU true]] in
  let head_layers :=
    head_layers ++
    map (fun _ =>
           Sequential
             (map (fun _ =>
                     Sequential [BasicBlock num_channels num_channels 1 None])
                  (seq 0 (NUM_BASIC_BLOCKS self_head_cfg))))
        (seq 0 (NUM_HEADS self_head_cfg)) in
  let head_layers :=
    head_layers ++ [Conv2d num_channels output_channels 1 1 0 true] in
  Sequential head_layers.

(** [_make_final_layers] *)
Definition _make_final_layers (self_head_cfg : head_config)
    (self_output_cfg : output_config) (input_channels : nat)
  : list (option module) :=
  let final_layers := [None] in
  let input_channels := input_channels + 2 in
  let final_layers :=
    final_layers ++ [Some (_make_head_layers self_head_cfg input_channels
                             (NUM_PARAMS_MAP self_output_cfg))] in
  let final_layers :=
    final_layers ++ [Some (_make_head_layers self_head_cfg input_channels
                             (NUM_CENTER_MAP self_output_cfg))] in
  let final_layers :=
    final_layers ++ [Some (_make_head_layers self_head_cfg input_channels
                             (NUM_CAM_MAP self_output_cfg))] in
  final_layers.

(** [ROMPv1.__init__] with [_build_head] *)
Definition ROMPv1_init : option ROMPv1 :=
  let? backbone := make_baseline in
  let outmap_size := 64 in
  let '(params_num, cam_dim) := (3 + 22 * 6 + 10, 3) in
  let head_cfg := mkHeadConfig 1 64 2 in
  let output_cfg := mkOutputConfig (params_num - cam_dim) 1 cam_dim in
  let final_layers :=
    _make_final_layers head_cfg output_cfg (backbone_channels backbone) in
  let? coordmaps := get_coord_maps 128 in
  Some (mkROMPv1 backbone outmap_size head_cfg output_cfg final_layers
                 coordmaps).

(** ** Model state and the forward monad

    [training] is the flag of [nn.Module] ([True] after construction, switched
    by [.train()] and [.eval()]).  [buffers] holds, under each normalisation
    layer's path, its running statistics and its batch counter.  A forward
    computation reads and writes the state and may raise. *)

Record bn_buffers : Type := mkBuffers {
  running_mean : nat -> fval;
  running_var : nat -> fval;
  num_batches_tracked : Z
}.

Record model_state : Type := mkState {
  training : bool;
  buffers : string -> bn_buffers
}.

Definition M (A : Type) : Type := model_state -> option (A * model_state).

Definition ret {A} (a : A) : M A := fun st => Some (a, st).

Definition bind {A B} (c : M A) (k : A -> M B) : M B :=
  fun st => match c st with
            | Some (a, st') => k a st'
            | None => None
            end.

(** A pure step that may raise. *)
Definition lift {A} (o : option A) : M A :=
  fun st => match o with Some a => Some (a, st) | None => None end.

Notation "x <- c ;; k" := (bind c (fun x => k))
  (at level 61, c at next level, right associativity).
Notation "' pat <- c ;; k" := (bind c (fun x => let 'pat := x in k))
  (at level 61, pat pattern, c at next level, right associativity).

(** Paths in the module tree. *)
Definition child (path name : string) : string :=
  if String.eqb path "" then name else (path ++ "." ++ name)%string.

Definition string_of_nat (n : nat) : string :=
  NilEmpty.string_of_uint (Nat.to_uint n).

Definition item (path : string) (i : nat) : string :=
  child path (string_of_nat i).

(** ** The layers of [torch.nn] *)

Definition fsum (n : nat) (f : nat -> fval) : fval :=
  fold_right (fun k acc => fadd (f k) acc) (Fin 0%R) (seq 0 n).

Definition fsqrt (x : fval) : fval :=
  match x with
  | Fin r => if Rlt_dec r 0%R then NaN else Fin (sqrt r)
  | PInf => PInf
  | NInf => NaN
  | NaN => NaN
  end.

(** Shape arithmetic of broadcasting, on shapes read from the last
    dimension. *)
Fixpoint broadcast_rev (a b : list nat) : option (list nat) :=
  match a, b with
  | [], l => Some l
  | l, [] => Some l
  | x :: a', y :: b' =>
      let? r := broadcast_rev a' b' in
      if x =? y then Some (x :: r)
      else if x =? 1 then Some (y :: r)
      else if y =? 1 then Some (x :: r)
      else None
  end.

Definition broadcast_shapes (a b : shape) : option shape :=
  option_map (@rev nat) (broadcast_rev (rev a) (rev b)).

(** The entry of an operand of shape [s_in] that position [idx] of the
    broadcast result of shape [s_out] reads. *)
Definition bidx (s_out s_in : shape) (idx : index) : index :=
  map (fun p => if snd p =? 1 then 0 else fst p)
      (combine (skipn (length s_out - length s_in) idx) s_in).

(** [x + y] *)
Definition tensor_add (x y : tensor fval) : option (tensor fval) :=
  let? s := broadcast_shapes (tshape x) (tshape y) in
  Some (mkTensor s (fun idx => fadd (tdata x (bidx s (tshape x) idx))
                                    (tdata y (bidx s (tshape y) idx)))).

(** [out += residual]: the result keeps the shape of [out]. *)
Definition tensor_iadd (out residual : tensor fval) : option (tensor fval) :=
  let? s := broadcast_shapes (tshape out) (tshape residual) in
  if forallb (fun p => fst p =? snd p) (combine s (tshape out))
     && (length s =? length (tshape out))
  then Some (mkTensor (tshape out)
               (fun idx => fadd (tdata out idx)
                                (tdata residual
                                   (bidx (tshape out) (tshape residual) idx))))
  else None.

(** [t[:, i]] *)
Definition select1 {A} (t : tensor A) (i : nat) : option (tensor A) :=
  match tshape t with
  | b :: c :: rest =>
      if i <? c
      then Some (mkTensor (b :: rest)
                          (fun idx => tdata t (insert_at 1 i idx)))
      else None
  | _ => None
  end.

(** [t[:, i] = v] *)
Definition setitem1 (t : tensor fval) (i : nat) (v : tensor fval)
  : option (tensor fval) :=
  let? target := select1 t i in
  let? s := broadcast_shapes (tshape target) (tshape v) in
  if forallb (fun p => fst p =? snd p) (combine s (tshape target))
     && (length s =? length (tshape target))
  then Some (mkTensor (tshape t)
               (fun idx =>
                  if nth 1 idx 0 =? i
                  then tdata v (bidx (tshape target) (tshape v)
                                     (remove_at 1 idx))
                  else tdata t idx))
  else None.

(** Output size of a convolution along one dimension. *)
Definition conv_out (n kernel_size stride padding : nat) : option nat :=
  if (1 <=? kernel_size) && (1 <=? stride)
     && (kernel_size <=? n + 2 * padding)
  then Some ((n + 2 * padding - kernel_size) / stride + 1)
  else None.

Definition bn_eps : R := (1 / 100000)%R.

Section Layers.
(** The learnt parameters (the state dict minus the buffers): the tensor
    entries under each key. *)
Variable params : string -> index -> fval.

(** The input with [p] rows and columns of zeros around it. *)
Definition padded (x : tensor fval) (p b c r q : nat) : fval :=
  if (p <=? r) && (r - p <? nth 2 (tshape x) 0)
     && (p <=? q) && (q - p <? nth 3 (tshape x) 0)
  then tdata x [b; c; r - p; q - p]
  else Fin 0%R.

(** [nn.Conv2d.forward] on a 4-dimensional input.  (torch also takes an
    unbatched 3-dimensional input; in this network every convolution feeds
    or follows a [BatchNorm2d], which rejects it.) *)
Definition conv2d (path : string)
    (in_channels out_channels kernel_size stride padding : nat)
    (bias : bool) (x : tensor fval) : option (tensor fval) :=
  match tshape x with
  | [b; c; h; w] =>
      if c =? in_channels then
        let? ho := conv_out h kernel_size stride padding in
        let? wo := conv_out w kernel_size stride padding in
        Some (mkTensor [b; out_channels; ho; wo]
          (fun idx =>
             let bi := nth 0 idx 0 in
             let o := nth 1 idx 0 in
             let i := nth 2 idx 0 in
             let j := nth 3 idx 0 in
             fadd
               (if bias then params (child path "bias") [o] else Fin 0%R)
               (fsum in_channels (fun ci =>
                fsum kernel_size (fun ki =>
                fsum kernel_size (fun kj =>
                  fmul (params (child path "weight") [o; ci; ki; kj])
                       (padded x padding bi ci
                               (i * stride + ki) (j * stride + kj))))))))
      else None
  | _ => None
  end.

(** Sum of [f] over the batch and the two spatial dimensions. *)
Definition fsum_bhw (b h w : nat) (f : nat -> nat -> nat -> fval) : fval :=
  fsum b (fun bi => fsum h (fun i => fsum w (fun j => f bi i j))).

Definition batch_mean (x : tensor fval) (b h w c : nat) : fval :=
  fdiv (fsum_bhw b h w (fun bi i j => tdata x [bi; c; i; j]))
       (Fin (INR (b * h * w))).

(** Sum of squared deviations from the batch mean. *)
Definition batch_sqdev (x : tensor fval) (b h w c : nat) : fval :=
  fsum_bhw b h w (fun bi i j =>
    let d := fsub (tdata x [bi; c; i; j]) (batch_mean x b h w c) in
    fmul d d).

Definition normalise (path : string) (mean var : nat -> fval)
    (x : tensor fval) : tensor fval :=
  mkTensor (tshape x)
    (fun idx =>
       let c := nth 1 idx 0 in
       fadd (fmul (fdiv (fsub (tdata x idx) (mean c))
                        (fsqrt (fadd (var c) (Fin bn_eps))))
                  (params (child path "weight") [c]))
            (params (child path "bias") [c])).

Definition momentum_update (momentum : Q) (old new : fval) : fval :=
  fadd (fmul (Fin (1 - Q2R momentum)%R) old) (fmul (Fin (Q2R momentum)) new).

(** [nn.BatchNorm2d.forward] (affine, [track_running_stats=True]).  In
    training mode the batch statistics normalise the input, which must hold
    more than one value per channel, and the running statistics and the
    batch counter are updated; in evaluation mode the running statistics
    normalise the input and nothing is written. *)
Definition batch_norm (path : string) (num_features : nat) (momentum : Q)
    (x : tensor fval) : M (tensor fval) :=
  fun st =>
    match tshape x with
    | [b; c; h; w] =>
        if c =? num_features then
          if training st then
            if negb (b * h * w =? 1) then
              let mean := batch_mean x b h w in
              let var := fun ch =>
                fdiv (batch_sqdev x b h w ch) (Fin (INR (b * h * w))) in
              let unbiased := fun ch =>
                fdiv (batch_sqdev x b h w ch)
                     (Fin (INR (b * h * w - 1))) in
              let old := buffers st path in
              let new :=
                mkBuffers
                  (fun ch => momentum_update momentum
                               (running_mean old ch) (mean ch))
                  (fun ch => momentum_update momentum
                               (running_var old ch) (unbiased ch))
                  (num_batches_tracked old + 1)%Z in
              Some (normalise path mean var x,
                    mkState (training st)
                      (fun p => if String.eqb p path then new
                                else buffers st p))
            else None
          else
            let buf := buffers st path in
            Some (normalise path (running_mean buf) (running_var buf) x, st)
        else None
    | _ => None
    end.

(** [nn.ReLU.forward]; the layers of this network apply it in place to
    tensors nothing else refers to. *)
Definition relu_forward (x : tensor fval) : tensor fval := tmap frelu x.

(** [nn.Upsample(scale_factor=k, mode='nearest').forward] *)
Definition upsample (scale_factor : nat) (x : tensor fval)
  : option (tensor fval) :=
  match tshape x with
  | b :: c :: spatial =>
      if (1 <=? length spatial) && (length spatial <=? 3)
         && forallb (fun n => (0 <? n) && (0 <? n * scale_factor)) spatial
      then Some (mkTensor (b :: c :: map (fun n => n * scale_factor) spatial)
                  (fun idx =>
                     tdata x (firstn 2 idx
                              ++ map (fun i => i / scale_factor)
                                     (skipn 2 idx))))
      else None
  | _ => None
  end.
End Layers.

(** ** Forward passes *)

Section Forward.
Variable params : string -> index -> fval.

(** [m(x)] for the module [m] registered under [path]. *)
Fixpoint call (path : string) (m : module) (x : tensor fval) {struct m}
  : M (tensor fval) :=
  match m with
  | Conv2d cin cout k s p bias =>
      lift (conv2d params path cin cout k s p bias x)
  | BatchNorm2d num_features momentum =>
      batch_norm params path num_features momentum x
  | ReLU _ => ret (relu_forward x)
  | Upsample scale_factor => lift (upsample scale_factor x)
  | Sequential layers =>
      (fix go (ms : list module) (i : nat) (x : tensor fval)
         : M (tensor fval) :=
         match ms with
         | [] => ret x
         | m' :: ms' => y <- call (item path i) m' x ;; go ms' (S i) y
         end) layers 0 x
  | BasicBlockM conv1 bn1 relu conv2 bn2 downsample _ =>
      (* BasicBlock.forward *)
      let residual := x in
      out <- call (child path "conv1") conv1 x ;;
      out <- call (child path "bn1") bn1 out ;;
      out <- call (child path "relu") relu out ;;
      out <- call (child path "conv2") conv2 out ;;
      out <- call (child path "bn2") bn2 out ;;
      residual <- match downsample with
                  | Some d => call (child path "downsample") d x
                  | None => ret residual
                  end ;;
      out <- lift (tensor_iadd out residual) ;;
      call (child path "relu") relu out
  | BottleneckM conv1 bn1 conv2 bn2 conv3 bn3 relu downsample _ =>
      (* Bottleneck.forward *)
      let residual := x in
      out <- call (child path "conv1") conv1 x ;;
      out <- call (child path "bn1") bn1 out ;;
      out <- call (child path "relu") relu out ;;
      out <- call (child path "conv2") conv2 out ;;
      out <- call (child path "bn2") bn2 out ;;
      out <- call (child path "relu") relu out ;;
      out <- call (child path "conv3") conv3 out ;;
      out <- call (child path "bn3") bn3 out ;;
      residual <- match downsample with
                  | Some d => call (child path "downsample") d x
                  | None => ret residual
                  end ;;
      out <- lift (tensor_iadd out residual) ;;
      call (child path "relu") relu out
  end.

(** Calling an entry of a [ModuleList] that may hold [None]. *)
Definition call_entry (path : string) (entry : option module)
    (x : tensor fval) : M (tensor fval) :=
  match entry with
  | Some m => call path m x
  | None => lift None
  end.

(** [for i in range(self.num_branches): x[i] = self.branches[i](x[i])],
    from index [i]. *)
Fixpoint run_branches (path : string) (self_branches : list module)
    (x : list (tensor fval)) (i count : nat) : M (list (tensor fval)) :=
  match count with
  | 0 => ret x
  | S count' =>
      b <- lift (nth_error self_branches i) ;;
      xi <- lift (nth_error x i) ;;
      y <- call (item (child path "branches") i) b xi ;;
      run_branches path self_branches (list_set x i y) (S i) count'
  end.

(** The inner loop [for j in range(1, self.num_branches)] of
    [HighResolutionModule.forward], from index [j]. *)
Fixpoint fuse_sum (path : string)
    (self_fuse_layers : list (list (option module)))
    (x : list (tensor fval)) (i : nat) (y : tensor fval) (j count : nat)
  : M (tensor fval) :=
  match count with
  | 0 => ret y
  | S count' =>
      y <- (if i =? j then
              xj <- lift (nth_error x j) ;;
              lift (tensor_add y xj)
            else
              row <- lift (nth_error self_fuse_layers i) ;;
              f <- lift (nth_error row j) ;;
              xj <- lift (nth_error x j) ;;
              t <- call_entry (item (item (child path "fuse_layers") i) j)
                              f xj ;;
              lift (tensor_add y t)) ;;
      fuse_sum path self_fuse_layers x i y (S j) count'
  end.

(** The outer loop [for i in range(len(self.fuse_layers))], from index
    [i]. *)
Fixpoint fuse_outputs (path : string) (self_num_branches : nat)
    (self_fuse_layers : list (list (option module))) (self_relu : module)
    (x : list (tensor fval)) (i count : nat) : M (list (tensor fval)) :=
  match count with
  | 0 => ret []
  | S count' =>
      y <- (if i =? 0 then lift (nth_error x 0)
            else
              row <- lift (nth_error self_fuse_layers i) ;;
              f <- lift (nth_error row 0) ;;
              x0 <- lift (nth_error x 0) ;;
              call_entry (item (item (child path "fuse_layers") i) 0)
                         f x0) ;;
      y <- fuse_sum path self_fuse_layers x i y 1 (self_num_branches - 1) ;;
      out <- call (child path "relu") self_relu y ;;
      x_fuse <- fuse_outputs path self_num_branches self_fuse_layers
                  self_relu x (S i) count' ;;
      ret (out :: x_fuse)
  end.

(** [HighResolutionModule.forward] *)
Definition HighResolutionModule_forward (path : string)
    (self : HighResolutionModule) (x : list (tensor fval))
  : M (list (tensor fval)) :=
  if num_branches self =? 1 then
    b <- lift (nth_error (branches self) 0) ;;
    x0 <- lift (nth_error x 0) ;;
    y <- call (item (child path "branches") 0) b x0 ;;
    ret [y]
  else
    x <- run_branches path (branches self) x 0 (num_branches self) ;;
    fl <- lift (fuse_layers self) ;;
    fuse_outputs path (num_branches self) fl (hrm_relu self) x 0 (length fl).

(** A stage: [nn.Sequential] of fusion modules, from child index [i]. *)
Fixpoint stage_forward (path : string) (ms : list HighResolutionModule)
    (i : nat) (x : list (tensor fval)) : M (list (tensor fval)) :=
  match ms with
  | [] => ret x
  | m :: ms' =>
      y <- HighResolutionModule_forward (item path i) m x ;;
      stage_forward path ms' (S i) y
  end.

(** The loops that build [x_list] before a stage, from index [i]: entry
    [i] of the transition list is applied to [input] when it is a layer,
    and [pass i] is appended when it is [None]. *)
Fixpoint transition_forward (path : string)
    (transition : list (option module))
    (input : option (tensor fval)) (pass : nat -> option (tensor fval))
    (i count : nat) : M (list (tensor fval)) :=
  match count with
  | 0 => ret []
  | S count' =>
      t <- lift (nth_error transition i) ;;
      xi <- match t with
            | Some layer =>
                inp <- lift input ;; call (item path i) layer inp
            | None => lift (pass i)
            end ;;
      x_list <- transition_forward path transition input pass (S i) count' ;;
      ret (xi :: x_list)
  end.

(** The first statement of [HigherResolutionNet.forward]:
    [((BHWC_to_BCHW(x) / 255.) * 2.0 - 1.0).contiguous()]. *)
Definition normalise_image (x : tensor fval) : option (tensor fval) :=
  let? x := BHWC_to_BCHW x in
  Some (sub_scalar (mul_scalar (div_scalar x (Fin 255%R)) (Fin 2%R))
                   (Fin 1%R)).

(** [HigherResolutionNet.forward] after the first stem convolution. *)
Definition HigherResolutionNet_forward_rest (path : string)
    (self : HigherResolutionNet) (x : tensor fval) : M (tensor fval) :=
  x <- call (child path "bn1") (bn1 self) x ;;
  x <- call (child path "relu") (relu self) x ;;
  x <- call (child path "conv2") (conv2 self) x ;;
  x <- call (child path "bn2") (bn2 self) x ;;
  x <- call (child path "relu") (relu self) x ;;
  x <- call (child path "layer1") (layer1 self) x ;;

  x_list <- transition_forward (child path "transition1")
              (transition1 self) (Some x) (fun _ => Some x)
              0 (NUM_BRANCHES (stage2_cfg self)) ;;
  y_list <- stage_forward (child path "stage2") (stage2 self) 0 x_list ;;

  x_list <- transition_forward (child path "transition2")
              (transition2 self) (last_error y_list) (nth_error y_list)
              0 (NUM_BRANCHES (stage3_cfg self)) ;;
  y_list <- stage_forward (child path "stage3") (stage3 self) 0 x_list ;;

  x_list <- transition_forward (child path "transition3")
              (transition3 self) (last_error y_list) (nth_error y_list)
              0 (NUM_BRANCHES (stage4_cfg self)) ;;
  y_list <- stage_forward (child path "stage4") (stage4 self) 0 x_list ;;
  lift (nth_error y_list 0).

(** [HigherResolutionNet.forward] *)
Definition HigherResolutionNet_forward (path : string)
    (self : HigherResolutionNet) (x : tensor fval) : M (tensor fval) :=
  x <- lift (normalise_image x) ;;
  x <- call (child path "conv1") (conv1 self) x ;;
  HigherResolutionNet_forward_rest path self x.

(** The three heads of [ROMPv1.forward], in the order the code calls
    them. *)
Definition ROMPv1_heads (self : ROMPv1) (x : tensor fval)
  : M (tensor fval * tensor fval * tensor fval) :=
  f1 <- lift (nth_error (final_layers self) 1) ;;
  params_maps <- call_entry "final_layers.1" f1 x ;;
  f2 <- lift (nth_error (final_layers self) 2) ;;
  center_maps <- call_entry "final_layers.2" f2 x ;;
  f3 <- lift (nth_error (final_layers self) 3) ;;
  cam_maps <- call_entry "final_layers.3" f3 x ;;
  ret (params_maps, center_maps, cam_maps).

(** The last three statements of [ROMPv1.forward]. *)
Definition ROMPv1_outputs (params_maps center_maps cam_maps : tensor fval)
  : option (tensor fval * tensor fval) :=
  (* to make sure that scale is always a positive value *)
  let? scale := select1 cam_maps 0 in
  let? cam_maps :=
    setitem1 cam_maps 0 (tmap (fpow_base (11 / 10)%R) scale) in
  let? params_maps := cat NaN [cam_maps; params_maps] 1 in
  Some (center_maps, params_maps).

(** The features the heads read: the backbone output with the coordinate
    maps appended. *)
Definition ROMPv1_features (self : ROMPv1) (image : tensor fval)
  : M (tensor fval) :=
  x <- HigherResolutionNet_forward "backbone" (backbone self) image ;;
  batch <- lift (nth_error (tshape x) 0) ;;
  coords <- lift (repeat_tensor [batch; 1; 1; 1] (coordmaps self)) ;;
  lift (cat NaN [x; coords] 1).

(** [ROMPv1.forward] *)
Definition ROMPv1_forward (self : ROMPv1) (image : tensor fval)
  : M (tensor fval * tensor fval) :=
  x <- ROMPv1_features self image ;;
  '(params_maps, center_maps, cam_maps) <- ROMPv1_heads self x ;;
  lift (ROMPv1_outputs params_maps center_maps cam_maps).
End Forward.

(** ** Notions used by the statements *)

(** Two computations with the same result from every state. *)
Definition meq {A} (c1 c2 : M A) : Prop := forall st, c1 st = c2 st.

(** A computation that, run in evaluation mode, hands back the state it was
    given. *)
Definition eval_pure {A} (c : M A) : Prop :=
  forall st a st', training st = false -> c st = Some (a, st') -> st' = st.

(** The state of a freshly constructed model: training mode, running mean 0,
    running variance 1, no batch seen. *)
Definition fresh_buffers : bn_buffers :=
  mkBuffers (fun _ => Fin 0%R) (fun _ => Fin 1%R) 0%Z.

Definition fresh_state : model_state := mkState true (fun _ => fresh_buffers).

(** The same model after [.eval()]. *)
Definition eval_state : model_state := mkState false (fun _ => fresh_buffers).

(** Attributes of a residual block. *)
Definition block_downsample (m : module) : option module :=
  match m with
  | BasicBlockM _ _ _ _ _ d _ => d
  | BottleneckM _ _ _ _ _ _ _ d _ => d
  | _ => None
  end.

Definition block_stride (m : module) : nat :=
  match m with
  | BasicBlockM _ _ _ _ _ _ s => s
  | BottleneckM _ _ _ _ _ _ _ _ s => s
  | _ => 1
  end.

(** Input channels: those of the block's first convolution. *)
Definition block_inplanes (m : module) : nat :=
  match m with
  | BasicBlockM (Conv2d cin _ _ _ _ _) _ _ _ _ _ _ => cin
  | BottleneckM (Conv2d cin _ _ _ _ _) _ _ _ _ _ _ _ _ => cin
  | _ => 0
  end.

(** Output channels, [planes * expansion]: those of the block's last
    normalisation. *)
Definition block_outplanes (m : module) : nat :=
  match m with
  | BasicBlockM _ _ _ _ (BatchNorm2d n _) _ _ => n
  | BottleneckM _ _ _ _ _ (BatchNorm2d n _) _ _ _ => n
  | _ => 0
  end.

(** The rule for the projection on the skip connection of one block. *)
Definition downsample_rule (m : module) : Prop :=
  (block_stride m <> 1 \/ block_inplanes m <> block_outplanes m ->
   block_downsample m =
     Some (Sequential
             [Conv2d (block_inplanes m) (block_outplanes m) 1
                     (block_stride m) 0 false;
              BatchNorm2d (block_outplanes m) BN_MOMENTUM]))
  /\ (~ (block_stride m <> 1 \/ block_inplanes m <> block_outplanes m) ->
      block_downsample m = None).

Section Notions.
Variable params : string -> index -> fval.

(** [nn.Sequential.forward] over the children from index [i]. *)
Definition call_seq (path : string)
  : list module -> nat -> tensor fval -> M (tensor fval) :=
  fix go (ms : list module) (i : nat) (x : tensor fval)
    : M (tensor fval) :=
    match ms with
    | [] => ret x
    | m' :: ms' => y <- call params (item path i) m' x ;; go ms' (S i) y
    end.

(** The first operand of a block's residual addition: [out] before
    [out += residual]. *)
Definition block_main_path (path : string) (m : module) (x : tensor fval)
  : M (tensor fval) :=
  match m with
  | BasicBlockM conv1 bn1 relu conv2 bn2 _ _ =>
      out <- call params (child path "conv1") conv1 x ;;
      out <- call params (child path "bn1") bn1 out ;;
      out <- call params (child path "relu") relu out ;;
      out <- call params (child path "conv2") conv2 out ;;
      call params (child path "bn2") bn2 out
  | BottleneckM conv1 bn1 conv2 bn2 conv3 bn3 relu _ _ =>
      out <- call params (child path "conv1") conv1 x ;;
      out <- call params (child path "bn1") bn1 out ;;
      out <- call params (child path "relu") relu out ;;
      out <- call params (child path "conv2") conv2 out ;;
      out <- call params (child path "bn2") bn2 out ;;
      out <- call params (child path "relu") relu out ;;
      out <- call params (child path "conv3") conv3 out ;;
      call params (child path "bn3") bn3 out
  | _ => lift None
  end.

(** The second operand: [residual]. *)
Definition block_residual (path : string) (m : module) (x : tensor fval)
  : M (tensor fval) :=
  match block_downsample m with
  | Some d => call params (child path "downsample") d x
  | None => ret x
  end.

(** Running the blocks [layers] (children [i], [i+1], ... of [path]) on
    [x]: every block returns, and the two operands of its residual addition
    have the same shape.  [out_shape] is the shape of the last output. *)
Fixpoint residual_additions_agree (path : string) (layers : list module)
    (i : nat) (x : tensor fval) (st : model_state) (out_shape : shape)
  : Prop :=
  match layers with
  | [] => tshape x = out_shape
  | blk :: rest =>
      exists out st1 residual st2 y st3,
        block_main_path (item path i) blk x st = Some (out, st1)
        /\ block_residual (item path i) blk x st1 = Some (residual, st2)
        /\ tshape out = tshape residual
        /\ call params (item path i) blk x st = Some (y, st3)
        /\ residual_additions_agree path rest (S i) y st3 out_shape
  end.
End Notions.

(** ** The fusion of section 4.3 of the specification, written from its
       words

    "For every pair of branches (i, j): if j > i, resample j's features up to
    i's resolution via 1x1 projection + nearest-neighbor upsample by factor
    2^(j-i); if j < i, resample down via a cascade of stride-2 3x3
    convolutions; if j == i, pass through unchanged.  Fused output for target
    resolution i = activation(sum over j of resampled branch j)." *)

Section FusionSpec.
Variable params : string -> index -> fval.

(** 1x1 convolution and normalisation to [ci] channels, then
    nearest-neighbour upsampling by [factor]. *)
Definition resample_up_spec (path : string) (cj ci factor : nat)
    (x : tensor fval) : M (tensor fval) :=
  t <- lift (conv2d params (item path 0) cj ci 1 1 0 false x) ;;
  t <- batch_norm params (item path 1) ci (1 # 10)%Q t ;;
  lift (upsample factor t).

(** [steps] further stride-2 3x3 convolution + normalisation steps, the
    next one being child [k]; the last one changes the channel count from
    [cj] to [ci], the others keep [cj].

    With [inner_activation = false] this is the cascade of the
    specification's words and of the claim: "convolution+normalization
    steps".  With [inner_activation = true] every step but the last ends in
    an activation, which is what the code builds (model.py, lines 212-217):
    it is the cascade of the amended claim. *)
Fixpoint resample_down_with (inner_activation : bool) (path : string)
    (cj ci k steps : nat) (x : tensor fval) : M (tensor fval) :=
  match steps with
  | 0 => ret x
  | S steps' =>
      let cout := if steps' =? 0 then ci else cj in
      t <- lift (conv2d params (item (item path k) 0) cj cout 3 2 1 false x) ;;
      t <- batch_norm params (item (item path k) 1) cout (1 # 10)%Q t ;;
      t <- ret (if inner_activation
                then (if steps' =? 0 then t else relu_forward t)
                else t) ;;
      resample_down_with inner_activation path cj ci (S k) steps' t
  end.

(** Branch [j]'s features resampled for target [i]. *)
Definition resample_with (inner_activation : bool) (path : string)
    (num_inchannels : list nat) (i j : nat) (xj : tensor fval)
  : M (tensor fval) :=
  if j =? i then ret xj
  else
    cj <- lift (nth_error num_inchannels j) ;;
    ci <- lift (nth_error num_inchannels i) ;;
    let p := item (item (child path "fuse_layers") i) j in
    if i <? j then resample_up_spec p cj ci (2 ^ (j - i)) xj
    else resample_down_with inner_activation p cj ci 0 (i - j) xj.

(** [y] plus the resampled branches [j], [j+1], ..., [j+count-1]. *)
Fixpoint sum_resampled_with (inner_activation : bool) (path : string)
    (num_inchannels : list nat) (x : list (tensor fval)) (i : nat)
    (y : tensor fval) (j count : nat) : M (tensor fval) :=
  match count with
  | 0 => ret y
  | S count' =>
      xj <- lift (nth_error x j) ;;
      r <- resample_with inner_activation path num_inchannels i j xj ;;
      y <- lift (tensor_add y r) ;;
      sum_resampled_with inner_activation path num_inchannels x i y (S j)
        count'
  end.

(** activation(sum over all [j] of resampled branch [j]) *)
Definition fused_output_with (inner_activation : bool) (path : string)
    (num_branches : nat) (num_inchannels : list nat)
    (x : list (tensor fval)) (i : nat) : M (tensor fval) :=
  x0 <- lift (nth_error x 0) ;;
  y <- resample_with inner_activation path num_inchannels i 0 x0 ;;
  y <- sum_resampled_with inner_activation path num_inchannels x i y 1
         (num_branches - 1) ;;
  ret (relu_forward y).

Fixpoint for_each_target {A} (f : nat -> M A) (targets : list nat)
  : M (list A) :=
  match targets with
  | [] => ret []
  | i :: rest =>
      a <- f i ;;
      r <- for_each_target f rest ;;
      ret (a :: r)
  end.

(** The fusion module: every branch computes its output, then every
    computed target is fused. *)
Definition fusion_with (inner_activation : bool) (path : string)
    (self : HighResolutionModule) (x : list (tensor fval))
  : M (list (tensor fval)) :=
  x <- run_branches params path (branches self) x 0 (num_branches self) ;;
  for_each_target
    (fused_output_with inner_activation path (num_branches self)
       (num_inchannels self) x)
    (seq 0 (if multi_scale_output self then num_branches self else 1)).

(** The fusion of the specification's words: no activation inside a
    cascade. *)
Definition resample_spec := resample_with false.
Definition fused_output_spec := fused_output_with false.
Definition fusion_spec := fusion_with false.

(** The fusion of the amended claim: an activation after every step of a
    cascade but the last. *)
Definition fusion_amended := fusion_with true.
End FusionSpec.

(** ** Concrete inputs

    A state dict with every learnt parameter zero, and the mid-gray image of
    the end-to-end test. *)

Definition zero_params : string -> index -> fval := fun _ _ => Fin 0%R.

Definition gray_image : tensor fval :=
  mkTensor [1; 512; 512; 3] (fun _ => Fin 128%R).

(** The shapes in the result of the three heads, and of a forward pass. *)
Definition head_shapes
    (r : option ((tensor fval * tensor fval * tensor fval) * model_state))
  : option (shape * shape * shape) :=
  match r with
  | Some ((pm, cm, cam), _) => Some (tshape pm, tshape cm, tshape cam)
  | None => None
  end.

Definition output_shapes
    (r : option ((tensor fval * tensor fval) * model_state))
  : option (shape * shape) :=
  match r with
  | Some ((c, p), _) => Some (tshape c, tshape p)
  | None => None
  end.

(** The multi-scale flags of the modules of the three stages. *)
Definition backbone_multi_scale_flags
  : option (list bool * list bool * list bool) :=
  let? net := make_baseline in
  Some (map multi_scale_output (stage2 net),
        map multi_scale_output (stage3 net),
        map multi_scale_output (stage4 net)).


(** A computation whose result, run in training mode, does not depend on the
    buffers: from two states in training mode it fails in both or returns
    the same value in both, still in training mode. *)
Definition train_blind {A} (c : M A) : Prop :=
  forall st1 st2,
    training st1 = true -> training st2 = true ->
    match c st1, c st2 with
    | Some (a1, s1), Some (a2, s2) =>
        a1 = a2 /\ training s1 = true /\ training s2 = true
    | None, None => True
    | _, _ => False
    end.

(** [layers] is a sequence of residual blocks built by one of the two
    builders, for blocks of class [block] from [inplanes] input channels to
    [planes] planes, [nblocks] blocks, the first of stride [stride]. *)
Definition built_block_sequence (block : block_class)
    (inplanes planes nblocks stride : nat) (layers : list module) : Prop :=
  (exists inplanes',
     _make_layer inplanes block planes nblocks stride
     = Some (Sequential layers, inplanes'))
  \/ (exists num_inchannels branch_index num_blocks num_channels
             num_inchannels',
        nth_error num_inchannels branch_index = Some inplanes
        /\ nth_error num_channels branch_index = Some planes
        /\ nth_error num_blocks branch_index = Some nblocks
        /\ _make_one_branch num_inchannels branch_index block num_blocks
             num_channels stride
           = Some (Sequential layers, num_inchannels')).

(** The projection that both builders attach to the first block of a
    sequence. *)
Definition first_downsample (block : block_class)
    (inplanes planes stride : nat) : option module :=
  if negb (stride =? 1) || negb (inplanes =? planes * expansion block)
  then Some (Sequential
               [Conv2d inplanes (planes * expansion block) 1 stride 0 false;
                BatchNorm2d (planes * expansion block) BN_MOMENTUM])
  else None.


(** ** Notions used by the further properties *)

(** A channel list in which branch [i] already has the channel count that
    its blocks return. *)
Definition settled (B : nat) (block : block_class)
    (num_channels nic : list nat) : Prop :=
  forall i, i < B ->
    exists ch, nth_error num_channels i = Some ch
               /\ nth_error nic i = Some (ch * expansion block).

(** The steps of the cascade that [_make_transition_layer] builds for a new
    branch. *)
Definition transition_step (inchannels outchannels : nat) : module :=
  Sequential [Conv2d inchannels outchannels 3 2 1 false;
              BatchNorm2d_default outchannels;
              ReLU true].


(** An entry that is not negative: a non-negative number, plus infinity, or
    NaN (which the activation passes on). *)
Definition nonneg (v : fval) : Prop :=
  match v with
  | Fin r => (0 <= r)%R
  | PInf => True
  | NInf => False
  | NaN => True
  end.

(** A fusion module of several branches whose last layer is the
    activation. *)
Definition fuses_with_relu (m : HighResolutionModule) : bool :=
  negb (num_branches m =? 1)
  && match hrm_relu m with ReLU _ => true | _ => false end.

(** ** The shapes that a forward pass computes

    Whether a forward pass raises, and the shapes it returns, depend on the
    shapes of the inputs and on the training flag only.  The functions below
    follow the forward passes on shapes.  With the scaling [exact] they are
    what the forward passes do; with another scaling they also check the
    conditions under which the result scales with the batch size, the height
    or the width of the input. *)

Record scaling : Type := mkScaling {
  sc_batch : bool;    (* the batch size is multiplied *)
  sc_height : bool;   (* the height is multiplied *)
  sc_width : bool;    (* the width is multiplied *)
  sc_big : bool       (* the product of the three factors is above 1 *)
}.

Definition exact : scaling := mkScaling false false false false.

(** A convolution scales along a dimension when its kernel is centred and
    its stride divides the size. *)
Definition conv_dim_ok (on : bool) (n kernel_size stride padding : nat)
  : bool :=
  negb on || ((kernel_size =? 2 * padding + 1) && (n mod stride =? 0)).

Definition conv2d_shape (sc : scaling)
    (in_channels out_channels kernel_size stride padding : nat) (s : shape)
  : option shape :=
  match s with
  | [b; c; h; w] =>
      if c =? in_channels then
        let? ho := conv_out h kernel_size stride padding in
        let? wo := conv_out w kernel_size stride padding in
        if conv_dim_ok (sc_height sc) h kernel_size stride padding
           && conv_dim_ok (sc_width sc) w kernel_size stride padding
        then Some [b; out_channels; ho; wo]
        else None
      else None
  | _ => None
  end.

Definition batch_norm_shape (sc : scaling) (tr : bool) (num_features : nat)
    (s : shape) : option shape :=
  match s with
  | [b; c; h; w] =>
      if c =? num_features then
        if tr then
          if sc_big sc || negb (b * h * w =? 1) then Some s else None
        else Some s
      else None
  | _ => None
  end.

Definition upsample_shape (scale_factor : nat) (s : shape) : option shape :=
  match s with
  | b :: c :: spatial =>
      if (1 <=? length spatial) && (length spatial <=? 3)
         && forallb (fun n => (0 <? n) && (0 <? n * scale_factor)) spatial
      then Some (b :: c :: map (fun n => n * scale_factor) spatial)
      else None
  | _ => None
  end.

(** Two operands of an addition scale together along a dimension when
    they have the same size there. *)
Definition dim_ok (on : bool) (x y : nat) : bool := negb on || (x =? y).

Definition add_ok (sc : scaling) (s1 s2 : shape) : bool :=
  match s1, s2 with
  | [b1; _; h1; w1], [b2; _; h2; w2] =>
      dim_ok (sc_batch sc) b1 b2 && dim_ok (sc_height sc) h1 h2
      && dim_ok (sc_width sc) w1 w2
  | _, _ => negb (sc_batch sc || sc_height sc || sc_width sc)
  end.

Definition tensor_add_shape (sc : scaling) (x y : shape) : option shape :=
  if add_ok sc x y then broadcast_shapes x y else None.

Definition tensor_iadd_shape (sc : scaling) (out residual : shape)
  : option shape :=
  if add_ok sc out residual then
    let? s := broadcast_shapes out residual in
    if forallb (fun p => fst p =? snd p) (combine s out)
       && (length s =? length out)
    then Some out
    else None
  else None.

Section Shapes.
Variable sc : scaling.
Variable tr : bool.

Fixpoint call_shape (m : module) (s : shape) {struct m} : option shape :=
  match m with
  | Conv2d cin cout k st p _ => conv2d_shape sc cin cout k st p s
  | BatchNorm2d num_features _ => batch_norm_shape sc tr num_features s
  | ReLU _ => Some s
  | Upsample scale_factor => upsample_shape scale_factor s
  | Sequential layers =>
      (fix go (ms : list module) (s : shape) : option shape :=
         match ms with
         | [] => Some s
         | m' :: ms' => let? y := call_shape m' s in go ms' y
         end) layers s
  | BasicBlockM conv1 bn1 relu conv2 bn2 downsample _ =>
      let residual := s in
      let? out := call_shape conv1 s in
      let? out := call_shape bn1 out in
      let? out := call_shape relu out in
      let? out := call_shape conv2 out in
      let? out := call_shape bn2 out in
      let? residual := match downsample with
                       | Some d => call_shape d s
                       | None => Some residual
                       end in
      let? out := tensor_iadd_shape sc out residual in
      call_shape relu out
  | BottleneckM conv1 bn1 conv2 bn2 conv3 bn3 relu downsample _ =>
      let residual := s in
      let? out := call_shape conv1 s in
      let? out := call_shape bn1 out in
      let? out := call_shape relu out in
      let? out := call_shape conv2 out in
      let? out := call_shape bn2 out in
      let? out := call_shape relu out in
      let? out := call_shape conv3 out in
      let? out := call_shape bn3 out in
      let? residual := match downsample with
                       | Some d => call_shape d s
                       | None => Some residual
                       end in
      let? out := tensor_iadd_shape sc out residual in
      call_shape relu out
  end.

Definition call_seq_shape : list module -> shape -> option shape :=
  fix go (ms : list module) (s : shape) : option shape :=
    match ms with
    | [] => Some s
    | m' :: ms' => let? y := call_shape m' s in go ms' y
    end.

Definition call_entry_shape (entry : option module) (s : shape)
  : option shape :=
  match entry with
  | Some m => call_shape m s
  | None => None
  end.

Fixpoint run_branches_shape (self_branches : list module) (x : list shape)
    (i count : nat) : option (list shape) :=
  match count with
  | 0 => Some x
  | S count' =>
      let? b := nth_error self_branches i in
      let? xi := nth_error x i in
      let? y := call_shape b xi in
      run_branches_shape self_branches (list_set x i y) (S i) count'
  end.

Fixpoint fuse_sum_shape (self_fuse_layers : list (list (option module)))
    (x : list shape) (i : nat) (y : shape) (j count : nat) : option shape :=
  match count with
  | 0 => Some y
  | S count' =>
      let? y :=
        (if i =? j then
           let? xj := nth_error x j in
           tensor_add_shape sc y xj
         else
           let? row := nth_error self_fuse_layers i in
           let? f := nth_error row j in
           let? xj := nth_error x j in
           let? t := call_entry_shape f xj in
           tensor_add_shape sc y t) in
      fuse_sum_shape self_fuse_layers x i y (S j) count'
  end.

Fixpoint fuse_outputs_shape (self_num_branches : nat)
    (self_fuse_layers : list (list (option module))) (self_relu : module)
    (x : list shape) (i count : nat) : option (list shape) :=
  match count with
  | 0 => Some []
  | S count' =>
      let? y :=
        (if i =? 0 then nth_error x 0
         else
           let? row := nth_error self_fuse_layers i in
           let? f := nth_error row 0 in
           let? x0 := nth_error x 0 in
           call_entry_shape f x0) in
      let? y := fuse_sum_shape self_fuse_layers x i y 1
                  (self_num_branches - 1) in
      let? out := call_shape self_relu y in
      let? x_fuse := fuse_outputs_shape self_num_branches self_fuse_layers
                       self_relu x (S i) count' in
      Some (out :: x_fuse)
  end.

Definition HighResolutionModule_forward_shape (self : HighResolutionModule)
    (x : list shape) : option (list shape) :=
  if num_branches self =? 1 then
    let? b := nth_error (branches self) 0 in
    let? x0 := nth_error x 0 in
    let? y := call_shape b x0 in
    Some [y]
  else
    let? x := run_branches_shape (branches self) x 0 (num_branches self) in
    let? fl := fuse_layers self in
    fuse_outputs_shape (num_branches self) fl (hrm_relu self) x 0 (length fl).

Fixpoint stage_forward_shape (ms : list HighResolutionModule)
    (x : list shape) : option (list shape) :=
  match ms with
  | [] => Some x
  | m :: ms' =>
      let? y := HighResolutionModule_forward_shape m x in
      stage_forward_shape ms' y
  end.

Fixpoint transition_forward_shape (transition : list (option module))
    (input : option shape) (pass : nat -> option shape) (i count : nat)
  : option (list shape) :=
  match count with
  | 0 => Some []
  | S count' =>
      let? t := nth_error transition i in
      let? xi := match t with
                 | Some layer => let? inp := input in call_shape layer inp
                 | None => pass i
                 end in
      let? x_list := transition_forward_shape transition input pass (S i)
                       count' in
      Some (xi :: x_list)
  end.

(** [HigherResolutionNet.forward] from the first stem convolution on. *)
Definition HigherResolutionNet_layers_shape (self : HigherResolutionNet)
    (s : shape) : option shape :=
  let? x := call_shape (conv1 self) s in
  let? x := call_shape (bn1 self) x in
  let? x := call_shape (relu self) x in
  let? x := call_shape (conv2 self) x in
  let? x := call_shape (bn2 self) x in
  let? x := call_shape (relu self) x in
  let? x := call_shape (layer1 self) x in
  let? x_list := transition_forward_shape (transition1 self) (Some x)
                   (fun _ => Some x) 0 (NUM_BRANCHES (stage2_cfg self)) in
  let? y_list := stage_forward_shape (stage2 self) x_list in
  let? x_list := transition_forward_shape (transition2 self)
                   (last_error y_list) (nth_error y_list)
                   0 (NUM_BRANCHES (stage3_cfg self)) in
  let? y_list := stage_forward_shape (stage3 self) x_list in
  let? x_list := transition_forward_shape (transition3 self)
                   (last_error y_list) (nth_error y_list)
                   0 (NUM_BRANCHES (stage4_cfg self)) in
  let? y_list := stage_forward_shape (stage4 self) x_list in
  nth_error y_list 0.

Definition ROMPv1_heads_shape (self : ROMPv1) (s : shape)
  : option (shape * shape * shape) :=
  let? f1 := nth_error (final_layers self) 1 in
  let? params_maps := call_entry_shape f1 s in
  let? f2 := nth_error (final_layers self) 2 in
  let? center_maps := call_entry_shape f2 s in
  let? f3 := nth_error (final_layers self) 3 in
  let? cam_maps := call_entry_shape f3 s in
  Some (params_maps, center_maps, cam_maps).
End Shapes.

(** A tensor of a given shape, for the functions on tensors whose result
    shape the shapes of the arguments decide. *)
Definition blank (s : shape) : tensor fval := mkTensor s (fun _ => NaN).

Definition shape_of {A} (r : option (tensor A)) : option shape :=
  match r with
  | Some t => Some (tshape t)
  | None => None
  end.

(** [HigherResolutionNet.forward] on shapes. *)
Definition HigherResolutionNet_forward_shape (tr : bool)
    (self : HigherResolutionNet) (s : shape) : option shape :=
  let? s := shape_of (normalise_image (blank s)) in
  HigherResolutionNet_layers_shape exact tr self s.

(** [ROMPv1.forward] on shapes. *)
Definition ROMPv1_features_shape (tr : bool) (self : ROMPv1) (s : shape)
  : option shape :=
  let? x := HigherResolutionNet_forward_shape tr (backbone self) s in
  let? batch := nth_error x 0 in
  let? coords := repeat_tensor [batch; 1; 1; 1] (coordmaps self) in
  shape_of (cat NaN [blank x; coords] 1).

Definition ROMPv1_forward_shape (tr : bool) (self : ROMPv1) (s : shape)
  : option (shape * shape) :=
  let? x := ROMPv1_features_shape tr self s in
  let? (params_maps, center_maps, cam_maps) :=
    ROMPv1_heads_shape exact tr self x in
  match ROMPv1_outputs (blank params_maps) (blank center_maps)
                       (blank cam_maps) with
  | Some (c, p) => Some (tshape c, tshape p)
  | None => None
  end.

(** How a forward computation and a computation on shapes correspond: run
    in mode [tr], the first raises exactly when the second does, returns a
    value of the shape that the second returns, and leaves the mode as it
    was. *)
Definition follows {A S} (tr : bool) (shp : A -> S) (c : M A)
    (o : option S) : Prop :=
  forall st, training st = tr ->
    match c st, o with
    | Some (a, st'), Some s => shp a = s /\ training st' = tr
    | None, None => True
    | _, _ => False
    end.

(** The factors by which a scaling multiplies the batch size, the height
    and the width. *)
Record factors : Type := mkFactors {
  f_batch : nat;
  f_height : nat;
  f_width : nat
}.

Definition scales (sc : scaling) (f : factors) : Prop :=
  1 <= f_batch f /\ 1 <= f_height f /\ 1 <= f_width f
  /\ (sc_batch sc = false -> f_batch f = 1)
  /\ (sc_height sc = false -> f_height f = 1)
  /\ (sc_width sc = false -> f_width f = 1)
  /\ (sc_big sc = true -> 2 <= f_batch f * f_height f * f_width f).

(** The shape [s2] is the 4-dimensional shape [s1] scaled by [f]. *)
Definition scaled (f : factors) (s1 s2 : shape) : Prop :=
  exists b c h w,
    s1 = [b; c; h; w]
    /\ s2 = [f_batch f * b; c; f_height f * h; f_width f * w].

(** The second computation on shapes returns the scaled result of the
    first, when the first returns. *)
Definition scales_to {S} (R : S -> S -> Prop) (o1 o2 : option S) : Prop :=
  match o1 with
  | Some s1 => exists s2, o2 = Some s2 /\ R s1 s2
  | None => True
  end.

(** Broadcasting along one dimension. *)
Definition bdim (x y : nat) : option nat :=
  if x =? y then Some x
  else if x =? 1 then Some y
  else if y =? 1 then Some x
  else None.


(** ** One image of a batch

    [x1] holds at batch position [bi1] the image that [x2] holds at batch
    position [bi2]; the two batches may have different sizes. *)
Record batch_pos : Type := mkBatchPos {
  bp_size1 : nat;
  bp_size2 : nat;
  bp_index1 : nat;
  bp_index2 : nat
}.

Definition same_image (bp : batch_pos) (x1 x2 : tensor fval) : Prop :=
  exists c h w,
    tshape x1 = [bp_size1 bp; c; h; w]
    /\ tshape x2 = [bp_size2 bp; c; h; w]
    /\ forall k i j, k < c -> i < h -> j < w ->
         tdata x1 [bp_index1 bp; k; i; j] = tdata x2 [bp_index2 bp; k; i; j].

(** Two computations that, run in evaluation mode from the same state,
    both raise or both return, related values, and leave the state as it
    was. *)
Definition agree {A} (R : A -> A -> Prop) (c1 c2 : M A) : Prop :=
  forall st, training st = false ->
    match c1 st, c2 st with
    | Some (a1, s1), Some (a2, s2) => R a1 a2 /\ s1 = st /\ s2 = st
    | None, None => True
    | _, _ => False
    end.

(** A batch of two images: a black one and the mid-gray one. *)
Definition black_and_gray : tensor fval :=
  mkTensor [2; 512; 512; 3]
    (fun idx => if nth 0 idx 0 =? 1 then Fin 128%R else Fin 0%R).

(** A model state with running statistics other than the initial ones. *)
Definition used_state (tr : bool) : model_state :=
  mkState tr (fun _ => mkBuffers (fun _ => Fin 3%R) (fun _ => Fin 2%R) 7%Z).

(** ** The buffers that a computation writes

    A computation registered under [path] writes only buffers whose key
    has [path] as a prefix, and keeps the mode. *)
Definition writes_below (path : string) {A} (c : M A) : Prop :=
  forall st a st',
    c st = Some (a, st') ->
    training st' = training st
    /\ forall q, String.prefix path q = false -> buffers st' q = buffers st q.

(** A computation that leaves the buffers under the key [q] and the mode
    as they are. *)
Definition keeps_buffers (q : string) {A} (c : M A) : Prop :=
  forall st a st',
    c st = Some (a, st') ->
    training st' = training st /\ buffers st' q = buffers st q.
(** * Properties *)

(** ** Induction over module trees *)

Section ModuleInduction.
Variable P : module -> Prop.
Hypothesis HConv : forall cin cout k s p b, P (Conv2d cin cout k s p b).
Hypothesis HBN : forall n mo, P (BatchNorm2d n mo).
Hypothesis HReLU : forall b, P (ReLU b).
Hypothesis HUp : forall k, P (Upsample k).
Hypothesis HSeq : forall l, Forall P l -> P (Sequential l).
Hypothesis HBasic : forall c1 b1 r c2 b2 d s,
    P c1 -> P b1 -> P r -> P c2 -> P b2 ->
    (forall m, d = Some m -> P m) ->
    P (BasicBlockM c1 b1 r c2 b2 d s).
Hypothesis HBottle : forall c1 b1 c2 b2 c3 b3 r d s,
    P c1 -> P b1 -> P c2 -> P b2 -> P c3 -> P b3 -> P r ->
    (forall m, d = Some m -> P m) ->
    P (BottleneckM c1 b1 c2 b2 c3 b3 r d s).

Fixpoint module_tree_ind (m : module) : P m :=
  match m with
  | Conv2d cin cout k s p b => HConv cin cout k s p b
  | BatchNorm2d n mo => HBN n mo
  | ReLU b => HReLU b
  | Upsample k => HUp k
  | Sequential l =>
      HSeq ((fix go (l : list module) : Forall P l :=
               match l with
               | [] => Forall_nil P
               | x :: l' => Forall_cons x (module_tree_ind x) (go l')
               end) l)
  | BasicBlockM c1 b1 r c2 b2 d s =>
      HBasic s (module_tree_ind c1) (module_tree_ind b1)
             (module_tree_ind r) (module_tree_ind c2) (module_tree_ind b2)
             (match d return forall m, d = Some m -> P m with
              | Some m' => fun m E =>
                  match E in _ = o
                        return match o with Some x => P x | None => True end
                  with eq_refl => module_tree_ind m' end
              | None => fun m E =>
                  match E in _ = o
                        return match o with Some _ => P m | None => True end
                  with eq_refl => I end
              end)
  | BottleneckM c1 b1 c2 b2 c3 b3 r d s =>
      HBottle s (module_tree_ind c1) (module_tree_ind b1)
              (module_tree_ind c2) (module_tree_ind b2)
              (module_tree_ind c3) (module_tree_ind b3) (module_tree_ind r)
              (match d return forall m, d = Some m -> P m with
               | Some m' => fun m E =>
                   match E in _ = o
                         return match o with Some x => P x | None => True end
                   with eq_refl => module_tree_ind m' end
               | None => fun m E =>
                   match E in _ = o
                         return match o with Some _ => P m | None => True end
                   with eq_refl => I end
               end)
  end.
End ModuleInduction.

(** ** The forward monad *)

Lemma bind_Some {A B} (c : M A) (k : A -> M B) st b st' :
  bind c k st = Some (b, st') ->
  exists a st1, c st = Some (a, st1) /\ k a st1 = Some (b, st').
Proof.
  unfold bind. destruct (c st) as [[a st1] |]; [eauto | discriminate].
Qed.

Lemma lift_Some {A} (o : option A) st a st' :
  lift o st = Some (a, st') -> o = Some a /\ st' = st.
Proof.
  unfold lift. destruct o; [| discriminate].
  intros E. inversion E. auto.
Qed.

Lemma ret_Some {A} (x : A) st a st' :
  ret x st = Some (a, st') -> a = x /\ st' = st.
Proof. unfold ret. intros E. inversion E. auto. Qed.

Lemma bind_eq {A B} (c : M A) (k : A -> M B) st a st1 :
  c st = Some (a, st1) -> bind c k st = k a st1.
Proof. unfold bind. intros ->. reflexivity. Qed.

Lemma bind_None {A B} (c : M A) (k : A -> M B) st :
  c st = None -> bind c k st = None.
Proof. unfold bind. intros ->. reflexivity. Qed.

Lemma meq_refl {A} (c : M A) : meq c c.
Proof. intros st. reflexivity. Qed.

Lemma meq_trans {A} (c1 c2 c3 : M A) : meq c1 c2 -> meq c2 c3 -> meq c1 c3.
Proof. intros H1 H2 st. rewrite H1. apply H2. Qed.

Lemma meq_bind {A B} (c1 c2 : M A) (k1 k2 : A -> M B) :
  meq c1 c2 -> (forall a, meq (k1 a) (k2 a)) ->
  meq (bind c1 k1) (bind c2 k2).
Proof.
  intros Hc Hk st. unfold bind. rewrite Hc.
  destruct (c2 st) as [[a st1] |]; [apply Hk | reflexivity].
Qed.

Lemma meq_bind_assoc {A B C} (c : M A) (k : A -> M B) (h : B -> M C) :
  meq (bind (bind c k) h) (bind c (fun a => bind (k a) h)).
Proof.
  intros st. unfold bind. destruct (c st) as [[a st1] |]; reflexivity.
Qed.

Lemma meq_bind_ret_l {A B} (a : A) (k : A -> M B) : meq (bind (ret a) k) (k a).
Proof. intros st. reflexivity. Qed.

Lemma meq_bind_lift_Some {A B} (o : option A) a (k : A -> M B) :
  o = Some a -> meq (bind (lift o) k) (k a).
Proof. intros -> st. reflexivity. Qed.

(** ** Evaluation mode writes nothing *)

Lemma eval_pure_ret {A} (a : A) : eval_pure (ret a).
Proof. intros st x st' _ E. apply ret_Some in E. tauto. Qed.

Lemma eval_pure_lift {A} (o : option A) : eval_pure (lift o).
Proof. intros st x st' _ E. apply lift_Some in E. tauto. Qed.

Lemma eval_pure_bind {A B} (c : M A) (k : A -> M B) :
  eval_pure c -> (forall a, eval_pure (k a)) -> eval_pure (bind c k).
Proof.
  intros Hc Hk st b st' Hst E.
  apply bind_Some in E. destruct E as (a & st1 & E1 & E2).
  pose proof (Hc _ _ _ Hst E1). subst st1.
  eapply Hk; eauto.
Qed.

Lemma eval_pure_batch_norm params path n mo x :
  eval_pure (batch_norm params path n mo x).
Proof.
  intros st y st' Hst. unfold batch_norm. rewrite Hst.
  destruct (tshape x) as [| b [| c [| h [| w [| ? ?]]]]]; try discriminate.
  destruct (c =? n); [| discriminate].
  intros E. inversion E. reflexivity.
Qed.

Create HintDb eval_pure.
#[local] Hint Resolve eval_pure_ret eval_pure_lift eval_pure_batch_norm
  : eval_pure.

Ltac eval_pure_step :=
  first [ apply eval_pure_bind; [| intro]
        | apply eval_pure_ret
        | apply eval_pure_lift
        | apply eval_pure_batch_norm ].

Lemma eval_pure_call_seq params path l :
  Forall (fun m => forall path x, eval_pure (call params path m x)) l ->
  forall i x, eval_pure (call_seq params path l i x).
Proof.
  induction 1 as [| m l Hm _ IH]; intros i x; simpl.
  - apply eval_pure_ret.
  - apply eval_pure_bind; [apply Hm | intro; apply IH].
Qed.

Lemma eval_pure_call params m :
  forall path x, eval_pure (call params path m x).
Proof.
  induction m using module_tree_ind; intros path x.
  - apply eval_pure_lift.
  - apply eval_pure_batch_norm.
  - apply eval_pure_ret.
  - apply eval_pure_lift.
  - change (eval_pure (call_seq params path l 0 x)).
    now apply eval_pure_call_seq.
  - simpl. repeat (eval_pure_step; auto).
    destruct d; [apply (H _ eq_refl) | apply eval_pure_ret].
  - simpl. repeat (eval_pure_step; auto).
    destruct d; [apply (H _ eq_refl) | apply eval_pure_ret].
Qed.

#[local] Hint Resolve eval_pure_call : eval_pure.

Ltac eval_pure_auto :=
  repeat first
    [ eval_pure_step
    | apply eval_pure_call
    | match goal with
      | |- eval_pure (if ?b then _ else _) => destruct b
      | |- eval_pure (match ?o with Some _ => _ | None => _ end) => destruct o
      | |- eval_pure (let 'pair _ _ := ?p in _) => destruct p
      end ];
  auto with eval_pure.

Lemma eval_pure_call_entry params path e x :
  eval_pure (call_entry params path e x).
Proof. unfold call_entry. eval_pure_auto. Qed.

#[local] Hint Resolve eval_pure_call_entry : eval_pure.

Lemma eval_pure_run_branches params path bs count :
  forall x i, eval_pure (run_branches params path bs x i count).
Proof.
  induction count as [| count IH]; intros x i; simpl; eval_pure_auto.
Qed.

Lemma eval_pure_fuse_sum params path fl x i count :
  forall y j, eval_pure (fuse_sum params path fl x i y j count).
Proof.
  induction count as [| count IH]; intros y j; simpl; eval_pure_auto.
Qed.

#[local] Hint Resolve eval_pure_run_branches eval_pure_fuse_sum : eval_pure.

Lemma eval_pure_fuse_outputs params path nb fl r x count :
  forall i, eval_pure (fuse_outputs params path nb fl r x i count).
Proof.
  induction count as [| count IH]; intros i; simpl; eval_pure_auto.
Qed.

#[local] Hint Resolve eval_pure_fuse_outputs : eval_pure.

Lemma eval_pure_HighResolutionModule_forward params path self x :
  eval_pure (HighResolutionModule_forward params path self x).
Proof. unfold HighResolutionModule_forward. eval_pure_auto. Qed.

#[local] Hint Resolve eval_pure_HighResolutionModule_forward : eval_pure.

Lemma eval_pure_stage_forward params path ms :
  forall i x, eval_pure (stage_forward params path ms i x).
Proof.
  induction ms as [| m ms IH]; intros i x; simpl; eval_pure_auto.
Qed.

Lemma eval_pure_transition_forward params path tr input pass count :
  forall i, eval_pure (transition_forward params path tr input pass i count).
Proof.
  induction count as [| count IH]; intros i; simpl; eval_pure_auto.
Qed.

#[local] Hint Resolve eval_pure_stage_forward eval_pure_transition_forward
  : eval_pure.

Lemma eval_pure_HigherResolutionNet_forward params path self x :
  eval_pure (HigherResolutionNet_forward params path self x).
Proof.
  unfold HigherResolutionNet_forward, HigherResolutionNet_forward_rest.
  eval_pure_auto.
Qed.

#[local] Hint Resolve eval_pure_HigherResolutionNet_forward : eval_pure.

Lemma eval_pure_ROMPv1_forward params self image :
  eval_pure (ROMPv1_forward params self image).
Proof.
  unfold ROMPv1_forward, ROMPv1_features, ROMPv1_heads. eval_pure_auto.
Qed.

(** ** Shapes and entries of the tensor operations *)

Lemma forallb_eqb_combine (l1 l2 : list nat) :
  forallb (fun p => fst p =? snd p) (combine l1 l2) = true ->
  length l1 = length l2 -> l1 = l2.
Proof.
  revert l2. induction l1 as [| a l1 IH]; intros [| b l2]; simpl;
    try discriminate; auto.
  intros H L. apply andb_prop in H. destruct H as [E H].
  apply Nat.eqb_eq in E. subst b. f_equal. apply IH; auto.
Qed.

Lemma forallb_eqb_refl (l : list nat) :
  forallb (fun p => fst p =? snd p) (combine l l) = true.
Proof. induction l; simpl; auto. rewrite Nat.eqb_refl. auto. Qed.

Lemma broadcast_rev_same l : broadcast_rev l l = Some l.
Proof.
  induction l as [| a l IH]; simpl; auto.
  rewrite IH, Nat.eqb_refl. reflexivity.
Qed.

Lemma broadcast_shapes_same s : broadcast_shapes s s = Some s.
Proof.
  unfold broadcast_shapes. rewrite broadcast_rev_same. simpl.
  now rewrite rev_involutive.
Qed.

Lemma bidx_same s idx : in_range idx s -> bidx s s idx = idx.
Proof.
  unfold bidx. rewrite Nat.sub_diag. simpl.
  revert s. induction idx as [| i idx IH]; intros [| n s]; simpl; try tauto.
  intros [Hi H]. rewrite IH by assumption.
  destruct (Nat.eqb_spec n 1); [f_equal; lia | reflexivity].
Qed.

Lemma norm_dim_nat rank k : k < rank -> norm_dim rank (Z.of_nat k) = Some k.
Proof.
  intros H. unfold norm_dim.
  destruct (Z.leb_spec 0 (Z.of_nat k)); [| lia].
  destruct (Z.ltb_spec (Z.of_nat k) (Z.of_nat rank)); [| lia].
  simpl. now rewrite Nat2Z.id.
Qed.

Lemma cat2_dim1 {A} (d : A) (x y t : tensor A) b cx rest :
  tshape x = b :: cx :: rest ->
  cat d [x; y] 1 = Some t ->
  exists cy,
    tshape y = b :: cy :: rest /\
    tshape t = b :: (cx + cy) :: rest /\
    forall bi k r,
      (k < cx -> tdata t (bi :: k :: r) = tdata x (bi :: k :: r))
      /\ (cx <= k < cx + cy ->
          tdata t (bi :: k :: r) = tdata y (bi :: (k - cx) :: r)).
Proof.
  intros Ex. unfold cat. rewrite Ex.
  change 1%Z with (Z.of_nat 1). rewrite norm_dim_nat by (simpl; lia).
  cbn [forallb remove_at firstn skipn app length nth fold_right].
  rewrite !Ex.
  cbn [forallb remove_at firstn skipn app length nth fold_right].
  rewrite Nat.eqb_refl, forallb_eqb_refl. cbn [andb].
  destruct (tshape y) as [| b' [| cy rest']] eqn:Ey;
    try (cbn; discriminate).
  cbn [length firstn skipn app nth].
  destruct (S (S (length rest')) =? S (S (length rest))) eqn:EL;
    [| cbn; discriminate].
  apply Nat.eqb_eq in EL.
  destruct (forallb _ (combine (b' :: rest') (b :: rest))) eqn:EF;
    [| cbn; discriminate].
  apply forallb_eqb_combine in EF; [| simpl; lia].
  inversion EF; subst b' rest'. cbn [andb].
  intros E. inversion E; subst t; clear E. exists cy.
  split; [reflexivity |]. split.
  - unfold replace_at. cbn. now rewrite Nat.add_0_r.
  - intros bi k r. cbn [tdata nth cat_select]. rewrite Ex, Ey. cbn [nth].
    split; intros Hk.
    + destruct (Nat.ltb_spec k cx); [| lia]. reflexivity.
    + destruct (Nat.ltb_spec k cx); [lia |].
      destruct (Nat.ltb_spec (k - cx) cy); [| lia]. reflexivity.
Qed.

Lemma ROMPv1_outputs_data pm cm cam c p :
  ROMPv1_outputs pm cm cam = Some (c, p) ->
  c = cm /\
  exists b cc rest pc,
    tshape cam = b :: cc :: rest /\ 0 < cc /\
    tshape pm = b :: pc :: rest /\
    tshape p = b :: (cc + pc) :: rest /\
    forall bi k r, bi < b -> in_range r rest ->
      (k = 0 -> tdata p (bi :: k :: r)
                = fpow_base (11 / 10)%R (tdata cam (bi :: 0 :: r)))
      /\ (0 < k < cc -> tdata p (bi :: k :: r) = tdata cam (bi :: k :: r))
      /\ (cc <= k < cc + pc ->
          tdata p (bi :: k :: r) = tdata pm (bi :: (k - cc) :: r)).
Proof.
  unfold ROMPv1_outputs, select1, setitem1.
  destruct (tshape cam) as [| b [| cc rest]] eqn:Ecam; try discriminate.
  destruct (Nat.ltb_spec 0 cc) as [Hcc |]; [| discriminate].
  simpl tshape. unfold select1. rewrite Ecam.
  destruct (Nat.ltb_spec 0 cc) as [_ |]; [| lia].
  simpl tshape. rewrite broadcast_shapes_same, forallb_eqb_refl, Nat.eqb_refl.
  cbn [andb].
  match goal with
  | |- (let? _ := cat _ [?t; _] _ in _) = _ -> _ => set (cam' := t)
  end.
  destruct (cat NaN [cam'; pm] 1) as [t |] eqn:Ecat; [| discriminate].
  intros E. inversion E; subst c t; clear E. split; [reflexivity |].
  apply (@cat2_dim1 _ _ _ _ _ b cc rest) in Ecat; [| reflexivity].
  destruct Ecat as (pc & Epm & Ep & Hdata).
  exists b, cc, rest, pc. repeat split; auto.
  - intros ->. destruct (Hdata bi 0 r) as [Hlow _]. rewrite Hlow by assumption.
    subst cam'. cbn [tdata nth Nat.eqb remove_at firstn skipn app tmap].
    rewrite bidx_same by (simpl; auto). reflexivity.
  - intros Hk. destruct (Hdata bi k r) as [Hlow _]. rewrite Hlow by lia.
    subst cam'. cbn [tdata nth]. destruct (Nat.eqb_spec k 0); [lia | reflexivity].
  - intros Hk. destruct (Hdata bi k r) as [_ Hhigh]. now rewrite Hhigh.
Qed.

(** ** The full model on a 512 x 512 image *)

Lemma ROMPv1_heads_shapes_512 params d tr buf :
  match ROMPv1_init with
  | Some self =>
      head_shapes
        (bind (ROMPv1_features params self (mkTensor [1; 512; 512; 3] d))
              (ROMPv1_heads params self) (mkState tr buf))
      = Some ([1; 142; 64; 64], [1; 1; 64; 64], [1; 3; 64; 64])
  | None => False
  end.
Proof. destruct tr; vm_compute; reflexivity. Qed.

Lemma ROMPv1_output_shapes_512 params d tr buf :
  match ROMPv1_init with
  | Some self =>
      output_shapes
        (ROMPv1_forward params self (mkTensor [1; 512; 512; 3] d)
                        (mkState tr buf))
      = Some ([1; 1; 64; 64], [1; 145; 64; 64])
  | None => False
  end.
Proof. destruct tr; vm_compute; reflexivity. Qed.

(** The features the heads read are the 32 backbone channels and the two
    coordinate channels, at a quarter of the input resolution. *)
Example ROMPv1_features_shape_512 :
  match ROMPv1_init with
  | Some self =>
      match ROMPv1_features zero_params self gray_image eval_state with
      | Some (x, _) => tshape x = [1; 34; 128; 128]
      | None => False
      end
  | None => False
  end.
Proof. vm_compute. reflexivity. Qed.

Lemma ROMPv1_init_Some : exists self, ROMPv1_init = Some self.
Proof.
  pose proof (ROMPv1_output_shapes_512 zero_params (fun _ => NaN) false
                (fun _ => fresh_buffers)) as H.
  destruct ROMPv1_init as [self |]; [eauto | contradiction].
Qed.

Lemma ROMPv1_forward_inv params self image st c p st' :
  ROMPv1_forward params self image st = Some ((c, p), st') ->
  exists x st1 body_raw cam_raw,
    ROMPv1_features params self image st = Some (x, st1)
    /\ ROMPv1_heads params self x st1 = Some ((body_raw, c, cam_raw), st')
    /\ ROMPv1_outputs body_raw c cam_raw = Some (c, p).
Proof.
  unfold ROMPv1_forward. intros E.
  apply bind_Some in E. destruct E as (x & st1 & Ef & E).
  apply bind_Some in E. destruct E as ([[pm cm] cam] & st2 & Eh & E).
  apply lift_Some in E. destruct E as [E ->].
  pose proof (ROMPv1_outputs_data _ _ _ E) as [-> _].
  exists x, st1, pm, cam. auto.
Qed.

Lemma ROMPv1_forward_gray_image :
  exists self center_maps params_maps st',
    ROMPv1_init = Some self
    /\ ROMPv1_forward zero_params self gray_image eval_state
         = Some ((center_maps, params_maps), st')
    /\ tshape center_maps = [1; 1; 64; 64]
    /\ tshape params_maps = [1; 145; 64; 64].
Proof.
  destruct ROMPv1_init_Some as [self Hinit].
  pose proof (ROMPv1_output_shapes_512 zero_params (fun _ => Fin 128%R) false
                (fun _ => fresh_buffers)) as H.
  rewrite Hinit in H.
  change (mkTensor [1; 512; 512; 3] (fun _ => Fin 128%R)) with gray_image in H.
  change (mkState false (fun _ => fresh_buffers)) with eval_state in H.
  destruct (ROMPv1_forward _ _ _ _) as [[[c p] st'] |] eqn:Ef;
    [| discriminate].
  simpl in H. inversion H as [[Hc Hp]].
  exists self, c, p, st'. auto.
Qed.

(** C1 (as amended): on every image tensor of shape (1, 512, 512, 3),
    whatever its entries, the parameters and the state, [ROMPv1.forward]
    returns a pair whose first component has shape (1, 1, 64, 64) and whose
    second component has shape (1, 3 + 22*6 + 10, 64, 64) = (1, 145, 64, 64):
    the 3 channels of the camera head (channel 0 after the power transform)
    followed by the 22*6 + 10 = 142 channels of the body/shape head. *)
Theorem C1_forward_shapes params self image st :
  ROMPv1_init = Some self ->
  tshape image = [1; 512; 512; 3] ->
  exists center_maps params_maps st' x st1 body_raw cam_raw,
    ROMPv1_forward params self image st
      = Some ((center_maps, params_maps), st')
    /\ tshape center_maps = [1; 1; 64; 64]
    /\ tshape params_maps = [1; 3 + (22 * 6 + 10); 64; 64]
    /\ ROMPv1_features params self image st = Some (x, st1)
    /\ ROMPv1_heads params self x st1
         = Some ((body_raw, center_maps, cam_raw), st')
    /\ tshape cam_raw = [1; 3; 64; 64]
    /\ tshape body_raw = [1; 22 * 6 + 10; 64; 64]
    /\ forall k i j, i < 64 -> j < 64 ->
         (k = 0 -> tdata params_maps [0; k; i; j]
                   = fpow_base (11 / 10)%R (tdata cam_raw [0; 0; i; j]))
         /\ (0 < k < 3 -> tdata params_maps [0; k; i; j]
                          = tdata cam_raw [0; k; i; j])
         /\ (3 <= k < 3 + (22 * 6 + 10) ->
             tdata params_maps [0; k; i; j] = tdata body_raw [0; k - 3; i; j]).
Proof.
  intros Hinit Himg.
  destruct image as [s d]. simpl in Himg. subst s.
  destruct st as [tr buf].
  pose proof (ROMPv1_output_shapes_512 params d tr buf) as Hout.
  pose proof (ROMPv1_heads_shapes_512 params d tr buf) as Hheads.
  rewrite Hinit in Hout, Hheads.
  destruct (ROMPv1_forward _ _ _ _) as [[[c p] st'] |] eqn:Ef;
    [| discriminate].
  simpl in Hout. inversion Hout as [[Hc Hp]]. clear Hout.
  destruct (ROMPv1_forward_inv _ _ _ _ Ef)
    as (x & st1 & pm & cam & Efeat & Eheads & Eout).
  erewrite bind_eq in Hheads by exact Efeat. rewrite Eheads in Hheads.
  simpl in Hheads. inversion Hheads as [[Hpm Hcm Hcam]]. clear Hheads.
  exists c, p, st', x, st1, pm, cam.
  repeat (split; [first [reflexivity | assumption] |]).
  destruct (ROMPv1_outputs_data _ _ _ Eout)
    as (_ & b & cc & rest & pc & Ecam & Hcc & Epm & Ep & Hdata).
  rewrite Hcam in Ecam. inversion Ecam; subst b cc rest.
  rewrite Hpm in Epm. inversion Epm; subst pc.
  intros k i j Hi Hj.
  apply (Hdata 0 k [i; j]); simpl; auto.
Qed.

Lemma C1_forward_shapes_witness :
  exists self,
    ROMPv1_init = Some self
    /\ tshape gray_image = [1; 512; 512; 3]
    /\ exists center_maps params_maps st',
         ROMPv1_forward zero_params self gray_image eval_state
           = Some ((center_maps, params_maps), st')
         /\ tshape center_maps = [1; 1; 64; 64]
         /\ tshape params_maps = [1; 145; 64; 64].
Proof.
  destruct ROMPv1_init_Some as [self Hinit].
  exists self. split; [exact Hinit |]. split; [reflexivity |].
  destruct (@C1_forward_shapes zero_params self gray_image eval_state Hinit
              eq_refl)
    as (c & p & st' & _ & _ & _ & _ & Ef & Hc & Hp & _).
  exists c, p, st'. auto.
Defined.

(** C1 as stated fails on the mid-gray image: the parameter map has 145
    channels, not 22*6 + 10 = 142. *)
Lemma C1_counterexample :
  exists self center_maps params_maps st',
    ROMPv1_init = Some self
    /\ ROMPv1_forward zero_params self gray_image eval_state
         = Some ((center_maps, params_maps), st')
    /\ tshape params_maps <> [1; 22 * 6 + 10; 64; 64].
Proof.
  destruct ROMPv1_forward_gray_image as (self & c & p & st' & Hi & Ef & _ & Hp).
  exists self, c, p, st'. repeat split; auto.
  rewrite Hp. intros K. vm_compute in K. discriminate K.
Qed.

(** ** The camera scale *)

(** [torch.pow(1.1, r)] on a finite raw value: between -1000 and 900 the
    power is a float32 number above zero; from -1200 down it has underflowed
    to zero; from 1000 up it has overflowed to infinity. *)
Lemma Rpower_nat (n : nat) :
  Rpower (11 / 10) (INR n) = ((11 / 10) ^ n)%R.
Proof. apply Rpower_pow. lra. Qed.

Lemma Rpower_11_10_le r1 r2 :
  (r1 <= r2)%R -> (Rpower (11 / 10) r1 <= Rpower (11 / 10) r2)%R.
Proof. intros H. apply Rle_Rpower; [lra | exact H]. Qed.

Lemma Rpower_11_10_at_1000 :
  (Rpower (11 / 10) 1000 = (11 / 10) ^ 1000)%R.
Proof.
  replace 1000%R with (INR 1000) by (rewrite INR_IZR_INZ; reflexivity).
  apply Rpower_nat.
Qed.

Lemma Rpower_11_10_at_900 :
  (Rpower (11 / 10) 900 = (11 / 10) ^ 900)%R.
Proof.
  replace 900%R with (INR 900) by (rewrite INR_IZR_INZ; reflexivity).
  apply Rpower_nat.
Qed.

Lemma Rpower_11_10_at_1200 :
  (Rpower (11 / 10) 1200 = (11 / 10) ^ 1200)%R.
Proof.
  replace 1200%R with (INR 1200) by (rewrite INR_IZR_INZ; reflexivity).
  apply Rpower_nat.
Qed.

Lemma fpow_base_safe r :
  (-1000 <= r <= 900)%R ->
  fpow_base (11 / 10) (Fin r) = Fin (Rpower (11 / 10) r)
  /\ (0 < Rpower (11 / 10) r)%R.
Proof.
  intros [Hlo Hhi].
  assert (Hpos : (0 < Rpower (11 / 10) r)%R) by (unfold Rpower; apply exp_pos).
  split; [| exact Hpos].
  assert (H1 : (float32_tiny < Rpower (11 / 10) r)%R).
  { apply Rlt_le_trans with (Rpower (11 / 10) (Ropp 1000)).
    - rewrite Rpower_Ropp, Rpower_11_10_at_1000. unfold float32_tiny.
      apply Rinv_lt_contravar; [| lra].
      apply Rmult_lt_0_compat; apply pow_lt; lra.
    - apply Rpower_11_10_le. lra. }
  assert (H2 : (Rpower (11 / 10) r < float32_huge)%R).
  { apply Rle_lt_trans with (Rpower (11 / 10) 900).
    - now apply Rpower_11_10_le.
    - rewrite Rpower_11_10_at_900. unfold float32_huge. lra. }
  unfold fpow_base. cbv zeta.
  destruct (Rle_dec (Rpower (11 / 10) r) float32_tiny); [lra |].
  destruct (Rle_dec float32_huge (Rpower (11 / 10) r)); [lra |].
  reflexivity.
Qed.

Lemma fpow_base_underflow r :
  (r <= -1200)%R -> fpow_base (11 / 10) (Fin r) = Fin 0%R.
Proof.
  intros Hr.
  assert (H : (Rpower (11 / 10) r <= float32_tiny)%R).
  { apply Rle_trans with (Rpower (11 / 10) (Ropp 1200)).
    - apply Rpower_11_10_le. lra.
    - rewrite Rpower_Ropp, Rpower_11_10_at_1200. unfold float32_tiny.
      apply Rinv_le_contravar; [apply pow_lt; lra | lra]. }
  unfold fpow_base. cbv zeta.
  destruct (Rle_dec (Rpower (11 / 10) r) float32_tiny); [reflexivity | lra].
Qed.

Lemma fpow_base_overflow r :
  (1000 <= r)%R -> fpow_base (11 / 10) (Fin r) = PInf.
Proof.
  intros Hr.
  assert (H : (float32_huge <= Rpower (11 / 10) r)%R).
  { apply Rle_trans with (Rpower (11 / 10) 1000).
    - rewrite Rpower_11_10_at_1000. unfold float32_huge. lra.
    - now apply Rpower_11_10_le. }
  assert (Ht : (float32_tiny < float32_huge)%R).
  { unfold float32_tiny, float32_huge.
    assert (0 < / 2 ^ 150 < 1)%R; [| lra].
    split; [apply Rinv_0_lt_compat; apply pow_lt; lra |].
    rewrite <- Rinv_1. apply Rinv_lt_contravar; lra. }
  unfold fpow_base. cbv zeta.
  destruct (Rle_dec (Rpower (11 / 10) r) float32_tiny); [lra |].
  destruct (Rle_dec float32_huge (Rpower (11 / 10) r)); [reflexivity | lra].
Qed.

Lemma fpow_base_nonneg x : nonneg (fpow_base (11 / 10) x).
Proof.
  destruct x as [r | | |]; simpl; auto; [| apply Rle_refl].
  destruct (Rle_dec _ _); [apply Rle_refl |].
  destruct (Rle_dec _ _); [exact I |].
  simpl. left. unfold Rpower. apply exp_pos.
Qed.



(** ** The coordinate map *)

#[local] Arguments Z.mul : simpl never.
#[local] Arguments zsum : simpl never.
#[local] Arguments fdiv : simpl never.
#[local] Arguments fmul : simpl never.
#[local] Arguments fsub : simpl never.

Lemma zsum_1 f : zsum 1 f = Z.add (f 0) 0%Z.
Proof. reflexivity. Qed.

(** The affine map of [get_coord_maps] on an integer entry. *)
Lemma coord_value (z : Z) (N : nat) :
  2 <= N ->
  fsub (fmul (fdiv (Fin (IZR z)) (Fin (IZR (Z.of_nat N - 1)))) (Fin 2%R))
       (Fin 1%R)
  = Fin (IZR z / (INR N - 1) * 2 - 1)%R.
Proof.
  intros HN. unfold fdiv.
  destruct (Req_dec_T (IZR (Z.of_nat N - 1)) 0) as [E | _].
  - apply eq_IZR in E. lia.
  - unfold fmul, fsub, fneg, fadd. f_equal.
    rewrite minus_IZR, <- INR_IZR_INZ. lra.
Qed.

Ltac run_get_coord_maps :=
  unfold get_coord_maps, unsqueeze, matmul, permute, cat, to_float,
    div_scalar, mul_scalar, sub_scalar, tmap, ones, arange;
  simpl; rewrite ?Nat.eqb_refl; simpl.

Lemma get_coord_maps_shape N :
  exists t, get_coord_maps N = Some t /\ tshape t = [1; 2; N; N].
Proof. run_get_coord_maps. eexists. split; reflexivity. Qed.

Lemma get_coord_maps_entries N r c :
  2 <= N ->
  exists t,
    get_coord_maps N = Some t
    /\ tshape t = [1; 2; N; N]
    /\ tdata t [0; 0; r; c] = Fin (INR c / (INR N - 1) * 2 - 1)%R
    /\ tdata t [0; 1; r; c] = Fin (INR r / (INR N - 1) * 2 - 1)%R.
Proof.
  intros HN. run_get_coord_maps.
  eexists. split; [reflexivity |]. simpl. split; [reflexivity |].
  rewrite !zsum_1, !coord_value by assumption.
  split; do 4 f_equal; rewrite INR_IZR_INZ; f_equal; lia.
Qed.

Lemma coord_range (k N : nat) :
  2 <= N -> k < N ->
  (-1 <= INR k / (INR N - 1) * 2 - 1 <= 1)%R.
Proof.
  intros HN Hk.
  assert (H1 : (1 <= INR N - 1)%R).
  { replace 1%R with (INR 1) by reflexivity. rewrite <- minus_INR by lia.
    apply le_INR. lia. }
  assert (H0 : (0 <= INR k)%R) by apply pos_INR.
  assert (Hle : (INR k <= INR N - 1)%R).
  { replace 1%R with (INR 1) by reflexivity. rewrite <- minus_INR by lia.
    apply le_INR. lia. }
  assert (Hq : (0 <= INR k / (INR N - 1) <= 1)%R).
  { split.
    - unfold Rdiv. apply Rmult_le_pos; [lra |].
      left. apply Rinv_0_lt_compat. lra.
    - apply (Rmult_le_reg_r (INR N - 1)); [lra |].
      unfold Rdiv. rewrite Rmult_assoc, Rinv_l by lra. lra. }
  lra.
Qed.

(** C2 (as amended): for every grid size N the result of [get_coord_maps N]
    has shape (1, 2, N, N); whenever N >= 2, channel 0 at row r and column c
    is c/(N-1)*2 - 1 and channel 1 is r/(N-1)*2 - 1, so that channel 0 is -1
    at column 0 and +1 at column N-1, channel 1 likewise along the rows, and
    every entry lies in [-1, 1]. *)
Theorem C2_coord_maps_grid (N : nat) :
  exists t,
    get_coord_maps N = Some t
    /\ tshape t = [1; 2; N; N]
    /\ forall r c, 2 <= N -> r < N -> c < N ->
         tdata t [0; 0; r; c] = Fin (INR c / (INR N - 1) * 2 - 1)%R
         /\ tdata t [0; 1; r; c] = Fin (INR r / (INR N - 1) * 2 - 1)%R
         /\ tdata t [0; 0; r; 0] = Fin (-1)%R
         /\ tdata t [0; 0; r; N - 1] = Fin 1%R
         /\ tdata t [0; 1; 0; c] = Fin (-1)%R
         /\ tdata t [0; 1; N - 1; c] = Fin 1%R
         /\ (-1 <= INR c / (INR N - 1) * 2 - 1 <= 1)%R
         /\ (-1 <= INR r / (INR N - 1) * 2 - 1 <= 1)%R.
Proof.
  destruct (get_coord_maps_shape N) as (t & Et & Hs).
  exists t. split; [assumption |]. split; [assumption |].
  intros r c HN Hr Hc.
  assert (Hent : forall r' c',
             tdata t [0; 0; r'; c'] = Fin (INR c' / (INR N - 1) * 2 - 1)%R
             /\ tdata t [0; 1; r'; c']
                = Fin (INR r' / (INR N - 1) * 2 - 1)%R).
  { intros r' c'.
    destruct (get_coord_maps_entries r' c' HN) as (t' & Et' & _ & H0 & H1).
    rewrite Et in Et'. inversion Et'; subst t'. auto. }
  assert (Hone : (INR (N - 1) / (INR N - 1) * 2 - 1 = 1)%R).
  { rewrite minus_INR by lia. simpl INR.
    assert (INR N - 1 <> 0)%R.
    { replace 1%R with (INR 1) by reflexivity. rewrite <- minus_INR by lia.
      apply not_0_INR. lia. }
    unfold Rdiv. rewrite Rinv_r by assumption. lra. }
  assert (Hzero : (INR 0 / (INR N - 1) * 2 - 1 = -1)%R).
  { simpl INR. unfold Rdiv. rewrite Rmult_0_l. lra. }
  repeat split.
  - apply Hent.
  - apply Hent.
  - destruct (Hent r 0) as [-> _]. now rewrite Hzero.
  - destruct (Hent r (N - 1)) as [-> _]. now rewrite Hone.
  - destruct (Hent 0 c) as [_ ->]. now rewrite Hzero.
  - destruct (Hent (N - 1) c) as [_ ->]. now rewrite Hone.
  - apply coord_range; assumption.
  - apply coord_range; assumption.
  - apply coord_range; assumption.
  - apply coord_range; assumption.
Qed.

Lemma C2_coord_maps_grid_witness :
  exists t,
    get_coord_maps 128 = Some t
    /\ tshape t = [1; 2; 128; 128]
    /\ tdata t [0; 0; 5; 0] = Fin (-1)%R
    /\ tdata t [0; 0; 5; 127] = Fin 1%R
    /\ tdata t [0; 1; 0; 9] = Fin (-1)%R
    /\ tdata t [0; 1; 127; 9] = Fin 1%R.
Proof.
  destruct (C2_coord_maps_grid 128) as (t & Et & Hs & H).
  exists t. split; [exact Et |]. split; [exact Hs |].
  assert (H2 : 2 <= 128) by lia.
  assert (H5 : 5 < 128) by lia.
  assert (H9 : 9 < 128) by lia.
  destruct (H 5 9 H2 H5 H9) as (_ & _ & A & B & _).
  destruct (H 0 9 H2 ltac:(lia) H9) as (_ & _ & _ & _ & C & D & _).
  repeat split; assumption.
Defined.

Lemma get_coord_maps_one :
  exists t,
    get_coord_maps 1 = Some t
    /\ tshape t = [1; 2; 1; 1]
    /\ tdata t [0; 0; 0; 0] = NaN
    /\ tdata t [0; 1; 0; 0] = NaN.
Proof.
  run_get_coord_maps. eexists. split; [reflexivity |]. simpl.
  split; [reflexivity |].
  rewrite !zsum_1. simpl. unfold fdiv.
  destruct (Req_dec_T 0 0) as [_ | E]; [| congruence].
  split; reflexivity.
Qed.

(** C2 as stated fails at N = 1: the only column is both column 0 and column
    N-1, and the entry there is NaN, neither -1 nor +1. *)
Lemma C2_counterexample :
  ~ (forall N r c t,
       get_coord_maps N = Some t -> r < N -> c < N ->
       tdata t [0; 0; r; c]
       = Fin (INR c / (INR N - 1) * 2 - 1)%R).
Proof.
  intros H.
  destruct get_coord_maps_one as (t & Et & _ & Hv & _).
  specialize (H 1 0 0 t Et ltac:(lia) ltac:(lia)).
  rewrite Hv in H. discriminate H.
Qed.

(** C10: [get_coord_maps] divides by [size - 1]; for size = 1 the divisor is
    zero and both entries of the (1, 2, 1, 1) result are NaN (0/0), not
    values of [-1, 1]. *)
Theorem C10_coord_maps_size_one :
  (IZR (Z.of_nat 1 - 1) = 0)%R
  /\ exists t,
       get_coord_maps 1 = Some t
       /\ tshape t = [1; 2; 1; 1]
       /\ forall ch, ch < 2 ->
            tdata t [0; ch; 0; 0] = NaN
            /\ ~ is_finite (tdata t [0; ch; 0; 0]).
Proof.
  split; [reflexivity |].
  destruct get_coord_maps_one as (t & Et & Hs & H0 & H1).
  exists t. split; [assumption |]. split; [assumption |].
  intros ch Hch.
  assert (E : tdata t [0; ch; 0; 0] = NaN).
  { destruct ch as [| [| ch]]; [assumption | assumption | lia]. }
  split; [assumption |].
  rewrite E. intros [v Hv]. discriminate Hv.
Qed.

(** ** The input of the stem *)

Lemma normalise_value (v : R) :
  fsub (fmul (fdiv (Fin v) (Fin 255%R)) (Fin 2%R)) (Fin 1%R)
  = Fin (v / 255 * 2 - 1)%R.
Proof.
  unfold fdiv. destruct (Req_dec_T 255 0) as [E | _]; [exfalso; lra |].
  reflexivity.
Qed.

(** C9: on an input of shape (batch, height, width, 3) the backbone first
    moves the channels in front of the spatial dimensions and maps a pixel
    value v to (v/255)*2 - 1, which lies in [-1, 1] when v lies in [0, 255];
    the first stem convolution is applied to that tensor. *)
Theorem C9_backbone_input params path self (x : tensor fval) (b h w : nat) :
  tshape x = [b; h; w; 3] ->
  exists t,
    normalise_image x = Some t
    /\ tshape t = [b; 3; h; w]
    /\ (forall bi c i j v,
          tdata x [bi; i; j; c] = Fin v ->
          tdata t [bi; c; i; j] = Fin (v / 255 * 2 - 1)%R
          /\ ((0 <= v <= 255)%R -> (-1 <= v / 255 * 2 - 1 <= 1)%R))
    /\ forall st,
         HigherResolutionNet_forward params path self x st
         = (y <- call params (child path "conv1") (conv1 self) t ;;
            HigherResolutionNet_forward_rest params path self y) st.
Proof.
  intros Hx.
  unfold normalise_image, BHWC_to_BCHW, unsqueeze, transpose, squeeze.
  rewrite Hx. simpl.
  eexists. split; [reflexivity |]. split; [reflexivity |]. split.
  - intros bi c i j v Hv. simpl. unfold swap_at, insert_at, remove_at.
    simpl. rewrite Hv. split; [apply normalise_value |]. intros Hr. lra.
  - intros st. unfold HigherResolutionNet_forward, normalise_image,
      BHWC_to_BCHW, unsqueeze, transpose, squeeze.
    rewrite Hx. simpl. reflexivity.
Qed.

Lemma C9_backbone_input_witness :
  exists t,
    normalise_image gray_image = Some t
    /\ tshape t = [1; 3; 512; 512]
    /\ tdata t [0; 2; 7; 9] = Fin (128 / 255 * 2 - 1)%R.
Proof.
  destruct ROMPv1_init_Some as [m _].
  destruct (@C9_backbone_input zero_params "backbone"%string (backbone m)
              gray_image 1 512 512 eq_refl)
    as (t & Et & Hs & Hv & _).
  exists t. split; [exact Et |]. split; [exact Hs |].
  apply (Hv 0 2 7 9 128%R). reflexivity.
Defined.

(** ** What the constructors of the fusion module build *)

Lemma all_some_map_seq {A} (f : nat -> option A) :
  forall n a l,
    all_some (map f (seq a n)) = Some l ->
    length l = n
    /\ forall k, k < n ->
         exists v, f (a + k) = Some v /\ nth_error l k = Some v.
Proof.
  induction n as [| n IH]; intros a l; simpl.
  - intros E. inversion E. split; [reflexivity |]. intros k Hk. lia.
  - destruct (f a) as [v |] eqn:Ea; [| discriminate].
    destruct (all_some (map f (seq (S a) n))) as [r |] eqn:Er;
      [| discriminate].
    intros E. inversion E; subst l. clear E.
    destruct (IH _ _ Er) as [Hlen Hnth].
    split; [simpl; congruence |].
    intros [| k] Hk.
    + exists v. rewrite Nat.add_0_r. auto.
    + destruct (Hnth k ltac:(lia)) as (u & Hu & Hk').
      exists u. rewrite Nat.add_succ_r. auto.
Qed.

Lemma list_set_length {A} (l : list A) i v :
  length (list_set l i v) = length l.
Proof.
  revert i. induction l as [| x l IH]; intros [| i]; simpl; auto.
Qed.

Lemma _make_one_branch_inv nic bi block num_blocks num_channels stride b nic' :
  _make_one_branch nic bi block num_blocks num_channels stride
    = Some (b, nic') ->
  bi < length nic /\ length nic' = length nic.
Proof.
  unfold _make_one_branch.
  destruct (nth_error nic bi) as [inch |] eqn:Ei; [| discriminate].
  destruct (nth_error num_channels bi) as [ch |]; [| discriminate].
  destruct (nth_error num_blocks bi) as [nb |]; [| discriminate].
  intros E. inversion E; subst. split.
  - apply nth_error_Some. congruence.
  - apply list_set_length.
Qed.

Lemma _make_branches_from_inv block num_blocks num_channels :
  forall count nic i bs nic',
    _make_branches_from nic i count block num_blocks num_channels
      = Some (bs, nic') ->
    length bs = count
    /\ length nic' = length nic
    /\ (0 < count -> i + count <= length nic).
Proof.
  induction count as [| count IH]; intros nic i bs nic'; simpl.
  - intros E. inversion E. repeat split; auto. lia.
  - destruct (_make_one_branch nic i block num_blocks num_channels 1)
      as [[b nic1] |] eqn:E1; [| discriminate].
    destruct (_make_branches_from nic1 (S i) count block num_blocks
                num_channels) as [[bs1 nic2] |] eqn:E2; [| discriminate].
    intros E. inversion E; subst. clear E.
    apply _make_one_branch_inv in E1. destruct E1 as [Hi Hl1].
    apply IH in E2. destruct E2 as (Hb & Hl2 & Hc).
    repeat split.
    + simpl. congruence.
    + congruence.
    + intros _. destruct count as [| count]; [lia |].
      specialize (Hc ltac:(lia)). lia.
Qed.

(** What [HighResolutionModule.__init__] leaves in the fields. *)
Lemma HighResolutionModule_init_inv B blocks num_blocks nic num_channels fm
    mso self :
  HighResolutionModule_init B blocks num_blocks nic num_channels fm mso
    = Some self ->
  num_branches self = B
  /\ multi_scale_output self = mso
  /\ hrm_relu self = ReLU true
  /\ length (branches self) = B
  /\ B <= length (num_inchannels self)
  /\ _make_fuse_layers B (num_inchannels self) mso = Some (fuse_layers self).
Proof.
  unfold HighResolutionModule_init, _make_branches.
  destruct (_make_branches_from nic 0 B blocks num_blocks num_channels)
    as [[bs nic'] |] eqn:Eb; [| discriminate].
  destruct (_make_fuse_layers B nic' mso) as [fl |] eqn:Ef; [| discriminate].
  intros E. inversion E; subst self. clear E. simpl.
  apply _make_branches_from_inv in Eb. destruct Eb as (Hb & Hl & Hc).
  repeat split; auto.
  destruct B as [| B]; [lia |]. specialize (Hc ltac:(lia)). lia.
Qed.

(** The entries of [fuse_layers] are those of [make_fuse_entry]. *)
Lemma _make_fuse_layers_entries B nic mso fl :
  _make_fuse_layers B nic mso = Some (Some fl) ->
  length fl = (if mso then B else 1)
  /\ forall i, i < length fl ->
       exists row,
         nth_error fl i = Some row
         /\ length row = B
         /\ forall j, j < B ->
              exists e, make_fuse_entry nic i j = Some e
                        /\ nth_error row j = Some e.
Proof.
  unfold _make_fuse_layers. destruct (B =? 1); [discriminate |].
  destruct (all_some _) as [l |] eqn:El; [| discriminate].
  intros E. inversion E; subst l. clear E.
  apply all_some_map_seq in El. destruct El as [Hlen Hrows].
  split; [assumption |].
  intros i Hi. rewrite Hlen in Hi.
  destruct (Hrows i Hi) as (row & Hrow & Hnth). simpl in Hrow.
  exists row. split; [assumption |].
  apply all_some_map_seq in Hrow. destruct Hrow as [Hl He].
  split; [assumption |]. intros j Hj. apply (He j Hj).
Qed.

(** ** The fusion module computes the fusion of the specification *)

Lemma meq_bind_ret_r {A} (c : M A) : meq (bind c ret) c.
Proof.
  intros st. unfold bind, ret. destruct (c st) as [[a st1] |]; reflexivity.
Qed.

Lemma meq_sym {A} (c1 c2 : M A) : meq c1 c2 -> meq c2 c1.
Proof. intros H st. symmetry. apply H. Qed.

(** Case analysis on every step of two computations that run the same
    steps. *)
Ltac msteps :=
  unfold bind, ret, lift;
  repeat match goal with
    | |- context [match ?c ?st with Some _ => _ | None => _ end] =>
        destruct (c st) as [[? ?] |] eqn:?
    | |- context [match ?o with Some _ => _ | None => _ end] =>
        destruct o eqn:?
    end;
  try reflexivity; try congruence.

Section FusionRefinement.
Variable params : string -> index -> fval.

Lemma call_Sequential path l x :
  call params path (Sequential l) x = call_seq params path l 0 x.
Proof. reflexivity. Qed.

Lemma resample_up_entry path cj ci factor x :
  meq (call params path
         (Sequential [Conv2d cj ci 1 1 0 false; BatchNorm2d_default ci;
                      Upsample factor]) x)
      (resample_up_spec params path cj ci factor x).
Proof.
  intros st. rewrite call_Sequential. unfold resample_up_spec. simpl.
  unfold BatchNorm2d_default. msteps.
Qed.

Lemma resample_down_steps path nic i j cj ci :
  nth_error nic j = Some cj ->
  nth_error nic i = Some ci ->
  forall steps k l x,
    k + steps = i - j ->
    all_some (map (make_conv3x3s_step nic i j) (seq k steps)) = Some l ->
    meq (call_seq params path l k x)
        (resample_down_with params true path cj ci k steps x).
Proof.
  intros Hj Hi.
  induction steps as [| steps IH]; intros k l x Hk; simpl.
  - intros E. inversion E. apply meq_refl.
  - destruct (all_some (map (make_conv3x3s_step nic i j) (seq (S k) steps)))
      as [r |] eqn:Er.
    2:{ destruct (make_conv3x3s_step nic i j k); discriminate. }
    unfold make_conv3x3s_step. rewrite Hj, Hi.
    specialize (IH (S k) r).
    destruct (Nat.eqb_spec k (i - j - 1)) as [Hlast | Hnot];
      intros E; inversion E; subst l; clear E.
    + assert (steps = 0) by lia. subst steps.
      simpl in Er. inversion Er; subst r. simpl.
      intros st. unfold BatchNorm2d_default. msteps.
    + destruct (Nat.eqb_spec steps 0) as [-> | Hs]; [lia |].
      intros st. simpl. unfold BatchNorm2d_default, bind, lift, ret.
      destruct (conv2d params (item (item path k) 0) cj cj 3 2 1 false x)
        as [t1 |]; [| reflexivity].
      destruct (batch_norm params (item (item path k) 1) cj (1 # 10) t1 st)
        as [[t2 st2] |]; [| reflexivity].
      apply IH; [lia | assumption].
Qed.

(** Calling the entry built for the pair (i, j), j <> i, resamples branch j
    for target i. *)
Lemma call_entry_resample path nic i j e x :
  j <> i ->
  make_fuse_entry nic i j = Some e ->
  meq (call_entry params (item (item (child path "fuse_layers") i) j) e x)
      (resample_with params true path nic i j x).
Proof.
  intros Hji. unfold make_fuse_entry, resample_with.
  destruct (Nat.eqb_spec j i) as [| _]; [contradiction |].
  destruct (Nat.ltb_spec i j) as [Hlt | Hge].
  - destruct (nth_error nic j) as [cj |]; [| discriminate].
    destruct (nth_error nic i) as [ci |]; [| discriminate].
    intros E. inversion E; subst e. clear E.
    eapply meq_trans; [apply resample_up_entry |].
    intros st. reflexivity.
  - destruct (all_some _) as [conv3x3s |] eqn:Ec; [| discriminate].
    intros E. inversion E; subst e. clear E.
    assert (Hj : j < i) by lia.
    destruct (all_some_map_seq _ _ _ Ec) as [_ Hsteps].
    destruct (Hsteps 0 ltac:(lia)) as (m0 & Hm0 & _). simpl in Hm0.
    assert (exists cj ci, nth_error nic j = Some cj
                          /\ nth_error nic i = Some ci)
      as (cj & ci & Ej & Ei).
    { destruct (Hsteps (i - j - 1) ltac:(lia)) as (m1 & Hm1 & _).
      simpl in Hm1. unfold make_conv3x3s_step in Hm1.
      rewrite Nat.eqb_refl in Hm1.
      destruct (nth_error nic i) as [ci |]; [| discriminate].
      destruct (nth_error nic j) as [cj |]; [| discriminate]. eauto. }
    rewrite Ej, Ei.
    eapply meq_trans.
    + unfold call_entry. rewrite call_Sequential.
      apply (@resample_down_steps _ nic i j cj ci Ej Ei (i - j) 0);
        [lia | exact Ec].
    + intros st. reflexivity.
Qed.

(** The inner loop adds the resampled branches. *)
Lemma fuse_sum_amended path B nic fl x i row :
  nth_error fl i = Some row ->
  (forall j, j < B ->
     exists e, make_fuse_entry nic i j = Some e /\ nth_error row j = Some e) ->
  forall count j y,
    j + count <= B ->
    meq (fuse_sum params path fl x i y j count)
        (sum_resampled_with params true path nic x i y j count).
Proof.
  intros Hrow Hent.
  induction count as [| count IH]; intros j y Hj; simpl.
  - apply meq_refl.
  - destruct (Hent j ltac:(lia)) as (e & He & Hnth).
    intros st. unfold bind, lift, ret.
    destruct (Nat.eqb_spec i j) as [-> | Hij].
    + unfold resample_with. rewrite Nat.eqb_refl. unfold ret.
      destruct (nth_error x j) as [xj |]; [| reflexivity].
      destruct (tensor_add y xj) as [y' |]; [| reflexivity].
      apply IH. lia.
    + rewrite Hrow, Hnth.
      destruct (nth_error x j) as [xj |]; [| reflexivity].
      rewrite (@call_entry_resample path nic i j e xj ltac:(lia) He st).
      destruct (resample_with params true path nic i j xj st) as [[t st1] |];
        [| reflexivity].
      destruct (tensor_add y t) as [y' |]; [| reflexivity].
      apply IH. lia.
Qed.

Lemma for_each_target_cons {A} (f : nat -> M A) i l st :
  for_each_target f (i :: l) st
  = match f i st with
    | Some (a, st1) =>
        match for_each_target f l st1 with
        | Some (r, st2) => Some (a :: r, st2)
        | None => None
        end
    | None => None
    end.
Proof. reflexivity. Qed.

Lemma fused_output_with_unfold path B nic x i st :
  fused_output_with params true path B nic x i st
  = match nth_error x 0 with
    | Some x0 =>
        match resample_with params true path nic i 0 x0 st with
        | Some (y, st1) =>
            match sum_resampled_with params true path nic x i y 1 (B - 1) st1 with
            | Some (y', st2) => Some (relu_forward y', st2)
            | None => None
            end
        | None => None
        end
    | None => None
    end.
Proof.
  unfold fused_output_with, bind, lift, ret.
  destruct (nth_error x 0); reflexivity.
Qed.

(** The first summand of target [i]: branch 0, resampled. *)
Lemma fuse_first_amended path B nic fl x i row st :
  0 < B ->
  nth_error fl i = Some row ->
  (forall j, j < B ->
     exists e, make_fuse_entry nic i j = Some e /\ nth_error row j = Some e) ->
  (if i =? 0 then lift (nth_error x 0)
   else
     row0 <- lift (nth_error fl i) ;;
     f <- lift (nth_error row0 0) ;;
     x0 <- lift (nth_error x 0) ;;
     call_entry params (item (item (child path "fuse_layers") i) 0) f x0) st
  = match nth_error x 0 with
    | Some x0 => resample_with params true path nic i 0 x0 st
    | None => None
    end.
Proof.
  intros HB Hrow Hent.
  destruct (Nat.eqb_spec i 0) as [-> | Hi0].
  - unfold resample_with. simpl. unfold lift, ret.
    destruct (nth_error x 0); reflexivity.
  - destruct (Hent 0 HB) as (e & He & Hnth).
    unfold bind, lift. rewrite Hrow, Hnth.
    destruct (nth_error x 0) as [x0 |]; [| reflexivity].
    apply (@call_entry_resample path nic i 0 e x0 ltac:(lia) He st).
Qed.

(** The outer loop computes the fused output of every target. *)
Lemma fuse_outputs_amended path B nic fl x :
  0 < B ->
  (forall i, i < length fl ->
     exists row,
       nth_error fl i = Some row
       /\ forall j, j < B ->
            exists e, make_fuse_entry nic i j = Some e
                      /\ nth_error row j = Some e) ->
  forall count i,
    i + count <= length fl ->
    meq (fuse_outputs params path B fl (ReLU true) x i count)
        (for_each_target (fused_output_with params true path B nic x)
                         (seq i count)).
Proof.
  intros HB Hfl.
  induction count as [| count IH]; intros i Hi.
  - apply meq_refl.
  - destruct (Hfl i ltac:(lia)) as (row & Hrow & Hent).
    intros st. cbn [seq]. rewrite for_each_target_cons.
    rewrite fused_output_with_unfold.
    cbn [fuse_outputs]. unfold bind at 1.
    rewrite (@fuse_first_amended path B nic fl x i row st HB Hrow Hent).
    destruct (nth_error x 0) as [x0 |]; [| reflexivity].
    destruct (resample_with params true path nic i 0 x0 st) as [[y st1] |];
      [| reflexivity].
    unfold bind at 1.
    rewrite (@fuse_sum_amended path B nic fl x i row Hrow Hent (B - 1) 1 y
               ltac:(lia) st1).
    destruct (sum_resampled_with params true path nic x i y 1 (B - 1) st1)
      as [[y' st2] |]; [| reflexivity].
    unfold bind at 1. cbn [call]. unfold ret at 1. unfold bind at 1.
    rewrite (IH (S i) ltac:(lia) st2).
    destruct (for_each_target _ _ st2) as [[r st3] |]; reflexivity.
Qed.

(** For a module of more than one branch, [HighResolutionModule.forward]
    computes the fusion of the amended claim. *)
Lemma HighResolutionModule_forward_fusion_amended B blocks num_blocks nic
    num_channels fm mso self :
  HighResolutionModule_init B blocks num_blocks nic num_channels fm mso
    = Some self ->
  1 < B ->
  forall path x,
    meq (HighResolutionModule_forward params path self x)
        (fusion_amended params path self x).
Proof.
  intros Hinit HB path x.
  destruct (HighResolutionModule_init_inv _ _ _ _ _ _ _ Hinit)
    as (Hnb & Hmso & Hrelu & Hlen & Hnic & Hfuse).
  unfold HighResolutionModule_forward, fusion_amended, fusion_with.
  rewrite Hnb, Hmso, Hrelu.
  destruct (Nat.eqb_spec B 1) as [| _]; [lia |].
  destruct (fuse_layers self) as [fl |] eqn:Efl.
  2:{ unfold _make_fuse_layers in Hfuse.
      destruct (Nat.eqb_spec B 1); [lia |].
      destruct (all_some _); discriminate. }
  destruct (_make_fuse_layers_entries _ _ _ Hfuse) as [Hfl Hrows].
  apply meq_bind; [apply meq_refl |]. intros x'.
  eapply meq_trans; [apply meq_bind_lift_Some; reflexivity |].
  rewrite <- Hfl.
  apply fuse_outputs_amended; [lia | | lia].
  intros i Hi. destruct (Hrows i Hi) as (row & Hrow & _ & Hent). eauto.
Qed.
(** A cascade of at most one step has no inner activation: for the targets
    0 and 1 the fusion of the specification's words and the fusion of the
    amended claim agree. *)
Lemma resample_with_short ia path nic i j x st :
  i <= S j ->
  resample_with params ia path nic i j x st
  = resample_with params false path nic i j x st.
Proof.
  intros Hij. unfold resample_with.
  destruct (j =? i); [reflexivity |].
  unfold bind, lift.
  destruct (nth_error nic j) as [cj |]; [| reflexivity].
  destruct (nth_error nic i) as [ci |]; [| reflexivity].
  destruct (i <? j); [reflexivity |].
  destruct (i - j) as [| [| n]] eqn:E; [reflexivity | | lia].
  destruct ia; reflexivity.
Qed.

Lemma sum_resampled_with_short ia path nic x i :
  i <= 1 ->
  forall count y j st,
    1 <= j ->
    sum_resampled_with params ia path nic x i y j count st
    = sum_resampled_with params false path nic x i y j count st.
Proof.
  intros Hi. induction count as [| count IH]; intros y j st Hj; simpl;
    [reflexivity |].
  unfold bind, lift.
  destruct (nth_error x j) as [xj |]; [| reflexivity].
  rewrite resample_with_short by lia.
  destruct (resample_with params false path nic i j xj st)
    as [[r st2] |]; [| reflexivity].
  destruct (tensor_add y r) as [y' |]; [| reflexivity].
  apply IH. lia.
Qed.

Lemma fused_output_with_short ia path B nic x i st :
  i <= 1 ->
  fused_output_with params ia path B nic x i st
  = fused_output_with params false path B nic x i st.
Proof.
  intros Hi. unfold fused_output_with, bind, lift.
  destruct (nth_error x 0) as [x0 |]; [| reflexivity].
  rewrite resample_with_short by lia.
  destruct (resample_with params false path nic i 0 x0 st)
    as [[y st2] |]; [| reflexivity].
  rewrite sum_resampled_with_short by lia.
  reflexivity.
Qed.

Lemma for_each_target_ext {A} (f g : nat -> M A) targets :
  (forall i st, In i targets -> f i st = g i st) ->
  forall st, for_each_target f targets st = for_each_target g targets st.
Proof.
  induction targets as [| i l IH]; intros H st; [reflexivity |].
  rewrite !for_each_target_cons. rewrite (H i st) by now left.
  destruct (g i st) as [[a st1] |]; [| reflexivity].
  rewrite IH; [reflexivity |]. intros k st' Hk. apply H. now right.
Qed.

(** In a module of two branches, or of one computed target, no cascade has
    more than one step. *)
Lemma fusion_with_short ia path self x :
  (if multi_scale_output self then num_branches self else 1) <= 2 ->
  meq (fusion_with params ia path self x)
      (fusion_with params false path self x).
Proof.
  intros H st. unfold fusion_with, bind.
  destruct (run_branches params path (branches self) x 0 (num_branches self)
              st) as [[x' st1] |]; [| reflexivity].
  apply for_each_target_ext. intros i st' Hi.
  apply in_seq in Hi. apply fused_output_with_short. lia.
Qed.
End FusionRefinement.

(** ** The fusion module: claims *)

Lemma nth_error_lt_Some {A} (l : list A) k :
  k < length l -> exists v, nth_error l k = Some v.
Proof.
  intros H. destruct (nth_error l k) as [v |] eqn:E; [eauto |].
  apply nth_error_None in E. lia.
Qed.

(** The layers of the entry built for the pair (i, j). *)
Lemma make_fuse_entry_layers nic i j cj ci e :
  nth_error nic j = Some cj ->
  nth_error nic i = Some ci ->
  make_fuse_entry nic i j = Some e ->
  (i < j ->
   e = Some (Sequential [Conv2d cj ci 1 1 0 false; BatchNorm2d_default ci;
                         Upsample (2 ^ (j - i))]))
  /\ (j = i -> e = None)
  /\ (j < i ->
      exists steps,
        e = Some (Sequential steps)
        /\ length steps = i - j
        /\ forall k, k < i - j ->
             nth_error steps k
             = Some (Sequential
                       (Conv2d cj (if k =? i - j - 1 then ci else cj)
                               3 2 1 false
                        :: BatchNorm2d_default
                             (if k =? i - j - 1 then ci else cj)
                        :: (if k =? i - j - 1 then [] else [ReLU true])))).
Proof.
  intros Ej Ei. unfold make_fuse_entry. rewrite Ej, Ei.
  destruct (Nat.ltb_spec i j) as [Hlt | Hge].
  - intros E. inversion E. repeat split; intros; try lia; reflexivity.
  - destruct (Nat.eqb_spec j i) as [-> | Hne].
    + intros E. inversion E. repeat split; intros; try lia; reflexivity.
    + destruct (all_some _) as [steps |] eqn:Es; [| discriminate].
      intros E. inversion E; subst e. clear E.
      repeat split; intros; try lia.
      exists steps. split; [reflexivity |].
      destruct (all_some_map_seq _ _ _ Es) as [Hlen Hk].
      split; [assumption |]. intros k Hlt.
      destruct (Hk k Hlt) as (v & Hv & Hn). rewrite Hn. f_equal.
      simpl in Hv. unfold make_conv3x3s_step in Hv. rewrite Ej, Ei in Hv.
      destruct (k =? i - j - 1); inversion Hv; reflexivity.
Qed.



(** C5: a fusion module constructed with exactly one branch has no fusion
    layers, and its forward pass on a one-element list returns the
    one-element list holding the output of the sole branch: nothing is
    applied after the branch. *)
Theorem C5_single_branch params blocks num_blocks nic num_channels fm mso
    self :
  HighResolutionModule_init 1 blocks num_blocks nic num_channels fm mso
    = Some self ->
  fuse_layers self = None
  /\ exists b,
       branches self = [b]
       /\ forall path x0 st,
            HighResolutionModule_forward params path self [x0] st
            = match call params (item (child path "branches") 0) b x0 st with
              | Some (y, st') => Some ([y], st')
              | None => None
              end.
Proof.
  intros Hinit.
  destruct (HighResolutionModule_init_inv _ _ _ _ _ _ _ Hinit)
    as (Hnb & _ & _ & Hlen & _ & Hfuse).
  unfold _make_fuse_layers in Hfuse. simpl in Hfuse.
  inversion Hfuse as [Hfl]. split; [reflexivity |].
  destruct (branches self) as [| b [| b' bs]] eqn:Eb; try discriminate.
  exists b. split; [reflexivity |].
  intros path x0 st. unfold HighResolutionModule_forward.
  rewrite Hnb, Eb. reflexivity.
Qed.

Lemma C5_single_branch_witness :
  exists self,
    HighResolutionModule_init 1 BasicBlock_class [4] [32] [32] "SUM" true
      = Some self
    /\ fuse_layers self = None.
Proof.
  destruct (HighResolutionModule_init 1 BasicBlock_class [4] [32] [32]
              "SUM" true) as [self |] eqn:E.
  - exists self. split; [reflexivity |].
    apply (@C5_single_branch zero_params _ _ _ _ _ _ _ E).
  - vm_compute in E. discriminate E.
Defined.

(** The outer loop returns one output per iteration. *)
Lemma fuse_outputs_length params path B fl r x :
  forall count i st ys st',
    fuse_outputs params path B fl r x i count st = Some (ys, st') ->
    length ys = count.
Proof.
  induction count as [| count IH]; intros i st ys st'; simpl.
  - intros E. apply ret_Some in E. destruct E as [-> _]. reflexivity.
  - intros E.
    apply bind_Some in E. destruct E as (y & st1 & _ & E).
    apply bind_Some in E. destruct E as (y' & st2 & _ & E).
    apply bind_Some in E. destruct E as (out & st3 & _ & E).
    apply bind_Some in E. destruct E as (rest & st4 & Erest & E).
    apply ret_Some in E. destruct E as [-> _].
    simpl. f_equal. eapply IH; eauto.
Qed.

(** The flag that [_make_stage] passes to module [k] of a stage. *)
Lemma _make_stage_from_flags nm nb block num_blocks num_channels fm mso :
  forall count i nic ms nic',
    _make_stage_from i count nm nb block num_blocks nic num_channels fm mso
    = Some (ms, nic') ->
    forall k m,
      nth_error ms k = Some m ->
      multi_scale_output m
      = (if negb mso && (i + k =? nm - 1) then false else true).
Proof.
  induction count as [| count IH]; intros i nic ms nic'; simpl.
  - intros E. inversion E. intros [| k] m Hk; discriminate Hk.
  - destruct (HighResolutionModule_init _ _ _ _ _ _ _) as [m0 |] eqn:E0;
      [| discriminate].
    destruct (_make_stage_from _ _ _ _ _ _ _ _ _ _) as [[ms1 nic1] |] eqn:E1;
      [| discriminate].
    intros E. inversion E; subst ms nic'. clear E.
    intros [| k] m Hk; simpl in Hk.
    + inversion Hk; subst m. rewrite Nat.add_0_r.
      now destruct (HighResolutionModule_init_inv _ _ _ _ _ _ _ E0)
        as (_ & -> & _).
    + rewrite Nat.add_succ_r. apply (IH _ _ _ _ E1 k m Hk).
Qed.

(** C6: a fusion module constructed with [multi_scale_output = False] has
    fusion layers for target 0 only, and its forward pass returns a list of
    length 1, the fused output of target 0; [_make_stage] constructs a module
    that way only when it is the last of a stage asked for single-scale
    output, and in the backbone that is the last module of stage 4 alone. *)
Theorem C6_single_scale_output params B blocks num_blocks nic num_channels
    fm self :
  HighResolutionModule_init B blocks num_blocks nic num_channels fm false
    = Some self ->
  multi_scale_output self = false
  /\ (B <> 1 -> exists row, fuse_layers self = Some [row])
  /\ (forall path x st ys st',
        HighResolutionModule_forward params path self x st = Some (ys, st') ->
        length ys = 1)
  /\ (1 < B ->
      forall path x,
        meq (HighResolutionModule_forward params path self x)
            (x' <- run_branches params path (branches self) x 0 B ;;
             y <- fused_output_spec params path B (num_inchannels self) x' 0 ;;
             ret [y]))
  /\ (forall cfg num_inchannels mso ms num_inchannels' k m,
        _make_stage cfg num_inchannels mso = Some (ms, num_inchannels') ->
        nth_error ms k = Some m ->
        multi_scale_output m
        = (if negb mso && (k =? NUM_MODULES cfg - 1) then false else true))
  /\ backbone_multi_scale_flags
     = Some ([true], [true; true; true; true], [true; true; false]).
Proof.
  intros Hinit.
  destruct (HighResolutionModule_init_inv _ _ _ _ _ _ _ Hinit)
    as (Hnb & Hmso & Hrelu & Hlen & Hnic & Hfuse).
  split; [assumption |]. split; [| split; [| split; [| split]]].
  - intros HB. unfold _make_fuse_layers in Hfuse.
    destruct (Nat.eqb_spec B 1); [contradiction |].
    destruct (all_some _) as [fl |] eqn:Efl; [| discriminate].
    inversion Hfuse as [Hf].
    destruct (all_some_map_seq _ _ _ Efl) as [Hl _].
    destruct fl as [| row [| ? ?]]; try discriminate. eauto.
  - intros path x st ys st'. unfold HighResolutionModule_forward.
    rewrite Hnb. destruct (Nat.eqb_spec B 1) as [HB | HB].
    + intros E.
      apply bind_Some in E. destruct E as (b & st1 & _ & E).
      apply bind_Some in E. destruct E as (x0 & st2 & _ & E).
      apply bind_Some in E. destruct E as (y & st3 & _ & E).
      apply ret_Some in E. destruct E as [-> _]. reflexivity.
    + intros E.
      apply bind_Some in E. destruct E as (x' & st1 & _ & E).
      apply bind_Some in E. destruct E as (fl & st2 & Efl & E).
      apply lift_Some in Efl. destruct Efl as [Efl _].
      apply fuse_outputs_length in E. rewrite E.
      unfold _make_fuse_layers in Hfuse.
      destruct (Nat.eqb_spec B 1); [contradiction |].
      destruct (all_some _) as [fl' |] eqn:Efl'; [| discriminate].
      inversion Hfuse as [Hf]. rewrite Efl in Hf. inversion Hf; subst fl'.
      now destruct (all_some_map_seq _ _ _ Efl') as [Hl _].
  - intros HB path x.
    eapply meq_trans;
      [eapply HighResolutionModule_forward_fusion_amended; eassumption |].
    unfold fusion_amended, fusion_with. rewrite Hnb, Hmso.
    apply meq_bind; [apply meq_refl |]. intros x'. intros st.
    simpl. unfold bind, ret.
    rewrite fused_output_with_short by lia.
    change (fused_output_with params false) with (fused_output_spec params).
    destruct (fused_output_spec _ _ _ _ _ _ st) as [[y st1] |]; reflexivity.
  - intros cfg nic0 mso0 ms nic1 k m Hstage Hk.
    unfold _make_stage in Hstage.
    destruct (blocks_dict (BLOCK cfg)) as [blk |]; [| discriminate].
    eapply _make_stage_from_flags with (k := k) (m := m) in Hstage;
      [exact Hstage | exact Hk].
  - vm_compute. reflexivity.
Qed.

Lemma C6_single_scale_output_witness :
  exists self,
    HighResolutionModule_init 4 BasicBlock_class [4; 4; 4; 4]
      [32; 64; 128; 256] [32; 64; 128; 256] "SUM" false = Some self
    /\ multi_scale_output self = false
    /\ exists row, fuse_layers self = Some [row].
Proof.
  destruct (HighResolutionModule_init 4 BasicBlock_class [4; 4; 4; 4]
              [32; 64; 128; 256] [32; 64; 128; 256] "SUM" false)
    as [self |] eqn:E.
  - exists self. split; [reflexivity |].
    destruct (@C6_single_scale_output zero_params _ _ _ _ _ _ _ E)
      as (Hm & Hf & _).
    split; [exact Hm |]. apply Hf. lia.
  - vm_compute in E. discriminate E.
Defined.

(** ** Training mode: the outputs do not read the buffers *)

Lemma train_blind_ret {A} (a : A) : train_blind (ret a).
Proof. intros st1 st2 H1 H2. simpl. auto. Qed.

Lemma train_blind_lift {A} (o : option A) : train_blind (lift o).
Proof. intros st1 st2 H1 H2. unfold lift. destruct o; simpl; auto. Qed.

Lemma train_blind_bind {A B} (c : M A) (k : A -> M B) :
  train_blind c -> (forall a, train_blind (k a)) -> train_blind (bind c k).
Proof.
  intros Hc Hk st1 st2 H1 H2. unfold bind.
  specialize (Hc st1 st2 H1 H2).
  destruct (c st1) as [[a1 s1] |], (c st2) as [[a2 s2] |];
    try contradiction; [| exact I].
  destruct Hc as (-> & T1 & T2). apply Hk; assumption.
Qed.

Lemma train_blind_batch_norm params path n mo x :
  train_blind (batch_norm params path n mo x).
Proof.
  intros st1 st2 H1 H2. unfold batch_norm. rewrite H1, H2.
  destruct (tshape x) as [| b [| c [| h [| w [| ? ?]]]]]; try exact I.
  destruct (c =? n); [| exact I].
  destruct (negb (b * h * w =? 1)); [| exact I].
  simpl. auto.
Qed.

Ltac train_blind_step :=
  first [ apply train_blind_bind; [| intro]
        | apply train_blind_ret
        | apply train_blind_lift
        | apply train_blind_batch_norm ].

Lemma train_blind_call_seq params path l :
  Forall (fun m => forall path x, train_blind (call params path m x)) l ->
  forall i x, train_blind (call_seq params path l i x).
Proof.
  induction 1 as [| m l Hm _ IH]; intros i x; simpl.
  - apply train_blind_ret.
  - apply train_blind_bind; [apply Hm | intro; apply IH].
Qed.

Lemma train_blind_call params m :
  forall path x, train_blind (call params path m x).
Proof.
  induction m using module_tree_ind; intros path x.
  - apply train_blind_lift.
  - apply train_blind_batch_norm.
  - apply train_blind_ret.
  - apply train_blind_lift.
  - change (train_blind (call_seq params path l 0 x)).
    now apply train_blind_call_seq.
  - simpl. repeat (train_blind_step; auto).
    destruct d; [apply (H _ eq_refl) | apply train_blind_ret].
  - simpl. repeat (train_blind_step; auto).
    destruct d; [apply (H _ eq_refl) | apply train_blind_ret].
Qed.

Create HintDb train_blind.
#[local] Hint Resolve train_blind_ret train_blind_lift train_blind_batch_norm
  train_blind_call : train_blind.

Ltac train_blind_auto :=
  repeat first
    [ train_blind_step
    | apply train_blind_call
    | match goal with
      | |- train_blind (if ?b then _ else _) => destruct b
      | |- train_blind (match ?o with Some _ => _ | None => _ end) =>
          destruct o
      | |- train_blind (let 'pair _ _ := ?p in _) => destruct p
      end ];
  auto with train_blind.

Lemma train_blind_call_entry params path e x :
  train_blind (call_entry params path e x).
Proof. unfold call_entry. train_blind_auto. Qed.

#[local] Hint Resolve train_blind_call_entry : train_blind.

Lemma train_blind_run_branches params path bs count :
  forall x i, train_blind (run_branches params path bs x i count).
Proof.
  induction count as [| count IH]; intros x i; simpl; train_blind_auto.
Qed.

Lemma train_blind_fuse_sum params path fl x i count :
  forall y j, train_blind (fuse_sum params path fl x i y j count).
Proof.
  induction count as [| count IH]; intros y j; simpl; train_blind_auto.
Qed.

#[local] Hint Resolve train_blind_run_branches train_blind_fuse_sum
  : train_blind.

Lemma train_blind_fuse_outputs params path nb fl r x count :
  forall i, train_blind (fuse_outputs params path nb fl r x i count).
Proof.
  induction count as [| count IH]; intros i; simpl; train_blind_auto.
Qed.

#[local] Hint Resolve train_blind_fuse_outputs : train_blind.

Lemma train_blind_HighResolutionModule_forward params path self x :
  train_blind (HighResolutionModule_forward params path self x).
Proof. unfold HighResolutionModule_forward. train_blind_auto. Qed.

#[local] Hint Resolve train_blind_HighResolutionModule_forward : train_blind.

Lemma train_blind_stage_forward params path ms :
  forall i x, train_blind (stage_forward params path ms i x).
Proof.
  induction ms as [| m ms IH]; intros i x; simpl; train_blind_auto.
Qed.

Lemma train_blind_transition_forward params path tr input pass count :
  forall i,
    train_blind (transition_forward params path tr input pass i count).
Proof.
  induction count as [| count IH]; intros i; simpl; train_blind_auto.
Qed.

#[local] Hint Resolve train_blind_stage_forward
  train_blind_transition_forward : train_blind.

Lemma train_blind_HigherResolutionNet_forward params path self x :
  train_blind (HigherResolutionNet_forward params path self x).
Proof.
  unfold HigherResolutionNet_forward, HigherResolutionNet_forward_rest.
  train_blind_auto.
Qed.

#[local] Hint Resolve train_blind_HigherResolutionNet_forward : train_blind.

Lemma train_blind_ROMPv1_forward params self image :
  train_blind (ROMPv1_forward params self image).
Proof.
  unfold ROMPv1_forward, ROMPv1_features, ROMPv1_heads. train_blind_auto.
Qed.

(** * The buffers that a forward pass writes *)

Lemma prefix_refl s : String.prefix s s = true.
Proof.
  induction s as [| a s IH]; [reflexivity |].
  simpl. destruct (Ascii.ascii_dec a a); [exact IH | contradiction].
Qed.

Lemma prefix_empty q : String.prefix "" q = true.
Proof. destruct q; reflexivity. Qed.

Lemma prefix_app p s q :
  String.prefix (p ++ s) q = true -> String.prefix p q = true.
Proof.
  revert q. induction p as [| a p IH]; intros q;
    [intros _; apply prefix_empty |].
  destruct q as [| b q]; [discriminate |].
  cbn [append String.prefix].
  destruct (Ascii.ascii_dec a b); [apply IH | discriminate].
Qed.

Lemma prefix_child p n q :
  String.prefix p q = false -> String.prefix (child p n) q = false.
Proof.
  intros H. destruct (String.prefix (child p n) q) eqn:E; [| reflexivity].
  unfold child in E. destruct (String.eqb_spec p "") as [-> | _].
  - rewrite prefix_empty in H. discriminate H.
  - apply prefix_app in E. congruence.
Qed.

Lemma prefix_item p i q :
  String.prefix p q = false -> String.prefix (item p i) q = false.
Proof. apply prefix_child. Qed.

Lemma writes_below_ret path {A} (a : A) : writes_below path (ret a).
Proof. intros st x st' E. apply ret_Some in E. destruct E as [_ ->]. auto. Qed.

Lemma writes_below_lift path {A} (o : option A) :
  writes_below path (lift o).
Proof.
  intros st x st' E. apply lift_Some in E. destruct E as [_ ->]. auto.
Qed.

Lemma writes_below_bind path {A B} (c : M A) (k : A -> M B) :
  writes_below path c -> (forall a, writes_below path (k a)) ->
  writes_below path (bind c k).
Proof.
  intros Hc Hk st b st' E.
  apply bind_Some in E. destruct E as (a & st1 & E1 & E2).
  destruct (Hc _ _ _ E1) as [T1 B1]. destruct (Hk _ _ _ _ E2) as [T2 B2].
  split; [congruence |]. intros q Hq. rewrite B2, B1 by assumption.
  reflexivity.
Qed.

(** What is written under a child is written under the parent. *)
Lemma writes_below_child path n {A} (c : M A) :
  writes_below (child path n) c -> writes_below path c.
Proof.
  intros H st a st' E. destruct (H _ _ _ E) as [T Hb].
  split; [exact T |]. intros q Hq. apply Hb. now apply prefix_child.
Qed.

Lemma writes_below_item path i {A} (c : M A) :
  writes_below (item path i) c -> writes_below path c.
Proof. apply writes_below_child. Qed.

(** A normalisation layer writes its own buffers only. *)
Lemma writes_below_batch_norm params path n mo x :
  writes_below path (batch_norm params path n mo x).
Proof.
  intros st y st'. unfold batch_norm.
  destruct (tshape x) as [| b [| c [| h [| w [| ? ?]]]]]; try discriminate.
  destruct (c =? n); [| discriminate].
  destruct (training st) eqn:T.
  - destruct (negb (b * h * w =? 1)); [| discriminate].
    intros E. injection E as _ <-. cbn [training buffers].
    split; [reflexivity |]. intros q Hq.
    destruct (String.eqb_spec q path) as [-> | _]; [| reflexivity].
    rewrite prefix_refl in Hq. discriminate Hq.
  - intros E. injection E as _ <-. auto.
Qed.

Lemma writes_below_call_seq params path l :
  Forall (fun m => forall path x, writes_below path (call params path m x))
         l ->
  forall i x, writes_below path (call_seq params path l i x).
Proof.
  induction 1 as [| m l Hm _ IH]; intros i x; simpl.
  - apply writes_below_ret.
  - apply writes_below_bind; [| intro; apply IH].
    apply writes_below_item with i. apply Hm.
Qed.

Lemma writes_below_call params m :
  forall path x, writes_below path (call params path m x).
Proof.
  induction m using module_tree_ind; intros path x.
  - apply writes_below_lift.
  - apply writes_below_batch_norm.
  - apply writes_below_ret.
  - apply writes_below_lift.
  - change (writes_below path (call_seq params path l 0 x)).
    now apply writes_below_call_seq.
  - simpl.
    repeat (apply writes_below_bind; [| intro]);
      try (eapply writes_below_child; auto; fail);
      try apply writes_below_lift.
    destruct d; [| apply writes_below_ret].
    eapply writes_below_child. apply (H _ eq_refl).
  - simpl.
    repeat (apply writes_below_bind; [| intro]);
      try (eapply writes_below_child; auto; fail);
      try apply writes_below_lift.
    destruct d; [| apply writes_below_ret].
    eapply writes_below_child. apply (H _ eq_refl).
Qed.

Lemma writes_below_call_entry params path e x :
  writes_below path (call_entry params path e x).
Proof.
  destruct e; simpl; [apply writes_below_call | apply writes_below_lift].
Qed.

(** One step: a bind, a value, or a call registered under a child or an
    item of [path], at any depth below three. *)
Ltac writes_below_step :=
  first
    [ apply writes_below_bind; [| intro]
    | apply writes_below_ret
    | apply writes_below_lift
    | apply writes_below_call
    | apply writes_below_call_entry
    | apply writes_below_batch_norm
    | eapply writes_below_child; first [apply writes_below_call
                                       | apply writes_below_call_entry]
    | eapply writes_below_child; eapply writes_below_child;
      first [apply writes_below_call | apply writes_below_call_entry]
    | eapply writes_below_child; eapply writes_below_child;
      eapply writes_below_child;
      first [apply writes_below_call | apply writes_below_call_entry]
    | match goal with
      | |- writes_below _ (if ?b then _ else _) => destruct b
      | |- writes_below _ (match ?o with Some _ => _ | None => _ end) =>
          destruct o
      end ].

Lemma writes_below_run_branches params path bs count :
  forall x i, writes_below path (run_branches params path bs x i count).
Proof.
  induction count as [| count IH]; intros x i; simpl;
    repeat writes_below_step; apply IH.
Qed.

Lemma writes_below_fuse_sum params path fl x i count :
  forall y j, writes_below path (fuse_sum params path fl x i y j count).
Proof.
  induction count as [| count IH]; intros y j; simpl;
    repeat writes_below_step; apply IH.
Qed.

Lemma writes_below_fuse_outputs params path nb fl r x count :
  forall i, writes_below path (fuse_outputs params path nb fl r x i count).
Proof.
  induction count as [| count IH]; intros i; cbn [fuse_outputs];
    repeat writes_below_step;
    first [apply writes_below_fuse_sum | apply IH].
Qed.

Lemma writes_below_HighResolutionModule_forward params path self x :
  writes_below path (HighResolutionModule_forward params path self x).
Proof.
  unfold HighResolutionModule_forward. repeat writes_below_step;
    first [apply writes_below_run_branches | apply writes_below_fuse_outputs].
Qed.

Lemma writes_below_stage_forward params path ms :
  forall i x, writes_below path (stage_forward params path ms i x).
Proof.
  induction ms as [| m ms IH]; intros i x; simpl; repeat writes_below_step;
    [| apply IH].
  eapply writes_below_item. apply writes_below_HighResolutionModule_forward.
Qed.

Lemma writes_below_transition_forward params path tr input pass count :
  forall i,
    writes_below path (transition_forward params path tr input pass i count).
Proof.
  induction count as [| count IH]; intros i; simpl; repeat writes_below_step;
    apply IH.
Qed.

Lemma writes_below_HigherResolutionNet_forward_rest params path self x :
  writes_below path (HigherResolutionNet_forward_rest params path self x).
Proof.
  unfold HigherResolutionNet_forward_rest. repeat writes_below_step.
  all: eapply writes_below_child.
  all: try apply writes_below_transition_forward.
  all: apply writes_below_stage_forward.
Qed.

Lemma writes_below_HigherResolutionNet_forward params path self x :
  writes_below path (HigherResolutionNet_forward params path self x).
Proof.
  unfold HigherResolutionNet_forward.
  apply writes_below_bind; [apply writes_below_lift | intro].
  apply writes_below_bind;
    [eapply writes_below_child; apply writes_below_call | intro].
  apply writes_below_HigherResolutionNet_forward_rest.
Qed.

Lemma keeps_buffers_ret q {A} (a : A) : keeps_buffers q (ret a).
Proof. intros st x st' E. apply ret_Some in E. destruct E as [_ ->]. auto. Qed.

Lemma keeps_buffers_lift q {A} (o : option A) : keeps_buffers q (lift o).
Proof.
  intros st x st' E. apply lift_Some in E. destruct E as [_ ->]. auto.
Qed.

Lemma keeps_buffers_bind q {A B} (c : M A) (k : A -> M B) :
  keeps_buffers q c -> (forall a, keeps_buffers q (k a)) ->
  keeps_buffers q (bind c k).
Proof.
  intros Hc Hk st b st' E.
  apply bind_Some in E. destruct E as (a & st1 & E1 & E2).
  destruct (Hc _ _ _ E1) as [T1 B1]. destruct (Hk _ _ _ _ E2) as [T2 B2].
  split; congruence.
Qed.

Lemma keeps_of_writes_below path q {A} (c : M A) :
  writes_below path c -> String.prefix path q = false -> keeps_buffers q c.
Proof.
  intros H Hq st a st' E. destruct (H _ _ _ E) as [T Hb]. split; auto.
Qed.

(** One step for a computation whose calls are registered under keys that
    are not prefixes of [q]. *)
Ltac keeps_buffers_step :=
  first
    [ apply keeps_buffers_bind; [| intro]
    | apply keeps_buffers_ret
    | apply keeps_buffers_lift
    | eapply keeps_of_writes_below;
      [ first [ apply writes_below_call
              | apply writes_below_call_entry
              | apply writes_below_transition_forward
              | apply writes_below_stage_forward
              | apply writes_below_HigherResolutionNet_forward ]
      | reflexivity ]
    | match goal with
      | |- keeps_buffers _ (let 'pair _ _ := ?p in _) => destruct p
      end ].

(** In training mode a normalisation layer that returns has counted one
    more batch. *)
Lemma batch_norm_training_counter params path n mo x st y st' :
  training st = true ->
  batch_norm params path n mo x st = Some (y, st') ->
  training st' = true
  /\ num_batches_tracked (buffers st' path)
     = (num_batches_tracked (buffers st path) + 1)%Z.
Proof.
  intros T. unfold batch_norm. rewrite T.
  destruct (tshape x) as [| b [| c [| h [| w [| ? ?]]]]]; try discriminate.
  destruct (c =? n); [| discriminate].
  destruct (negb (b * h * w =? 1)); [| discriminate].
  intros E. injection E as _ <-. cbn [training buffers].
  rewrite String.eqb_refl. split; reflexivity.
Qed.

Lemma ROMPv1_init_backbone self :
  ROMPv1_init = Some self -> make_baseline = Some (backbone self).
Proof.
  unfold ROMPv1_init.
  destruct make_baseline as [bb |]; [| discriminate].
  destruct (get_coord_maps 128) as [t |]; [| discriminate].
  intros E. inversion E. reflexivity.
Qed.

Lemma make_baseline_bn1 :
  match make_baseline with
  | Some self => bn1 self = BatchNorm2d 64 BN_MOMENTUM
  | None => False
  end.
Proof. vm_compute. reflexivity. Qed.

(** The first normalisation layer of the backbone is executed once. *)
Lemma HigherResolutionNet_forward_bn1_counter params self image st y st' :
  make_baseline = Some self ->
  training st = true ->
  HigherResolutionNet_forward params "backbone" self image st = Some (y, st') ->
  training st' = true
  /\ num_batches_tracked (buffers st' "backbone.bn1")
     = (num_batches_tracked (buffers st "backbone.bn1") + 1)%Z.
Proof.
  intros Hself T E. pose proof make_baseline_bn1 as Hbn.
  rewrite Hself in Hbn.
  unfold HigherResolutionNet_forward in E.
  apply bind_Some in E. destruct E as (x0 & st0 & E0 & E).
  apply lift_Some in E0. destruct E0 as [_ ->].
  apply bind_Some in E. destruct E as (x1 & st1 & E1 & E).
  assert (K1 : keeps_buffers "backbone.bn1"
                 (call params (child "backbone" "conv1") (conv1 self) x0))
    by keeps_buffers_step.
  destruct (K1 _ _ _ E1) as [T1 B1].
  unfold HigherResolutionNet_forward_rest in E.
  apply bind_Some in E. destruct E as (x2 & st2 & E2 & E).
  rewrite Hbn in E2. cbn [call] in E2.
  apply batch_norm_training_counter in E2; [| congruence].
  destruct E2 as [T2 C2].
  match type of E with
  | ?c st2 = _ =>
      assert (K : keeps_buffers "backbone.bn1" c)
        by (repeat keeps_buffers_step)
  end.
  destruct (K _ _ _ E) as [T3 B3].
  split; [congruence |].
  rewrite B3. change (child "backbone" "bn1") with "backbone.bn1"%string in C2.
  rewrite C2, B1. reflexivity.
Qed.

Lemma prefix_final_layers k q :
  String.prefix "final_layers" q = false ->
  String.prefix ("final_layers" ++ k) q = false.
Proof.
  intros H. destruct (String.prefix ("final_layers" ++ k) q) eqn:E;
    [| reflexivity].
  apply prefix_app in E. congruence.
Qed.

(** A forward pass writes buffers of the backbone and of the heads only. *)
Lemma ROMPv1_forward_writes params self image st r st' :
  ROMPv1_forward params self image st = Some (r, st') ->
  forall q,
    String.prefix "backbone" q = false ->
    String.prefix "final_layers" q = false ->
    buffers st' q = buffers st q.
Proof.
  intros E q Hb Hf.
  assert (K : keeps_buffers q (ROMPv1_forward params self image)).
  { unfold ROMPv1_forward.
    apply keeps_buffers_bind; [| intros x; apply keeps_buffers_bind].
    - unfold ROMPv1_features. apply keeps_buffers_bind.
      + eapply keeps_of_writes_below;
          [apply writes_below_HigherResolutionNet_forward | exact Hb].
      + intro. repeat first [ apply keeps_buffers_bind; [| intro]
                            | apply keeps_buffers_lift ].
    - unfold ROMPv1_heads.
      repeat first [ apply keeps_buffers_bind; [| intro]
                   | apply keeps_buffers_ret
                   | apply keeps_buffers_lift ].
      + eapply keeps_of_writes_below; [apply writes_below_call_entry |].
        apply (@prefix_final_layers ".1" q Hf).
      + eapply keeps_of_writes_below; [apply writes_below_call_entry |].
        apply (@prefix_final_layers ".2" q Hf).
      + eapply keeps_of_writes_below; [apply writes_below_call_entry |].
        apply (@prefix_final_layers ".3" q Hf).
    - intros [[pm cm] cam]. apply keeps_buffers_lift. }
  apply (K _ _ _ E).
Qed.

Lemma ROMPv1_forward_bn1_counter params self image st r st' :
  ROMPv1_init = Some self ->
  training st = true ->
  ROMPv1_forward params self image st = Some (r, st') ->
  num_batches_tracked (buffers st' "backbone.bn1")
  = (num_batches_tracked (buffers st "backbone.bn1") + 1)%Z.
Proof.
  intros Hi T E. apply ROMPv1_init_backbone in Hi.
  unfold ROMPv1_forward, ROMPv1_features in E.
  apply bind_Some in E. destruct E as (x & st1 & E1 & E).
  apply bind_Some in E1. destruct E1 as (f & st0 & E0 & E1).
  destruct (@HigherResolutionNet_forward_bn1_counter _ _ _ _ _ _ Hi T E0)
    as [T0 C0].
  match type of E1 with
  | ?c st0 = _ =>
      assert (K1 : keeps_buffers "backbone.bn1" c)
        by (repeat keeps_buffers_step)
  end.
  destruct (K1 _ _ _ E1) as [_ B1].
  match type of E with
  | ?c st1 = _ =>
      assert (K : keeps_buffers "backbone.bn1" c)
        by (unfold ROMPv1_heads; repeat keeps_buffers_step)
  end.
  destruct (K _ _ _ E) as [_ B]. rewrite B, B1. exact C0.
Qed.

(** ** Purity of the forward pass *)

Lemma ROMPv1_forward_train_counter :
  match ROMPv1_init with
  | Some self =>
      match ROMPv1_forward zero_params self gray_image fresh_state with
      | Some (_, st') =>
          num_batches_tracked (buffers st' "backbone.bn1") = 1%Z
      | None => False
      end
  | None => False
  end.
Proof. vm_compute. reflexivity. Qed.




(** ** Residual blocks *)

(** Shapes through the layers, in evaluation mode. *)

Lemma conv_out_3x3 n s :
  1 <= n -> 1 <= s -> conv_out n 3 s 1 = Some ((n - 1) / s + 1).
Proof.
  intros Hn Hs. unfold conv_out.
  destruct (Nat.leb_spec 1 s); [| lia].
  destruct (Nat.leb_spec 3 (n + 2 * 1)); [| lia].
  simpl. do 3 f_equal. lia.
Qed.

Lemma conv_out_1x1 n s :
  1 <= n -> 1 <= s -> conv_out n 1 s 0 = Some ((n - 1) / s + 1).
Proof.
  intros Hn Hs. unfold conv_out.
  destruct (Nat.leb_spec 1 s); [| lia].
  destruct (Nat.leb_spec 1 (n + 2 * 0)); [| lia].
  simpl. do 3 f_equal. lia.
Qed.

Lemma div_1_succ n : 1 <= n -> (n - 1) / 1 + 1 = n.
Proof. intros H. rewrite Nat.div_1_r. lia. Qed.

Lemma call_conv_shape params path cin cout k s p bias x st b h w ho wo :
  tshape x = [b; cin; h; w] ->
  conv_out h k s p = Some ho ->
  conv_out w k s p = Some wo ->
  exists y,
    call params path (Conv2d cin cout k s p bias) x st = Some (y, st)
    /\ tshape y = [b; cout; ho; wo].
Proof.
  intros Hx Hh Hw. simpl. unfold conv2d, lift.
  rewrite Hx, Nat.eqb_refl, Hh, Hw. eexists. split; reflexivity.
Qed.

Lemma call_bn_shape params path n mo x st b h w :
  training st = false ->
  tshape x = [b; n; h; w] ->
  exists y,
    call params path (BatchNorm2d n mo) x st = Some (y, st)
    /\ tshape y = [b; n; h; w].
Proof.
  intros Hst Hx. simpl. unfold batch_norm.
  rewrite Hx, Nat.eqb_refl, Hst. eexists. split; [reflexivity |]. exact Hx.
Qed.

Lemma call_relu_shape params path inplace x st :
  call params path (ReLU inplace) x st = Some (relu_forward x, st)
  /\ tshape (relu_forward x) = tshape x.
Proof. split; reflexivity. Qed.

Lemma tensor_iadd_same_shape out residual :
  tshape out = tshape residual ->
  exists y, tensor_iadd out residual = Some y /\ tshape y = tshape out.
Proof.
  intros H. unfold tensor_iadd. rewrite <- H.
  rewrite broadcast_shapes_same, forallb_eqb_refl, Nat.eqb_refl.
  eexists. split; reflexivity.
Qed.

(** One step of a forward computation whose result is known. *)
Tactic Notation "run_step" constr(H) :=
  erewrite bind_eq by (exact H).

Section BlockShapes.
Variable params : string -> index -> fval.

(** The projection on the skip connection, or the identity, gives the
    shape of the main path. *)
Lemma block_residual_shape path blk (x : tensor fval) st b cin cout s h w :
  training st = false ->
  tshape x = [b; cin; h; w] -> 1 <= h -> 1 <= w -> 1 <= s ->
  (block_downsample blk
   = Some (Sequential [Conv2d cin cout 1 s 0 false;
                       BatchNorm2d cout BN_MOMENTUM])
   \/ (block_downsample blk = None /\ s = 1 /\ cin = cout)) ->
  exists residual,
    block_residual params path blk x st = Some (residual, st)
    /\ tshape residual = [b; cout; (h - 1) / s + 1; (w - 1) / s + 1].
Proof.
  intros Hst Hx Hh Hw Hs [Hd | (Hd & -> & ->)];
    unfold block_residual; rewrite Hd.
  - rewrite call_Sequential. cbn [call_seq].
    destruct (@call_conv_shape params (item (child path "downsample") 0)
                cin cout 1 s 0 false x st b h w _ _ Hx
                (conv_out_1x1 Hh Hs) (conv_out_1x1 Hw Hs))
      as (y1 & E1 & S1).
    run_step E1.
    destruct (@call_bn_shape params (item (child path "downsample") 1)
                cout BN_MOMENTUM y1 st b _ _ Hst S1) as (y2 & E2 & S2).
    run_step E2. exists y2. split; [reflexivity | exact S2].
  - exists x. split; [reflexivity |].
    rewrite !div_1_succ by assumption. exact Hx.
Qed.

Lemma BasicBlock_main_shape path cin planes s ds (x : tensor fval) st b h w :
  training st = false ->
  tshape x = [b; cin; h; w] -> 1 <= h -> 1 <= w -> 1 <= s ->
  exists out,
    block_main_path params path (BasicBlock cin planes s ds) x st
    = Some (out, st)
    /\ tshape out = [b; planes; (h - 1) / s + 1; (w - 1) / s + 1].
Proof.
  intros Hst Hx Hh Hw Hs. unfold BasicBlock, block_main_path, conv3x3.
  destruct (@call_conv_shape params (child path "conv1") cin planes 3 s 1
              false x st b h w _ _ Hx
              (conv_out_3x3 Hh Hs) (conv_out_3x3 Hw Hs)) as (y1 & E1 & S1).
  run_step E1.
  destruct (@call_bn_shape params (child path "bn1") planes BN_MOMENTUM y1
              st b _ _ Hst S1) as (y2 & E2 & S2).
  run_step E2.
  destruct (call_relu_shape params (child path "relu") true y2 st)
    as [E3 S3].
  run_step E3. rewrite S2 in S3.
  assert (Hh' : 1 <= (h - 1) / s + 1) by lia.
  assert (Hw' : 1 <= (w - 1) / s + 1) by lia.
  destruct (@call_conv_shape params (child path "conv2") planes planes 3 1 1
              false (relu_forward y2) st b _ _ _ _ S3
              (conv_out_3x3 Hh' (le_n 1)) (conv_out_3x3 Hw' (le_n 1)))
    as (y4 & E4 & S4).
  run_step E4. rewrite !div_1_succ in S4 by lia.
  destruct (@call_bn_shape params (child path "bn2") planes BN_MOMENTUM y4
              st b _ _ Hst S4) as (y5 & E5 & S5).
  exists y5. split; [exact E5 | exact S5].
Qed.

Lemma Bottleneck_main_shape path cin planes s ds (x : tensor fval) st b h w :
  training st = false ->
  tshape x = [b; cin; h; w] -> 1 <= h -> 1 <= w -> 1 <= s ->
  exists out,
    block_main_path params path (Bottleneck cin planes s ds) x st
    = Some (out, st)
    /\ tshape out = [b; planes * 4; (h - 1) / s + 1; (w - 1) / s + 1].
Proof.
  intros Hst Hx Hh Hw Hs. unfold Bottleneck, block_main_path.
  destruct (@call_conv_shape params (child path "conv1") cin planes 1 1 0
              false x st b h w _ _ Hx
              (conv_out_1x1 Hh (le_n 1)) (conv_out_1x1 Hw (le_n 1)))
    as (y1 & E1 & S1).
  run_step E1. rewrite !div_1_succ in S1 by lia.
  destruct (@call_bn_shape params (child path "bn1") planes BN_MOMENTUM y1
              st b _ _ Hst S1) as (y2 & E2 & S2).
  run_step E2.
  destruct (call_relu_shape params (child path "relu") true y2 st)
    as [E3 S3].
  run_step E3. rewrite S2 in S3.
  destruct (@call_conv_shape params (child path "conv2") planes planes 3 s 1
              false (relu_forward y2) st b _ _ _ _ S3
              (conv_out_3x3 Hh Hs) (conv_out_3x3 Hw Hs))
    as (y4 & E4 & S4).
  run_step E4.
  destruct (@call_bn_shape params (child path "bn2") planes BN_MOMENTUM y4
              st b _ _ Hst S4) as (y5 & E5 & S5).
  run_step E5.
  destruct (call_relu_shape params (child path "relu") true y5 st)
    as [E6 S6].
  run_step E6. rewrite S5 in S6.
  assert (Hh' : 1 <= (h - 1) / s + 1) by lia.
  assert (Hw' : 1 <= (w - 1) / s + 1) by lia.
  destruct (@call_conv_shape params (child path "conv3") planes (planes * 4)
              1 1 0 false (relu_forward y5) st b _ _ _ _ S6
              (conv_out_1x1 Hh' (le_n 1)) (conv_out_1x1 Hw' (le_n 1)))
    as (y7 & E7 & S7).
  run_step E7. rewrite !div_1_succ in S7 by lia.
  destruct (@call_bn_shape params (child path "bn3") (planes * 4)
              BN_MOMENTUM y7 st b _ _ Hst S7) as (y8 & E8 & S8).
  exists y8. split; [exact E8 | exact S8].
Qed.

Lemma new_block_main_shape path block cin planes s ds (x : tensor fval) st
    b h w :
  training st = false ->
  tshape x = [b; cin; h; w] -> 1 <= h -> 1 <= w -> 1 <= s ->
  exists out,
    block_main_path params path (new_block block cin planes s ds) x st
    = Some (out, st)
    /\ tshape out
       = [b; planes * expansion block; (h - 1) / s + 1; (w - 1) / s + 1].
Proof.
  intros Hst Hx Hh Hw Hs. destruct block; simpl new_block; simpl expansion.
  - rewrite Nat.mul_1_r. now apply BasicBlock_main_shape.
  - now apply Bottleneck_main_shape.
Qed.

(** A block's forward pass is its main path, its residual, the addition and
    the activation. *)
Lemma call_new_block path block cin planes s ds x st out st1 residual st2 :
  block_main_path params path (new_block block cin planes s ds) x st
  = Some (out, st1) ->
  block_residual params path (new_block block cin planes s ds) x st1
  = Some (residual, st2) ->
  call params path (new_block block cin planes s ds) x st
  = match tensor_iadd out residual with
    | Some y => Some (relu_forward y, st2)
    | None => None
    end.
Proof.
  destruct block; unfold new_block, BasicBlock, Bottleneck, block_main_path,
    block_residual, block_downsample; intros Em Er; cbn [call].
  - apply bind_Some in Em. destruct Em as (y1 & s1 & E1 & Em).
    apply bind_Some in Em. destruct Em as (y2 & s2 & E2 & Em).
    apply bind_Some in Em. destruct Em as (y3 & s3 & E3 & Em).
    apply bind_Some in Em. destruct Em as (y4 & s4 & E4 & E5).
    run_step E1. run_step E2. run_step E3. run_step E4. run_step E5.
    run_step Er. unfold bind, lift.
    destruct (tensor_iadd out residual); reflexivity.
  - apply bind_Some in Em. destruct Em as (y1 & s1 & E1 & Em).
    apply bind_Some in Em. destruct Em as (y2 & s2 & E2 & Em).
    apply bind_Some in Em. destruct Em as (y3 & s3 & E3 & Em).
    apply bind_Some in Em. destruct Em as (y4 & s4 & E4 & Em).
    apply bind_Some in Em. destruct Em as (y5 & s5 & E5 & Em).
    apply bind_Some in Em. destruct Em as (y6 & s6 & E6 & Em).
    apply bind_Some in Em. destruct Em as (y7 & s7 & E7 & E8).
    run_step E1. run_step E2. run_step E3. run_step E4. run_step E5.
    run_step E6. run_step E7. run_step E8.
    run_step Er. unfold bind, lift.
    destruct (tensor_iadd out residual); reflexivity.
Qed.

(** A built block on an input of the channel count it expects: both
    operands of the residual addition have the shape of the output. *)
Lemma new_block_shapes path block cin planes s ds (x : tensor fval) st
    b h w :
  training st = false ->
  tshape x = [b; cin; h; w] -> 1 <= h -> 1 <= w -> 1 <= s ->
  (ds = Some (Sequential [Conv2d cin (planes * expansion block) 1 s 0 false;
                          BatchNorm2d (planes * expansion block) BN_MOMENTUM])
   \/ (ds = None /\ s = 1 /\ cin = planes * expansion block)) ->
  exists out residual y,
    block_main_path params path (new_block block cin planes s ds) x st
    = Some (out, st)
    /\ block_residual params path (new_block block cin planes s ds) x st
       = Some (residual, st)
    /\ tshape out = tshape residual
    /\ call params path (new_block block cin planes s ds) x st = Some (y, st)
    /\ tshape y
       = [b; planes * expansion block; (h - 1) / s + 1; (w - 1) / s + 1].
Proof.
  intros Hst Hx Hh Hw Hs Hds.
  destruct (@new_block_main_shape path block cin planes s ds x st b h w
              Hst Hx Hh Hw Hs) as (out & Em & So).
  destruct (@block_residual_shape path (new_block block cin planes s ds) x st
              b cin (planes * expansion block) s h w Hst Hx Hh Hw Hs)
    as (residual & Er & Sr).
  { destruct block; exact Hds. }
  assert (Hsame : tshape out = tshape residual) by congruence.
  destruct (tensor_iadd_same_shape _ _ Hsame) as (y & Ey & Sy).
  exists out, residual, (relu_forward y).
  repeat (split; [assumption |]). split.
  - rewrite (@call_new_block path block cin planes s ds x st out st
               residual st Em Er), Ey. reflexivity.
  - simpl. congruence.
Qed.
End BlockShapes.

(** What the two builders return. *)

Lemma map_const_seq {A} (c : A) n : forall a,
  map (fun _ => c) (seq a n) = repeat c n.
Proof. induction n as [| n IH]; intros a; simpl; [| rewrite IH]; auto. Qed.

Lemma all_some_repeat_Some {A} (c : A) n :
  all_some (repeat (Some c) n) = Some (repeat c n).
Proof. induction n as [| n IH]; simpl; [| rewrite IH]; auto. Qed.

Lemma built_block_sequence_inv block inplanes planes nblocks stride layers :
  built_block_sequence block inplanes planes nblocks stride layers ->
  layers
  = new_block block inplanes planes stride
      (first_downsample block inplanes planes stride)
    :: repeat (new_block block (planes * expansion block) planes 1 None)
              (nblocks - 1).
Proof.
  intros [(ip' & H) | (nic & bi & nb & nc & nic' & Hi & Hc & Hb & H)].
  - unfold _make_layer in H.
    destruct block; simpl new_block_BN in H; [discriminate |].
    rewrite map_const_seq, all_some_repeat_Some in H.
    inversion H. reflexivity.
  - unfold _make_one_branch in H. rewrite Hi, Hc, Hb in H.
    rewrite map_const_seq in H. inversion H. reflexivity.
Qed.

Lemma first_block_rule block inplanes planes stride :
  downsample_rule
    (new_block block inplanes planes stride
       (first_downsample block inplanes planes stride)).
Proof.
  unfold downsample_rule, first_downsample.
  destruct (Nat.eqb_spec stride 1) as [Hs | Hs];
    destruct (Nat.eqb_spec inplanes (planes * expansion block)) as [Hc | Hc];
    destruct block; simpl in *; rewrite ?Nat.mul_1_r in *;
    (split; intros H; [try reflexivity | try tauto]);
    try (exfalso; lia); try (exfalso; apply H; auto).
Qed.

Lemma later_block_rule block planes :
  downsample_rule
    (new_block block (planes * expansion block) planes 1 None).
Proof.
  unfold downsample_rule.
  destruct block; simpl; rewrite ?Nat.mul_1_r; split; intros H;
    try reflexivity; exfalso; destruct H as [H | H]; apply H; reflexivity.
Qed.

Section BlockSequences.
Variable params : string -> index -> fval.

Lemma later_blocks_agree path block planes b h w st :
  training st = false -> 1 <= h -> 1 <= w ->
  forall n i (x : tensor fval),
    tshape x = [b; planes * expansion block; h; w] ->
    residual_additions_agree params path
      (repeat (new_block block (planes * expansion block) planes 1 None) n)
      i x st [b; planes * expansion block; h; w].
Proof.
  intros Hst Hh Hw.
  induction n as [| n IH]; intros i x Hx; simpl.
  - exact Hx.
  - destruct (@new_block_shapes params (item path i) block
                (planes * expansion block) planes 1 None x st b h w
                Hst Hx Hh Hw (le_n 1))
      as (out & residual & y & Em & Er & Hsame & Ec & Sy).
    { right. auto. }
    rewrite !div_1_succ in Sy by assumption.
    exists out, st, residual, st, y, st.
    repeat (split; [assumption |]). now apply IH.
Qed.

Lemma built_blocks_agree path block inplanes planes nblocks stride layers
    (x : tensor fval) st b h w :
  built_block_sequence block inplanes planes nblocks stride layers ->
  training st = false ->
  tshape x = [b; inplanes; h; w] -> 1 <= h -> 1 <= w -> 1 <= stride ->
  residual_additions_agree params path layers 0 x st
    [b; planes * expansion block;
     (h - 1) / stride + 1; (w - 1) / stride + 1].
Proof.
  intros Hb Hst Hx Hh Hw Hs.
  rewrite (built_block_sequence_inv Hb). simpl.
  destruct (@new_block_shapes params (item path 0) block inplanes planes
              stride (first_downsample block inplanes planes stride)
              x st b h w Hst Hx Hh Hw Hs)
    as (out & residual & y & Em & Er & Hsame & Ec & Sy).
  { unfold first_downsample.
    destruct (Nat.eqb_spec stride 1); simpl;
      destruct (Nat.eqb_spec inplanes (planes * expansion block)); simpl;
      auto. }
  exists out, st, residual, st, y, st.
  repeat (split; [assumption |]).
  apply later_blocks_agree; try assumption; lia.
Qed.
End BlockSequences.

(** ** Construction returns for a consistent configuration *)

Lemma all_some_map_Some {A} (f : nat -> option A) :
  forall n a,
    (forall k, k < n -> exists v, f (a + k) = Some v) ->
    exists l, all_some (map f (seq a n)) = Some l.
Proof.
  induction n as [| n IH]; intros a H; simpl.
  - eauto.
  - destruct (H 0 ltac:(lia)) as [v Hv]. rewrite Nat.add_0_r in Hv.
    rewrite Hv.
    destruct (IH (S a)) as [l Hl].
    { intros k Hk. destruct (H (S k) ltac:(lia)) as [u Hu].
      exists u. rewrite Nat.add_succ_r in Hu. exact Hu. }
    rewrite Hl. eauto.
Qed.

Lemma _make_one_branch_Some nic bi block num_blocks num_channels stride :
  bi < length nic -> bi < length num_channels -> bi < length num_blocks ->
  exists r,
    _make_one_branch nic bi block num_blocks num_channels stride = Some r.
Proof.
  intros H1 H2 H3. unfold _make_one_branch.
  destruct (nth_error_lt_Some _ H1) as [v1 ->].
  destruct (nth_error_lt_Some _ H2) as [v2 ->].
  destruct (nth_error_lt_Some _ H3) as [v3 ->].
  eauto.
Qed.

Lemma _make_branches_from_Some block num_blocks num_channels :
  forall count i nic,
    i + count <= length nic ->
    i + count <= length num_channels ->
    i + count <= length num_blocks ->
    exists r,
      _make_branches_from nic i count block num_blocks num_channels = Some r.
Proof.
  induction count as [| count IH]; intros i nic H1 H2 H3; simpl.
  - eauto.
  - destruct (@_make_one_branch_Some nic i block num_blocks num_channels 1)
      as [[b nic1] E1]; try lia.
    rewrite E1.
    apply _make_one_branch_inv in E1. destruct E1 as [_ Hl].
    destruct (IH (S i) nic1) as [[bs nic2] E2]; try lia.
    rewrite E2. eauto.
Qed.

Lemma make_fuse_entry_Some nic i j :
  i < length nic -> j < length nic ->
  exists e, make_fuse_entry nic i j = Some e.
Proof.
  intros Hi Hj. unfold make_fuse_entry.
  destruct (nth_error_lt_Some _ Hi) as [ci Ei].
  destruct (nth_error_lt_Some _ Hj) as [cj Ej].
  rewrite Ei, Ej.
  destruct (i <? j); [eauto |].
  destruct (j =? i); [eauto |].
  destruct (@all_some_map_Some _ (make_conv3x3s_step nic i j) (i - j) 0)
    as [l Hl].
  { intros k _. unfold make_conv3x3s_step. rewrite Ei, Ej.
    destruct (0 + k =? i - j - 1); eauto. }
  rewrite Hl. eauto.
Qed.

Lemma _make_fuse_layers_Some B nic mso :
  B <= length nic ->
  exists fl, _make_fuse_layers B nic mso = Some fl.
Proof.
  intros HB. unfold _make_fuse_layers.
  destruct (B =? 1); [eauto |].
  match goal with
  | |- context [all_some (map ?f (seq 0 ?n))] =>
      destruct (@all_some_map_Some _ f n 0) as [l Hl]
  end.
  - intros i Hi. simpl.
    apply all_some_map_Some. intros j Hj. simpl.
    apply make_fuse_entry_Some; [| lia].
    destruct mso; lia.
  - rewrite Hl. eauto.
Qed.

Lemma HighResolutionModule_init_Some B blocks num_blocks nic num_channels fm
    mso :
  B <= length nic -> B <= length num_channels -> B <= length num_blocks ->
  exists self,
    HighResolutionModule_init B blocks num_blocks nic num_channels fm mso
    = Some self.
Proof.
  intros H1 H2 H3. unfold HighResolutionModule_init, _make_branches.
  destruct (@_make_branches_from_Some blocks num_blocks num_channels B 0 nic)
    as [[bs nic'] Eb]; try lia.
  rewrite Eb.
  apply _make_branches_from_inv in Eb. destruct Eb as (_ & Hl & _).
  destruct (@_make_fuse_layers_Some B nic' mso) as [fl Ef]; [lia |].
  rewrite Ef. eauto.
Qed.

Lemma _make_stage_from_Some nm B block num_blocks num_channels fm mso :
  B <= length num_channels -> B <= length num_blocks ->
  forall count i nic,
    B <= length nic ->
    exists r,
      _make_stage_from i count nm B block num_blocks nic num_channels fm mso
      = Some r.
Proof.
  intros H2 H3.
  induction count as [| count IH]; intros i nic H1; simpl.
  - eauto.
  - match goal with
    | |- context [HighResolutionModule_init B block num_blocks nic
                    num_channels fm ?flag] =>
        destruct (@HighResolutionModule_init_Some B block num_blocks nic
                    num_channels fm flag H1 H2 H3) as [m Em]
    end.
    rewrite Em.
    apply HighResolutionModule_init_inv in Em.
    destruct Em as (_ & _ & _ & _ & Hn & _).
    destruct (IH (S i) (get_num_inchannels m) Hn) as [[ms nic'] Es].
    rewrite Es. eauto.
Qed.

(** A stage configuration is consistent when its block class is known and
    its lists cover its branches. *)
Lemma _make_stage_Some cfg nic mso :
  blocks_dict (BLOCK cfg) <> None ->
  NUM_BRANCHES cfg <= length (NUM_BLOCKS cfg) ->
  NUM_BRANCHES cfg <= length (NUM_CHANNELS cfg) ->
  NUM_BRANCHES cfg <= length nic ->
  exists r, _make_stage cfg nic mso = Some r.
Proof.
  intros Hb H3 H2 H1. unfold _make_stage.
  destruct (blocks_dict (BLOCK cfg)) as [blk |]; [| contradiction].
  now apply _make_stage_from_Some.
Qed.

(** C7: in a block sequence built by [_make_layer] or [_make_one_branch] a
    block carries a downsampling projection, a 1x1 convolution followed by a
    normalisation, exactly when its stride is not 1 or its input channel
    count differs from planes times the expansion of its class; on an input
    of the expected channel count every block returns and the two operands
    of every residual addition have the same shape.  Both builders return
    whenever the configuration lists are long enough, and so does
    [_make_stage] for a configuration whose block class is known and whose
    lists cover its branches. *)
Theorem C7_residual_blocks params block inplanes planes nblocks stride
    layers :
  built_block_sequence block inplanes planes nblocks stride layers ->
  Forall downsample_rule layers
  /\ (forall path (x : tensor fval) st b h w,
        training st = false ->
        tshape x = [b; inplanes; h; w] -> 1 <= h -> 1 <= w -> 1 <= stride ->
        residual_additions_agree params path layers 0 x st
          [b; planes * expansion block;
           (h - 1) / stride + 1; (w - 1) / stride + 1])
  /\ (forall num_inchannels branch_index blk num_blocks num_channels s,
        branch_index < length num_inchannels ->
        branch_index < length num_channels ->
        branch_index < length num_blocks ->
        exists r,
          _make_one_branch num_inchannels branch_index blk num_blocks
            num_channels s = Some r)
  /\ (forall inpl pl n s,
        exists r, _make_layer inpl Bottleneck_class pl n s = Some r)
  /\ (forall cfg num_inchannels multi_scale_output,
        blocks_dict (BLOCK cfg) <> None ->
        NUM_BRANCHES cfg <= length (NUM_BLOCKS cfg) ->
        NUM_BRANCHES cfg <= length (NUM_CHANNELS cfg) ->
        NUM_BRANCHES cfg <= length num_inchannels ->
        exists r, _make_stage cfg num_inchannels multi_scale_output = Some r).
Proof.
  intros Hb. split; [| split; [| split; [| split]]].
  - rewrite (built_block_sequence_inv Hb). constructor.
    + apply first_block_rule.
    + apply Forall_forall. intros m Hm. apply repeat_spec in Hm. subst m.
      apply later_block_rule.
  - intros path x st b h w Hst Hx Hh Hw Hs.
    eapply built_blocks_agree; eassumption.
  - intros nic bi blk nb nc s H1 H2 H3. now apply _make_one_branch_Some.
  - intros inpl pl n s. unfold _make_layer. simpl new_block_BN.
    rewrite map_const_seq, all_some_repeat_Some. eauto.
  - intros cfg nic mso H0 H1 H2 H3. now apply _make_stage_Some.
Qed.

Lemma C7_residual_blocks_witness :
  exists layers,
    built_block_sequence Bottleneck_class 64 64 4 1 layers
    /\ Forall downsample_rule layers
    /\ length layers = 4.
Proof.
  destruct (_make_layer 64 Bottleneck_class 64 4 1) as [[m ip] |] eqn:E.
  - destruct m as [| | | | layers | |]; try (vm_compute in E; discriminate E).
    exists layers.
    assert (Hb : built_block_sequence Bottleneck_class 64 64 4 1 layers).
    { left. exists ip. exact E. }
    split; [exact Hb |]. split.
    + exact (proj1 (@C7_residual_blocks zero_params _ _ _ _ _ _ Hb)).
    + rewrite (built_block_sequence_inv Hb). reflexivity.
  - vm_compute in E. discriminate E.
Defined.

(** * Further properties of the constructors *)

(** ** Lists updated by index *)

Lemma list_set_nth_error {A} (l : list A) v :
  forall i k,
    nth_error (list_set l i v) k
    = if (k =? i) && (i <? length l) then Some v else nth_error l k.
Proof.
  induction l as [| x l IH]; intros [| i] [| k]; simpl;
    rewrite ?Bool.andb_false_r; auto.
Qed.

Lemma list_set_same {A} (l : list A) v :
  forall i, nth_error l i = Some v -> list_set l i v = l.
Proof.
  induction l as [| x l IH]; intros [| i]; simpl; intros H;
    try discriminate.
  - inversion H. reflexivity.
  - f_equal. now apply IH.
Qed.

Lemma nth_error_ext {A} (l1 l2 : list A) :
  (forall k, nth_error l1 k = nth_error l2 k) -> l1 = l2.
Proof.
  revert l2. induction l1 as [| x l1 IH]; intros [| y l2] H.
  - reflexivity.
  - specialize (H 0). discriminate H.
  - specialize (H 0). discriminate H.
  - pose proof (H 0) as H0. simpl in H0. inversion H0. f_equal.
    apply IH. intros k. apply (H (S k)).
Qed.

(** ** The branches of a fusion module *)

(** What [_make_one_branch] returns: the branch, and the channel list with
    the entry of the branch overwritten. *)
Lemma _make_one_branch_returns nic bi block num_blocks num_channels stride b
    nic' :
  _make_one_branch nic bi block num_blocks num_channels stride
    = Some (b, nic') ->
  exists inch ch nb,
    nth_error nic bi = Some inch
    /\ nth_error num_channels bi = Some ch
    /\ nth_error num_blocks bi = Some nb
    /\ nic' = list_set nic bi (ch * expansion block)
    /\ b = Sequential
             (new_block block inch ch stride
                (first_downsample block inch ch stride)
              :: repeat (new_block block (ch * expansion block) ch 1 None)
                        (nb - 1)).
Proof.
  unfold _make_one_branch, first_downsample.
  destruct (nth_error nic bi) as [inch |]; [| discriminate].
  destruct (nth_error num_channels bi) as [ch |]; [| discriminate].
  destruct (nth_error num_blocks bi) as [nb |]; [| discriminate].
  intros E. inversion E. exists inch, ch, nb.
  rewrite map_const_seq. repeat split; reflexivity.
Qed.

Lemma _make_branches_from_returns block num_blocks num_channels :
  forall count i nic bs nic',
    _make_branches_from nic i count block num_blocks num_channels
      = Some (bs, nic') ->
    (forall k,
       nth_error nic' k
       = if (i <=? k) && (k <? i + count)
         then option_map (fun c => c * expansion block)
                         (nth_error num_channels k)
         else nth_error nic k)
    /\ forall k, k < count ->
         exists inch ch nb,
           nth_error nic (i + k) = Some inch
           /\ nth_error num_channels (i + k) = Some ch
           /\ nth_error num_blocks (i + k) = Some nb
           /\ nth_error bs k
              = Some (Sequential
                        (new_block block inch ch 1
                           (first_downsample block inch ch 1)
                         :: repeat (new_block block (ch * expansion block)
                                      ch 1 None)
                                   (nb - 1))).
Proof.
  induction count as [| count IH]; intros i nic bs nic'; simpl.
  - intros E. inversion E; subst. split.
    + intros k. destruct (i <=? k) eqn:E1; simpl; [| reflexivity].
      destruct (Nat.ltb_spec k (i + 0)); [| reflexivity].
      apply Nat.leb_le in E1. lia.
    + intros k Hk. lia.
  - destruct (_make_one_branch nic i block num_blocks num_channels 1)
      as [[b nic1] |] eqn:E1; [| discriminate].
    destruct (_make_branches_from nic1 (S i) count block num_blocks
                num_channels) as [[bs1 nic2] |] eqn:E2; [| discriminate].
    intros E. inversion E; subst bs nic'. clear E.
    destruct (_make_one_branch_returns _ _ _ _ _ _ E1)
      as (inch & ch & nb & Hi & Hc & Hb & Hnic1 & Hbr).
    destruct (IH _ _ _ _ E2) as [Hnth Hbs]. clear IH.
    assert (Hlt : i < length nic) by (apply nth_error_Some; congruence).
    split.
    + intros k. rewrite Hnth, Hnic1, list_set_nth_error.
      replace (i + S count) with (S i + count) by lia.
      destruct (Nat.eqb_spec k i) as [Hki | Hki];
        destruct (Nat.leb_spec (S i) k), (Nat.leb_spec i k),
                 (Nat.ltb_spec k (S i + count)),
                 (Nat.ltb_spec i (length nic));
        try lia; cbn [andb]; try reflexivity.
      subst k. rewrite Hc. reflexivity.
    + intros [| k] Hk.
      * rewrite Nat.add_0_r. exists inch, ch, nb. simpl.
        repeat (split; [assumption |]). now rewrite Hbr.
      * destruct (Hbs k ltac:(lia)) as (inch' & ch' & nb' & H1 & H2 & H3 & H4).
        exists inch', ch', nb'. rewrite Nat.add_succ_r. simpl.
        split; [| auto].
        rewrite Hnic1, list_set_nth_error in H1.
        destruct (Nat.eqb_spec (S i + k) i); [lia |]. exact H1.
Qed.

(** [_make_branches] reads positions below [count] of the three lists. *)
Lemma _make_branches_from_bounds block num_blocks num_channels :
  forall count i nic r,
    _make_branches_from nic i count block num_blocks num_channels = Some r ->
    0 < count ->
    i + count <= length nic
    /\ i + count <= length num_channels
    /\ i + count <= length num_blocks.
Proof.
  induction count as [| count IH]; intros i nic r; simpl; [lia |].
  destruct (_make_one_branch nic i block num_blocks num_channels 1)
    as [[b nic1] |] eqn:E1; [| discriminate].
  destruct (_make_branches_from nic1 (S i) count block num_blocks
              num_channels) as [[bs1 nic2] |] eqn:E2; [| discriminate].
  intros _ _.
  destruct (_make_one_branch_returns _ _ _ _ _ _ E1)
    as (inch & ch & nb & Hi & Hc & Hb & Hnic1 & _).
  assert (H1 : i < length nic) by (apply nth_error_Some; congruence).
  assert (H2 : i < length num_channels)
    by (apply nth_error_Some; congruence).
  assert (H3 : i < length num_blocks) by (apply nth_error_Some; congruence).
  destruct count as [| count]; [lia |].
  destruct (IH _ _ _ E2 ltac:(lia)) as (G1 & G2 & G3).
  rewrite Hnic1, list_set_length in G1. lia.
Qed.

Lemma HighResolutionModule_init_bounds B blocks num_blocks nic num_channels
    fm mso self :
  HighResolutionModule_init B blocks num_blocks nic num_channels fm mso
    = Some self ->
  B <= length nic /\ B <= length num_channels /\ B <= length num_blocks.
Proof.
  intros E. unfold HighResolutionModule_init, _make_branches in E.
  destruct (_make_branches_from nic 0 B blocks num_blocks num_channels)
    as [[bs nic'] |] eqn:Eb; [| discriminate].
  destruct B as [| B]; [lia |].
  apply _make_branches_from_bounds in Eb; [| lia]. exact Eb.
Qed.

(** What [HighResolutionModule.__init__] stores. *)
Lemma HighResolutionModule_init_fields B blocks num_blocks nic num_channels
    fm mso self :
  HighResolutionModule_init B blocks num_blocks nic num_channels fm mso
    = Some self ->
  exists bs nic' fl,
    _make_branches_from nic 0 B blocks num_blocks num_channels
      = Some (bs, nic')
    /\ _make_fuse_layers B nic' mso = Some fl
    /\ self = mkHRM nic' fm B mso bs fl (ReLU true).
Proof.
  unfold HighResolutionModule_init, _make_branches.
  destruct (_make_branches_from nic 0 B blocks num_blocks num_channels)
    as [[bs nic'] |] eqn:Eb; [| discriminate].
  destruct (_make_fuse_layers B nic' mso) as [fl |] eqn:Ef; [| discriminate].
  intros E. inversion E. exists bs, nic', fl. auto.
Qed.

(** The channel list a fusion module records, and its branches: branch [i]
    is built for the channel count the list held on entry, and the list then
    holds the channel count the branch returns. *)
Lemma HighResolutionModule_init_returns B blocks num_blocks nic
    num_channels fm mso self :
  HighResolutionModule_init B blocks num_blocks nic num_channels fm mso
    = Some self ->
  length (num_inchannels self) = length nic
  /\ length (branches self) = B
  /\ (forall i, i < B ->
        exists inch ch nb,
          nth_error nic i = Some inch
          /\ nth_error num_channels i = Some ch
          /\ nth_error num_blocks i = Some nb
          /\ nth_error (num_inchannels self) i = Some (ch * expansion blocks)
          /\ nth_error (branches self) i
             = Some (Sequential
                       (new_block blocks inch ch 1
                          (first_downsample blocks inch ch 1)
                        :: repeat (new_block blocks (ch * expansion blocks)
                                     ch 1 None)
                                  (nb - 1))))
  /\ (forall i, B <= i ->
        nth_error (num_inchannels self) i = nth_error nic i).
Proof.
  intros E.
  destruct (HighResolutionModule_init_inv _ _ _ _ _ _ _ E)
    as (_ & _ & _ & Hlen & _ & _).
  destruct (HighResolutionModule_init_fields _ _ _ _ _ _ _ E)
    as (bs & nic' & fl & Eb & _ & ->). simpl in *.
  destruct (_make_branches_from_returns _ _ _ _ _ _ Eb) as [Hnth Hbs].
  apply _make_branches_from_inv in Eb. destruct Eb as (_ & Hl & _).
  split; [assumption |]. split; [assumption |]. split.
  - intros i Hi. destruct (Hbs i Hi) as (inch & ch & nb & H1 & H2 & H3 & H4).
    simpl in *. exists inch, ch, nb. repeat (split; [assumption |]).
    split; [| assumption].
    rewrite Hnth. simpl. destruct (Nat.ltb_spec i B); [| lia].
    rewrite H2. reflexivity.
  - intros i Hi. rewrite Hnth. simpl.
    destruct (Nat.ltb_spec i B); [lia | reflexivity].
Qed.


(** ** The modules of a stage *)

Lemma first_downsample_settled block ch :
  first_downsample block (ch * expansion block) ch 1 = None.
Proof. unfold first_downsample. simpl. now rewrite Nat.eqb_refl. Qed.

(** On a settled list the constructor changes nothing and attaches no
    projection. *)
Lemma HighResolutionModule_init_settled B blocks num_blocks nic num_channels
    fm mso self :
  settled B blocks num_channels nic ->
  HighResolutionModule_init B blocks num_blocks nic num_channels fm mso
    = Some self ->
  num_inchannels self = nic
  /\ forall i, i < B ->
       exists ch nb,
         nth_error num_channels i = Some ch
         /\ nth_error num_blocks i = Some nb
         /\ nth_error (branches self) i
            = Some (Sequential
                      (repeat (new_block blocks (ch * expansion blocks) ch 1
                                 None)
                              (Nat.max 1 nb))).
Proof.
  intros Hs E.
  destruct (HighResolutionModule_init_fields _ _ _ _ _ _ _ E)
    as (bs & nic' & fl & Eb & _ & ->). cbn [num_inchannels branches].
  destruct (_make_branches_from_returns _ _ _ _ _ _ Eb) as [Hnth Hbs].
  split.
  - apply nth_error_ext. intros k. rewrite Hnth. simpl.
    destruct (Nat.ltb_spec k B) as [Hk | Hk]; [| reflexivity].
    destruct (Hs k Hk) as (ch & H1 & H2). rewrite H1, H2. reflexivity.
  - intros i Hi. destruct (Hbs i Hi) as (inch & ch & nb & H1 & H2 & H3 & H4).
    cbn [branches Nat.add] in *. destruct (Hs i Hi) as (ch' & G1 & G2).
    rewrite H2 in G1. inversion G1; subst ch'.
    rewrite H1 in G2. inversion G2; subst inch.
    exists ch, nb. repeat (split; [assumption |]).
    rewrite H4, first_downsample_settled.
    replace (Nat.max 1 nb) with (S (nb - 1)) by lia. reflexivity.
Qed.

Lemma HighResolutionModule_init_settles B blocks num_blocks nic num_channels
    fm mso self :
  HighResolutionModule_init B blocks num_blocks nic num_channels fm mso
    = Some self ->
  settled B blocks num_channels (num_inchannels self).
Proof.
  intros E i Hi.
  destruct (HighResolutionModule_init_fields _ _ _ _ _ _ _ E)
    as (bs & nic' & fl & Eb & _ & ->). simpl.
  destruct (_make_branches_from_returns _ _ _ _ _ _ Eb) as [Hnth Hbs].
  destruct (Hbs i Hi) as (inch & ch & nb & H1 & H2 & H3 & H4). simpl in *.
  exists ch. split; [assumption |]. rewrite Hnth. simpl.
  destruct (Nat.ltb_spec i B); [| lia]. rewrite H2. reflexivity.
Qed.

(** The modules that the loop of [_make_stage] appends once the channel list
    is settled. *)
Lemma _make_stage_from_settled nm B block num_blocks num_channels fm mso :
  forall count i nic ms nic',
    settled B block num_channels nic ->
    _make_stage_from i count nm B block num_blocks nic num_channels fm mso
      = Some (ms, nic') ->
    nic' = nic
    /\ length ms = count
    /\ forall k m, nth_error ms k = Some m ->
         num_inchannels m = nic
         /\ num_branches m = B
         /\ fuse_method m = fm
         /\ length (branches m) = B
         /\ forall j, j < B ->
              exists ch nb,
                nth_error num_channels j = Some ch
                /\ nth_error num_blocks j = Some nb
                /\ nth_error (branches m) j
                   = Some (Sequential
                             (repeat (new_block block (ch * expansion block)
                                        ch 1 None)
                                     (Nat.max 1 nb))).
Proof.
  induction count as [| count IH]; intros i nic ms nic' Hs; simpl.
  - intros E. inversion E. repeat split; auto.
    all: destruct k; discriminate.
  - destruct (HighResolutionModule_init _ _ _ _ _ _ _) as [m0 |] eqn:E0;
      [| discriminate].
    destruct (_make_stage_from _ _ _ _ _ _ _ _ _ _) as [[ms1 nic1] |] eqn:E1;
      [| discriminate].
    intros E. inversion E; subst ms nic'. clear E.
    edestruct HighResolutionModule_init_settled as [Hn0 Hb0];
      [exact Hs | exact E0 |].
    unfold get_num_inchannels in E1. rewrite Hn0 in E1.
    edestruct IH as (Hn1 & Hl1 & Hm1); [exact Hs | exact E1 |].
    split; [assumption |]. split; [simpl; congruence |].
    intros [| k] m Hk; simpl in Hk.
    + inversion Hk; subst m. split; [assumption |].
      destruct (HighResolutionModule_init_returns _ _ _ _ _ _ _ E0)
        as (_ & Hbl & _).
      destruct (HighResolutionModule_init_fields _ _ _ _ _ _ _ E0)
        as (bs & nic2 & fl & _ & _ & Hm). split; [now rewrite Hm |].
      split; [now rewrite Hm |]. split; [assumption |]. exact Hb0.
    + apply (Hm1 k m Hk).
Qed.

(** X4: what [_make_stage] returns: [NUM_MODULES] modules, all of
    [NUM_BRANCHES] branches and all recording the returned channel list,
    which holds [NUM_CHANNELS[i]] times the expansion at every branch [i].
    Every module after the first is built from that list, so that none of
    its blocks has a projection; a branch of such a module has
    [max 1 NUM_BLOCKS[i]] blocks. *)
Theorem X4_make_stage_modules cfg nic mso ms nic' :
  _make_stage cfg nic mso = Some (ms, nic') ->
  exists block,
    blocks_dict (BLOCK cfg) = Some block
    /\ length ms = NUM_MODULES cfg
    /\ (NUM_MODULES cfg = 0 -> nic' = nic)
    /\ (0 < NUM_MODULES cfg ->
        length nic' = length nic
        /\ forall i,
             nth_error nic' i
             = if i <? NUM_BRANCHES cfg
               then option_map (fun c => c * expansion block)
                               (nth_error (NUM_CHANNELS cfg) i)
               else nth_error nic i)
    /\ (forall k m, nth_error ms k = Some m ->
          num_inchannels m = nic'
          /\ num_branches m = NUM_BRANCHES cfg
          /\ fuse_method m = FUSE_METHOD cfg
          /\ length (branches m) = NUM_BRANCHES cfg)
    /\ (forall k m j, nth_error ms (S k) = Some m -> j < NUM_BRANCHES cfg ->
          exists ch nb,
            nth_error (NUM_CHANNELS cfg) j = Some ch
            /\ nth_error (NUM_BLOCKS cfg) j = Some nb
            /\ nth_error (branches m) j
               = Some (Sequential
                         (repeat (new_block block (ch * expansion block) ch 1
                                    None)
                                 (Nat.max 1 nb)))).
Proof.
  unfold _make_stage.
  destruct (blocks_dict (BLOCK cfg)) as [block |]; [| discriminate].
  intros E. exists block. split; [reflexivity |].
  destruct (NUM_MODULES cfg) as [| n] eqn:En; simpl in E.
  - inversion E; subst. split; [reflexivity |]. split; [reflexivity |].
    split; [lia |]. split; intros [| k] m; discriminate.
  - destruct (HighResolutionModule_init _ _ _ _ _ _ _) as [m0 |] eqn:E0;
      [| discriminate].
    destruct (_make_stage_from _ _ _ _ _ _ _ _ _ _) as [[ms1 nic1] |] eqn:E1;
      [| discriminate].
    inversion E; subst ms nic'. clear E.
    pose proof E0 as Hs. apply HighResolutionModule_init_settles in Hs.
    unfold get_num_inchannels in E1.
    edestruct _make_stage_from_settled as (Hn1 & Hl1 & Hm1);
      [exact Hs | exact E1 |]. subst nic1.
    destruct (HighResolutionModule_init_returns _ _ _ _ _ _ _ E0)
      as (Hlen & Hbl & Hlow & Hhigh).
    destruct (HighResolutionModule_init_fields _ _ _ _ _ _ _ E0)
      as (bs & nic2 & fl & _ & _ & Hm0).
    split; [simpl; congruence |]. split; [discriminate |]. split.
    + intros _. split; [assumption |]. intros i.
      destruct (Nat.ltb_spec i (NUM_BRANCHES cfg)) as [Hi | Hi].
      * destruct (Hlow i Hi) as (inch & ch & nb & _ & H2 & _ & H4 & _).
        rewrite H4, H2. reflexivity.
      * apply Hhigh. assumption.
    + split.
      * intros [| k] m Hk; simpl in Hk.
        -- inversion Hk; subst m. split; [reflexivity |].
           rewrite Hm0 at 1 2. simpl. auto.
        -- destruct (Hm1 k m Hk) as (G1 & G2 & G3 & G4 & _). auto.
      * intros k m j Hk Hj. simpl in Hk.
        destruct (Hm1 k m Hk) as (_ & _ & _ & _ & G5). apply (G5 j Hj).
Qed.

(** [_make_stage] raises for an unknown block name and, when it constructs
    at least one module, for a list shorter than the number of branches. *)
Lemma _make_stage_bounds cfg nic mso r :
  _make_stage cfg nic mso = Some r ->
  blocks_dict (BLOCK cfg) <> None
  /\ (NUM_MODULES cfg = 0
      \/ (NUM_BRANCHES cfg <= length (NUM_BLOCKS cfg)
          /\ NUM_BRANCHES cfg <= length (NUM_CHANNELS cfg)
          /\ NUM_BRANCHES cfg <= length nic)).
Proof.
  unfold _make_stage.
  destruct (blocks_dict (BLOCK cfg)) as [block |]; [| discriminate].
  intros E. split; [discriminate |].
  destruct (NUM_MODULES cfg) as [| n]; [left; reflexivity | right].
  simpl in E.
  destruct (HighResolutionModule_init _ _ _ _ _ _ _) as [m0 |] eqn:E0;
    [| discriminate].
  apply HighResolutionModule_init_bounds in E0. tauto.
Qed.

(** ** The transition layers *)

Lemma last_error_Some {A} (l : list A) :
  l <> [] -> exists x, last_error l = Some x.
Proof.
  intros H. unfold last_error. apply nth_error_lt_Some.
  destruct l; [contradiction | simpl; lia].
Qed.

Lemma make_transition_entry_Some pre cur i :
  pre <> [] -> i < length cur ->
  exists e, make_transition_entry pre cur i = Some e.
Proof.
  intros Hpre Hi. unfold make_transition_entry.
  destruct (nth_error_lt_Some _ Hi) as [c Hc].
  destruct (Nat.ltb_spec i (length pre)) as [Hlt | Hge].
  - destruct (nth_error_lt_Some _ Hlt) as [p Hp]. rewrite Hc, Hp.
    destruct (negb (c =? p)); eauto.
  - destruct (last_error_Some Hpre) as [l Hl].
    match goal with
    | |- context [all_some (map ?f (seq 0 ?n))] =>
        destruct (@all_some_map_Some _ f n 0) as [steps Hs]
    end.
    + intros k _. rewrite Hl, Hc. simpl.
      destruct (k =? i - length pre); eauto.
    + rewrite Hs. eauto.
Qed.

(** X5: [_make_transition_layer] raises exactly when the list of previous
    channel counts is empty and the list of current ones is not: the new
    branch would read the last entry of an empty list. *)
Theorem X5_make_transition_layer_raises_iff pre cur :
  _make_transition_layer pre cur = None <-> pre = [] /\ cur <> [].
Proof.
  unfold _make_transition_layer. split.
  - intros E. destruct pre as [| p pre].
    + split; [reflexivity |]. intros ->. discriminate E.
    + exfalso.
      destruct (@all_some_map_Some _
                  (make_transition_entry (p :: pre) cur) (length cur) 0)
        as [l Hl]; [| congruence].
      intros k Hk. apply make_transition_entry_Some; [discriminate | exact Hk].
  - intros [-> Hcur]. destruct cur as [| c cur]; [contradiction |].
    reflexivity.
Qed.

(** X6: what [_make_transition_layer] returns: one entry for every current
    branch.  Beside a previous branch the entry is empty when the channel
    counts agree and a 3x3 convolution of stride 1 with normalisation and
    activation otherwise.  A new branch [i] gets [i + 1 - len(pre)]
    convolutions of stride 2 from the last previous branch, all but the
    last keeping its channel count. *)
Theorem X6_make_transition_layer_entries pre cur tl :
  _make_transition_layer pre cur = Some tl ->
  length tl = length cur
  /\ forall i c, nth_error cur i = Some c ->
       (forall p, nth_error pre i = Some p ->
          nth_error tl i
          = Some (if c =? p then None
                  else Some (Sequential [Conv2d p c 3 1 1 false;
                                         BatchNorm2d_default c;
                                         ReLU true])))
       /\ (length pre <= i ->
           exists l,
             last_error pre = Some l
             /\ nth_error tl i
                = Some (Some (Sequential
                                (repeat (transition_step l l)
                                        (i - length pre)
                                 ++ [transition_step l c])))).
Proof.
  unfold _make_transition_layer. intros E.
  apply all_some_map_seq in E. destruct E as [Hlen Hent].
  split; [assumption |].
  intros i c Hc.
  assert (Hi : i < length cur) by (apply nth_error_Some; congruence).
  destruct (Hent i Hi) as (e & He & Hnth). simpl in He.
  unfold make_transition_entry in He. rewrite Hnth. split.
  - intros p Hp.
    assert (Hlt : i < length pre) by (apply nth_error_Some; congruence).
    destruct (Nat.ltb_spec i (length pre)); [| lia].
    rewrite Hc, Hp in He. destruct (c =? p); simpl in He; congruence.
  - intros Hge. destruct (Nat.ltb_spec i (length pre)); [lia |].
    destruct (all_some _) as [steps |] eqn:Es; [| discriminate].
    inversion He; subst e. clear He.
    apply all_some_map_seq in Es. destruct Es as [Hl Hsteps].
    destruct (Hsteps 0 ltac:(lia)) as (v0 & Hv0 & _). simpl in Hv0.
    destruct (last_error pre) as [l |] eqn:El; [| discriminate].
    exists l. split; [reflexivity |]. do 3 f_equal.
    apply nth_error_ext. intros k.
    destruct (Nat.lt_ge_cases k (i + 1 - length pre)) as [Hk | Hk].
    + destruct (Hsteps k Hk) as (v & Hv & Hk'). simpl in Hv.
      rewrite Hk'. rewrite Hc in Hv.
      destruct (Nat.eqb_spec k (i - length pre)) as [-> | Hne].
      * inversion Hv. rewrite nth_error_app2; rewrite repeat_length; [| lia].
        now rewrite Nat.sub_diag.
      * inversion Hv. rewrite nth_error_app1 by (rewrite repeat_length; lia).
        rewrite nth_error_repeat by lia. reflexivity.
    + transitivity (@None module).
      * apply nth_error_None. lia.
      * symmetry. apply nth_error_None.
        rewrite length_app, repeat_length. simpl. lia.
Qed.

(** * Further properties of the constructors *)

(** X1: [HighResolutionModule.__init__] returns exactly when each of the
    three lists [num_inchannels], [num_channels] and [num_blocks] has at
    least [num_branches] entries; otherwise an index is out of range. *)
Theorem X1_module_init_returns_iff B blocks num_blocks nic num_channels fm
    mso :
  (exists self,
     HighResolutionModule_init B blocks num_blocks nic num_channels fm mso
     = Some self)
  <-> B <= length nic /\ B <= length num_channels /\ B <= length num_blocks.
Proof.
  split.
  - intros [self E]. eapply HighResolutionModule_init_bounds. exact E.
  - intros (H1 & H2 & H3). now apply HighResolutionModule_init_Some.
Qed.

(** X2: the channel list a fusion module records, and its branches.
    Branch [i] is built for the channel count the list held on entry:
    a first block with the projection that count requires, then
    [num_blocks[i] - 1] blocks without one.  The list then holds
    [num_channels[i]] times the expansion of the block class at [i], and
    its entries from [num_branches] on are as they were. *)
Theorem X2_module_init_channels B blocks num_blocks nic num_channels fm mso
    self :
  HighResolutionModule_init B blocks num_blocks nic num_channels fm mso
    = Some self ->
  length (num_inchannels self) = length nic
  /\ length (branches self) = B
  /\ (forall i, i < B ->
        exists inch ch nb,
          nth_error nic i = Some inch
          /\ nth_error num_channels i = Some ch
          /\ nth_error num_blocks i = Some nb
          /\ nth_error (num_inchannels self) i = Some (ch * expansion blocks)
          /\ nth_error (branches self) i
             = Some (Sequential
                       (new_block blocks inch ch 1
                          (first_downsample blocks inch ch 1)
                        :: repeat (new_block blocks (ch * expansion blocks)
                                     ch 1 None)
                                  (nb - 1))))
  /\ (forall i, B <= i ->
        nth_error (num_inchannels self) i = nth_error nic i).
Proof. apply HighResolutionModule_init_returns. Qed.

Lemma X2_module_init_channels_witness :
  exists self,
    HighResolutionModule_init 2 Bottleneck_class [3; 0] [16; 32; 7] [8; 8]
      "SUM" true = Some self
    /\ num_inchannels self = [32; 32; 7]
    /\ length (branches self) = 2.
Proof.
  destruct (HighResolutionModule_init 2 Bottleneck_class [3; 0] [16; 32; 7]
              [8; 8] "SUM" true) as [self |] eqn:E.
  - exists self. split; [reflexivity |].
    destruct (X2_module_init_channels _ _ _ _ _ _ _ E) as (_ & Hb & _).
    split; [| exact Hb].
    vm_compute in E. inversion E. reflexivity.
  - vm_compute in E. discriminate E.
Defined.

(** X3: [_make_stage] returns exactly when the block name of the
    configuration is known and, unless it is asked for no module, the lists
    [NUM_BLOCKS], [NUM_CHANNELS] and [num_inchannels] have at least
    [NUM_BRANCHES] entries. *)
Theorem X3_make_stage_returns_iff cfg nic mso :
  (exists r, _make_stage cfg nic mso = Some r)
  <-> blocks_dict (BLOCK cfg) <> None
      /\ (NUM_MODULES cfg = 0
          \/ (NUM_BRANCHES cfg <= length (NUM_BLOCKS cfg)
              /\ NUM_BRANCHES cfg <= length (NUM_CHANNELS cfg)
              /\ NUM_BRANCHES cfg <= length nic)).
Proof.
  split.
  - intros [r E]. eapply _make_stage_bounds. exact E.
  - intros (Hb & [H0 | (H1 & H2 & H3)]).
    + unfold _make_stage.
      destruct (blocks_dict (BLOCK cfg)) as [blk |]; [| contradiction].
      rewrite H0. simpl. eauto.
    + now apply _make_stage_Some.
Qed.

Lemma X4_make_stage_modules_witness :
  exists ms nic',
    _make_stage (mkConfig 4 3 "BASIC" [4; 4; 4] [32; 64; 128] "SUM")
      [32; 64; 128] true = Some (ms, nic')
    /\ length ms = 4
    /\ length nic' = 3.
Proof.
  destruct (_make_stage (mkConfig 4 3 "BASIC" [4; 4; 4] [32; 64; 128] "SUM")
              [32; 64; 128] true) as [[ms nic'] |] eqn:E.
  - exists ms, nic'. split; [reflexivity |].
    destruct (X4_make_stage_modules _ _ _ E)
      as (block & _ & Hl & _ & Hn & _).
    split; [exact Hl |]. apply Hn. simpl. lia.
  - vm_compute in E. discriminate E.
Defined.

Lemma X6_make_transition_layer_entries_witness :
  exists tl,
    _make_transition_layer [32; 64] [32; 48; 128; 256] = Some tl
    /\ length tl = 4
    /\ nth_error tl 0 = Some None
    /\ nth_error tl 3
       = Some (Some (Sequential [transition_step 64 64;
                                 transition_step 64 256])).
Proof.
  destruct (_make_transition_layer [32; 64] [32; 48; 128; 256])
    as [tl |] eqn:E.
  - exists tl. split; [reflexivity |].
    destruct (X6_make_transition_layer_entries _ _ E) as (Hl & He).
    split; [exact Hl |]. split.
    + destruct (He 0 32 eq_refl) as [H0 _]. apply (H0 32 eq_refl).
    + destruct (He 3 256 eq_refl) as [_ H3].
      destruct (H3 ltac:(simpl; lia)) as (l & El & Hn).
      vm_compute in El. injection El as El. rewrite <- El in Hn. exact Hn.
  - vm_compute in E. discriminate E.
Defined.

(** * Further properties of the forward passes *)

(** ** The inputs that the fusion module reads *)

Lemma list_set_app {A} (l e : list A) v :
  forall i, i < length l -> list_set (l ++ e) i v = list_set l i v ++ e.
Proof.
  induction l as [| x l IH]; intros [| i] Hi; simpl in *; try lia.
  - reflexivity.
  - f_equal. apply IH. lia.
Qed.

(** Two computations that agree in every state are interchangeable under
    [bind]. *)
Lemma bind_ext {A B} (c : M A) (k1 k2 : A -> M B) st :
  (forall a st1, k1 a st1 = k2 a st1) -> bind c k1 st = bind c k2 st.
Proof.
  intros H. unfold bind. destruct (c st) as [[a st1] |]; auto.
Qed.

Lemma bind_congr {A B} (c1 c2 : M A) (k1 k2 : A -> M B) st :
  c1 st = c2 st -> (forall a st1, k1 a st1 = k2 a st1) ->
  bind c1 k1 st = bind c2 k2 st.
Proof.
  intros Hc H. unfold bind. rewrite Hc.
  destruct (c2 st) as [[a st1] |]; auto.
Qed.

Section FusionInputs.
Variable params : string -> index -> fval.

Lemma run_branches_short path bs :
  forall count i x st,
    i <= length x -> length x < i + count ->
    run_branches params path bs x i count st = None.
Proof.
  induction count as [| count IH]; intros i x st Hle Hlt; [lia |].
  destruct (run_branches params path bs x i (S count) st) as [[r st'] |]
    eqn:E; [exfalso | reflexivity].
  simpl in E.
  apply bind_Some in E. destruct E as (b & st1 & _ & E).
  apply bind_Some in E. destruct E as (xi & st2 & Exi & E).
  apply lift_Some in Exi. destruct Exi as [Exi _].
  apply bind_Some in E. destruct E as (y & st3 & _ & E).
  assert (Hi : i < length x) by (apply nth_error_Some; congruence).
  rewrite IH in E; [discriminate | |]; rewrite list_set_length; lia.
Qed.

Lemma run_branches_app path bs extra :
  forall count i x st,
    i + count <= length x ->
    run_branches params path bs (x ++ extra) i count st
    = match run_branches params path bs x i count st with
      | Some (y, st') => Some (y ++ extra, st')
      | None => None
      end.
Proof.
  induction count as [| count IH]; intros i x st Hle; simpl.
  - reflexivity.
  - unfold bind, lift. destruct (nth_error bs i) as [b |]; [| reflexivity].
    rewrite nth_error_app1 by lia.
    destruct (nth_error x i) as [xi |]; [| reflexivity].
    destruct (call params (item (child path "branches") i) b xi st)
      as [[y st3] |]; [| reflexivity].
    rewrite list_set_app by lia. apply IH. rewrite list_set_length. lia.
Qed.

Lemma run_branches_length path bs :
  forall count i x st y st',
    run_branches params path bs x i count st = Some (y, st') ->
    length y = length x.
Proof.
  induction count as [| count IH]; intros i x st y st' E; simpl in E.
  - apply ret_Some in E. destruct E as [-> _]. reflexivity.
  - apply bind_Some in E. destruct E as (b & st1 & _ & E).
    apply bind_Some in E. destruct E as (xi & st2 & _ & E).
    apply bind_Some in E. destruct E as (z & st3 & _ & E).
    apply IH in E. rewrite E. apply list_set_length.
Qed.

(** The inner loop reads the entries [j], ..., [j + count - 1]. *)
Lemma fuse_sum_reads path fl x x' i :
  forall count j y st,
    (forall k, j <= k < j + count -> nth_error x k = nth_error x' k) ->
    fuse_sum params path fl x i y j count st
    = fuse_sum params path fl x' i y j count st.
Proof.
  induction count as [| count IH]; intros j y st H; simpl; [reflexivity |].
  rewrite (H j) by lia.
  apply bind_ext. intros a st1. apply IH. intros k Hk. apply H. lia.
Qed.

(** The outer loop reads entry 0 and the entries below the number of
    branches. *)
Lemma fuse_outputs_reads path B fl r x x' :
  (forall k, k < Nat.max 1 B -> nth_error x k = nth_error x' k) ->
  forall count i st,
    fuse_outputs params path B fl r x i count st
    = fuse_outputs params path B fl r x' i count st.
Proof.
  intros H. induction count as [| count IH]; intros i st;
    cbn [fuse_outputs]; [reflexivity |].
  rewrite (H 0) by lia.
  apply bind_ext. intros y st1.
  apply bind_congr.
  { apply fuse_sum_reads. intros k Hk. apply H. lia. }
  intros y' st2. apply bind_ext. intros out st3.
  apply bind_congr; [apply IH | reflexivity].
Qed.

Lemma HighResolutionModule_forward_short path self x st :
  length x < num_branches self ->
  HighResolutionModule_forward params path self x st = None.
Proof.
  intros H. unfold HighResolutionModule_forward.
  destruct (Nat.eqb_spec (num_branches self) 1) as [E1 | E1].
  - destruct x as [| x0 x]; [| simpl in H; lia].
    unfold bind, lift.
    destruct (nth_error (branches self) 0); reflexivity.
  - apply bind_None. apply run_branches_short; lia.
Qed.

Lemma HighResolutionModule_forward_app path self x extra st :
  1 <= num_branches self -> num_branches self <= length x ->
  HighResolutionModule_forward params path self (x ++ extra) st
  = HighResolutionModule_forward params path self x st.
Proof.
  intros H1 H2. unfold HighResolutionModule_forward.
  destruct (Nat.eqb_spec (num_branches self) 1) as [E1 | E1].
  - rewrite nth_error_app1 by lia. reflexivity.
  - unfold bind at 1. rewrite run_branches_app by lia.
    unfold bind at 2.
    destruct (run_branches params path (branches self) x 0
                (num_branches self) st) as [[y st1] |] eqn:Er;
      [| reflexivity].
    apply run_branches_length in Er.
    apply bind_ext. intros fl st2.
    apply fuse_outputs_reads. intros k Hk.
    apply nth_error_app1. lia.
Qed.
End FusionInputs.

(** ** [fuse_method] is stored and never read *)

(** X10: the attribute [fuse_method] is stored and never read: two modules
    constructed with different values of it compute the same. *)
Theorem X10_fuse_method_unused params B blocks num_blocks nic
    num_channels fm1 fm2 mso self1 self2 :
  HighResolutionModule_init B blocks num_blocks nic num_channels fm1 mso
    = Some self1 ->
  HighResolutionModule_init B blocks num_blocks nic num_channels fm2 mso
    = Some self2 ->
  forall path x st,
    HighResolutionModule_forward params path self1 x st
    = HighResolutionModule_forward params path self2 x st.
Proof.
  intros E1 E2.
  apply HighResolutionModule_init_fields in E1, E2.
  destruct E1 as (bs1 & n1 & fl1 & Eb1 & Ef1 & ->).
  destruct E2 as (bs2 & n2 & fl2 & Eb2 & Ef2 & ->).
  rewrite Eb1 in Eb2. inversion Eb2; subst bs2 n2.
  rewrite Ef1 in Ef2. inversion Ef2; subst fl2.
  reflexivity.
Qed.

(** ** The outputs of the fusion modules are non-negative *)

Lemma frelu_nonneg v : nonneg (frelu v).
Proof.
  destruct v; simpl; auto; [apply Rmax_l | apply Rle_refl].
Qed.

Lemma nonneg_relu_forward (y : tensor fval) idx :
  nonneg (tdata (relu_forward y) idx).
Proof. apply frelu_nonneg. Qed.

Section NonNegative.
Variable params : string -> index -> fval.

Lemma fuse_outputs_relu path B fl inplace x :
  forall count i st ys st',
    fuse_outputs params path B fl (ReLU inplace) x i count st
      = Some (ys, st') ->
    Forall (fun y => exists y0, y = relu_forward y0) ys.
Proof.
  induction count as [| count IH]; intros i st ys st' E; simpl in E.
  - apply ret_Some in E. destruct E as [-> _]. constructor.
  - apply bind_Some in E. destruct E as (y & st1 & _ & E).
    apply bind_Some in E. destruct E as (y' & st2 & _ & E).
    apply bind_Some in E. destruct E as (out & st3 & Eout & E).
    apply bind_Some in E. destruct E as (rest & st4 & Erest & E).
    apply ret_Some in E. destruct E as [-> _].
    simpl in Eout. apply ret_Some in Eout. destruct Eout as [-> _].
    constructor; [eauto | eapply IH; eassumption].
Qed.

(** A fusion module of several branches returns tensors that the
    activation has produced. *)
Lemma HighResolutionModule_forward_relu path self inplace x st ys st' :
  num_branches self <> 1 ->
  hrm_relu self = ReLU inplace ->
  HighResolutionModule_forward params path self x st = Some (ys, st') ->
  Forall (fun y => exists y0, y = relu_forward y0) ys.
Proof.
  intros HB Hr E. unfold HighResolutionModule_forward in E.
  destruct (Nat.eqb_spec (num_branches self) 1); [contradiction |].
  apply bind_Some in E. destruct E as (x' & st1 & _ & E).
  apply bind_Some in E. destruct E as (fl & st2 & _ & E).
  rewrite Hr in E. eapply fuse_outputs_relu. exact E.
Qed.

(** The output of a non-empty stage is an output of one of its modules. *)
Lemma stage_forward_output path (Q : HighResolutionModule -> Prop)
    (P : list (tensor fval) -> Prop) :
  (forall m p x st ys st',
     Q m -> HighResolutionModule_forward params p m x st = Some (ys, st') ->
     P ys) ->
  forall ms, ms <> [] -> Forall Q ms ->
  forall i x st ys st',
    stage_forward params path ms i x st = Some (ys, st') -> P ys.
Proof.
  intros HQ. induction ms as [| m ms IH]; intros Hne HF i x st ys st' E;
    [contradiction |].
  inversion HF as [| ? ? Hm Hms]; subst. simpl in E.
  apply bind_Some in E. destruct E as (y & st1 & Em & E).
  destruct ms as [| m' ms'].
  - simpl in E. apply ret_Some in E. destruct E as [-> _].
    eapply HQ; eassumption.
  - eapply IH; [discriminate | assumption | exact E].
Qed.

Lemma stage_forward_relu path ms :
  ms <> [] -> forallb fuses_with_relu ms = true ->
  forall i x st ys st',
    stage_forward params path ms i x st = Some (ys, st') ->
    Forall (fun y => exists y0, y = relu_forward y0) ys.
Proof.
  intros Hne Hall.
  apply (@stage_forward_output path (fun m => fuses_with_relu m = true));
    [| assumption | now apply Forall_forall, forallb_forall].
  intros m p x st ys st' Hm E. unfold fuses_with_relu in Hm.
  apply andb_prop in Hm. destruct Hm as [HB Hr].
  destruct (hrm_relu m) as [| | inplace | | | |] eqn:Er; try discriminate.
  eapply HighResolutionModule_forward_relu; [| exact Er | exact E].
  intros HB1. rewrite HB1 in HB. discriminate.
Qed.

(** Every module of the last stage of the backbone fuses several branches
    and ends in the activation. *)
Lemma make_baseline_stage4_relu :
  match make_baseline with
  | Some self =>
      forallb fuses_with_relu (stage4 self) = true /\ stage4 self <> []
  | None => False
  end.
Proof. vm_compute. split; [reflexivity | discriminate]. Qed.

Lemma HigherResolutionNet_forward_relu path self image st y st' :
  make_baseline = Some self ->
  HigherResolutionNet_forward params path self image st = Some (y, st') ->
  exists y0, y = relu_forward y0.
Proof.
  intros Hself E. pose proof make_baseline_stage4_relu as H4.
  rewrite Hself in H4. destruct H4 as [Hall Hne].
  unfold HigherResolutionNet_forward, HigherResolutionNet_forward_rest in E.
  do 13 (apply bind_Some in E; destruct E as (? & ? & _ & E)).
  apply bind_Some in E. destruct E as (ys & st4 & Es & E).
  apply lift_Some in E. destruct E as [E _].
  apply (stage_forward_relu _ Hne Hall) in Es.
  apply nth_error_In in E.
  rewrite Forall_forall in Es. apply Es. exact E.
Qed.
End NonNegative.

(** ** The coordinate channels that the heads read *)

Lemma ROMPv1_init_coordmaps self :
  ROMPv1_init = Some self -> get_coord_maps 128 = Some (coordmaps self).
Proof.
  unfold ROMPv1_init.
  destruct make_baseline as [bb |]; [| discriminate].
  destruct (get_coord_maps 128) as [t |]; [| discriminate].
  intros E. inversion E. reflexivity.
Qed.

Lemma INR_128 : (INR 128 - 1 = 127)%R.
Proof. rewrite INR_IZR_INZ. simpl. lra. Qed.

Lemma repeat_tensor_batch {A} (t : tensor A) b c h w :
  tshape t = [1; c; h; w] ->
  exists r,
    repeat_tensor [b; 1; 1; 1] t = Some r
    /\ tshape r = [b; c; h; w]
    /\ forall bi k i j, k < c -> i < h -> j < w ->
         tdata r [bi; k; i; j] = tdata t [0; k; i; j].
Proof.
  intros Ht. unfold repeat_tensor. rewrite Ht. simpl.
  eexists. split; [reflexivity |]. split.
  - simpl. rewrite Nat.mul_1_r, !Nat.add_0_r. reflexivity.
  - intros bi k i j Hk Hi Hj. cbn [tdata combine map fst snd skipn].
    rewrite Nat.mod_1_r, (Nat.mod_small k c), (Nat.mod_small i h),
      (Nat.mod_small j w) by assumption.
    reflexivity.
Qed.

Lemma ROMPv1_features_coordinates params self image st x st' :
  ROMPv1_init = Some self ->
  ROMPv1_features params self image st = Some (x, st') ->
  exists feats b c,
    HigherResolutionNet_forward params "backbone" (backbone self) image st
      = Some (feats, st')
    /\ tshape feats = [b; c; 128; 128]
    /\ tshape x = [b; c + 2; 128; 128]
    /\ forall bi i j, i < 128 -> j < 128 ->
         (forall k, k < c -> tdata x [bi; k; i; j] = tdata feats [bi; k; i; j])
         /\ tdata x [bi; c; i; j] = Fin (INR j / 127 * 2 - 1)%R
         /\ tdata x [bi; c + 1; i; j] = Fin (INR i / 127 * 2 - 1)%R.
Proof.
  intros Hinit E. apply ROMPv1_init_coordmaps in Hinit.
  unfold ROMPv1_features in E.
  apply bind_Some in E. destruct E as (feats & st1 & Ef & E).
  apply bind_Some in E. destruct E as (batch & st2 & Eb & E).
  apply lift_Some in Eb. destruct Eb as [Eb ->].
  apply bind_Some in E. destruct E as (coords & st3 & Ec & E).
  apply lift_Some in Ec. destruct Ec as [Ec ->].
  apply lift_Some in E. destruct E as [E ->].
  destruct (get_coord_maps_shape 128) as (t & Et & Hshape).
  rewrite Hinit in Et. inversion Et; subst t. clear Et.
  destruct (@repeat_tensor_batch _ (coordmaps self) batch 2 128 128 Hshape)
    as (r & Er & Hr & Hdata).
  rewrite Ec in Er. inversion Er; subst r. clear Er.
  destruct (tshape feats) as [| b [| c rest]] eqn:Es; try discriminate.
  { unfold cat in E. rewrite Es in E. simpl in E. discriminate. }
  simpl in Eb. inversion Eb; subst batch. clear Eb.
  destruct (@cat2_dim1 _ NaN feats coords x b c rest Es E)
    as (cy & Hcy & Hx & Hcat).
  rewrite Hr in Hcy. inversion Hcy; subst cy rest. clear Hcy.
  exists feats, b, c. split; [assumption |]. split; [exact Es |].
  split; [assumption |].
  intros bi i j Hi Hj.
  split; [| split].
  - intros k Hk. now apply Hcat.
  - destruct (Hcat bi c [i; j]) as [_ H2]. rewrite H2 by lia.
    rewrite Nat.sub_diag, Hdata by lia.
    destruct (@get_coord_maps_entries 128 i j ltac:(lia))
      as (t & Et & _ & H0 & _).
    rewrite Hinit in Et. inversion Et; subst t. rewrite H0, INR_128.
    reflexivity.
  - destruct (Hcat bi (c + 1) [i; j]) as [_ H2]. rewrite H2 by lia.
    replace (c + 1 - c) with 1 by lia. rewrite Hdata by lia.
    destruct (@get_coord_maps_entries 128 i j ltac:(lia))
      as (t & Et & _ & _ & H1).
    rewrite Hinit in Et. inversion Et; subst t. rewrite H1, INR_128.
    reflexivity.
Qed.

(** ** The heads *)

Section HeadShapes.
Variable params : string -> index -> fval.

Lemma call_seq_app path l1 l2 :
  forall i x st,
    call_seq params path (l1 ++ l2) i x st
    = bind (call_seq params path l1 i x)
           (fun y => call_seq params path l2 (i + length l1) y) st.
Proof.
  induction l1 as [| m l1 IH]; intros i x st; simpl.
  - unfold bind, ret. now rewrite Nat.add_0_r.
  - unfold bind at 1 2 3.
    destruct (call params (item path i) m x st) as [[y st1] |];
      [| reflexivity].
    rewrite IH. unfold bind. now rewrite Nat.add_succ_r.
Qed.

(** A sequence of layers that keep a shape keeps it. *)
Lemma call_seq_keeps_shape path l s st :
  Forall (fun m => forall p (x : tensor fval),
            tshape x = s ->
            exists y, call params p m x st = Some (y, st) /\ tshape y = s) l ->
  forall i (x : tensor fval),
    tshape x = s ->
    exists y, call_seq params path l i x st = Some (y, st) /\ tshape y = s.
Proof.
  induction 1 as [| m l Hm _ IH]; intros i x Hx; simpl.
  - exists x. split; [reflexivity | assumption].
  - destruct (Hm (item path i) x Hx) as (y & Ey & Hy).
    run_step Ey. apply IH. assumption.
Qed.

Lemma BasicBlock_keeps_shape path c (x : tensor fval) st b h w :
  training st = false ->
  tshape x = [b; c; h; w] -> 1 <= h -> 1 <= w ->
  exists y,
    call params path (BasicBlock c c 1 None) x st = Some (y, st)
    /\ tshape y = [b; c; h; w].
Proof.
  intros Hst Hx Hh Hw.
  destruct (@new_block_shapes params path BasicBlock_class c c 1 None x st
              b h w Hst Hx Hh Hw (le_n 1))
    as (_ & _ & y & _ & _ & _ & Ey & Hy).
  { right. simpl. repeat split. lia. }
  exists y. split; [exact Ey |].
  rewrite Hy, !div_1_succ by assumption. simpl. now rewrite Nat.mul_1_r.
Qed.

(** A head halves the resolution and returns the channels asked for. *)
Lemma _make_head_layers_shape path cfg cin cout (x : tensor fval) st b h w :
  training st = false ->
  tshape x = [b; cin; h; w] -> 1 <= h -> 1 <= w ->
  exists y,
    call params path (_make_head_layers cfg cin cout) x st = Some (y, st)
    /\ tshape y = [b; cout; (h - 1) / 2 + 1; (w - 1) / 2 + 1].
Proof.
  intros Hst Hx Hh Hw. unfold _make_head_layers.
  rewrite call_Sequential. rewrite <- app_assoc. cbn [app call_seq].
  set (c := NUM_CHANNELS_head cfg).
  set (h2 := (h - 1) / 2 + 1). set (w2 := (w - 1) / 2 + 1).
  assert (Hh2 : 1 <= h2) by (unfold h2; lia).
  assert (Hw2 : 1 <= w2) by (unfold w2; lia).
  (* the stem *)
  assert (Hstem : exists y,
            call params (item path 0)
              (Sequential [Conv2d cin c 3 2 1 true; BatchNorm2d c BN_MOMENTUM;
                           ReLU true]) x st = Some (y, st)
            /\ tshape y = [b; c; h2; w2]).
  { rewrite call_Sequential. cbn [call_seq].
    destruct (@call_conv_shape params (item (item path 0) 0) cin c 3 2 1 true
                x st b h w h2 w2 Hx)
      as (y1 & E1 & S1); try (apply conv_out_3x3; lia).
    destruct (@call_bn_shape params (item (item path 0) 1) c BN_MOMENTUM y1
                st b h2 w2 Hst S1) as (y2 & E2 & S2).
    run_step E1. run_step E2.
    exists (relu_forward y2). split; [reflexivity | exact S2]. }
  destruct Hstem as (y0 & E0 & S0). run_step E0.
  rewrite call_seq_app.
  (* the blocks *)
  match goal with
  | |- context [call_seq params path ?l 1 y0] =>
      destruct (@call_seq_keeps_shape path l [b; c; h2; w2] st) with
        (i := 1) (x := y0) as (y1 & E1 & S1); [| exact S0 |]
  end.
  { apply Forall_forall. intros m Hm. apply in_map_iff in Hm.
    destruct Hm as (k & <- & _). intros p z Hz.
    rewrite call_Sequential.
    apply call_seq_keeps_shape; [| exact Hz].
    apply Forall_forall. intros m' Hm'. apply in_map_iff in Hm'.
    destruct Hm' as (k' & <- & _). intros p' z' Hz'.
    rewrite call_Sequential. cbn [call_seq].
    destruct (@BasicBlock_keeps_shape (item p' 0) c z' st b h2 w2 Hst Hz'
                Hh2 Hw2) as (y & Ey & Hy).
    run_step Ey. exists y. split; [reflexivity | exact Hy]. }
  run_step E1. cbn [call_seq].
  (* the last convolution *)
  destruct (@call_conv_shape params
              (item path (1 + length (map (fun _ : nat =>
                 Sequential (map (fun _ : nat =>
                   Sequential [BasicBlock c c 1 None])
                   (seq 0 (NUM_BASIC_BLOCKS cfg))))
                 (seq 0 (NUM_HEADS cfg)))))
              c cout 1 1 0 true y1 st b h2 w2 h2 w2 S1)
    as (y2 & E2 & S2).
  { rewrite conv_out_1x1 by lia. now rewrite div_1_succ. }
  { rewrite conv_out_1x1 by lia. now rewrite div_1_succ. }
  run_step E2. exists y2. split; [reflexivity | exact S2].
Qed.

(** A head raises on an input with another number of channels. *)
Lemma _make_head_layers_channels path cfg cin cout (x : tensor fval) st
    b c h w :
  tshape x = [b; c; h; w] -> c <> cin ->
  call params path (_make_head_layers cfg cin cout) x st = None.
Proof.
  intros Hx Hc. unfold _make_head_layers.
  rewrite call_Sequential. rewrite <- app_assoc. cbn [app call_seq].
  apply bind_None. rewrite call_Sequential. cbn [call_seq].
  apply bind_None. simpl. unfold lift, conv2d. rewrite Hx.
  destruct (Nat.eqb_spec c cin); [contradiction | reflexivity].
Qed.
End HeadShapes.

(** * The forward passes on shapes *)

(** ** A forward pass follows its computation on shapes *)

Lemma follows_ret {A S} tr (shp : A -> S) a :
  follows tr shp (ret a) (Some (shp a)).
Proof. intros st Hst. simpl. auto. Qed.

Lemma follows_lift {A S} tr (shp : A -> S) (o : option A) :
  follows tr shp (lift o) (option_map shp o).
Proof. intros st Hst. unfold lift. destruct o; simpl; auto. Qed.

Lemma follows_lift_id {A} tr (o : option A) :
  follows tr (fun a => a) (lift o) o.
Proof. intros st Hst. unfold lift. destruct o; simpl; auto. Qed.

Lemma follows_lift_nth {A S} tr (shp : A -> S) (l : list A) i :
  follows tr shp (lift (nth_error l i)) (nth_error (map shp l) i).
Proof. rewrite nth_error_map. apply follows_lift. Qed.

Lemma follows_bind {A B S T} tr (shpA : A -> S) (shpB : B -> T)
    (c : M A) (k : A -> M B) (o : option S) (g : S -> option T) :
  follows tr shpA c o ->
  (forall a, follows tr shpB (k a) (g (shpA a))) ->
  follows tr shpB (bind c k) (let? s := o in g s).
Proof.
  intros Hc Hk st Hst. unfold bind. specialize (Hc st Hst).
  destruct (c st) as [[a st1] |], o as [s |]; try contradiction; [| exact I].
  destruct Hc as [<- Hst1]. apply Hk. exact Hst1.
Qed.

Lemma follows_eq {A S} tr (shp : A -> S) (c : M A) (o o' : option S) :
  o = o' -> follows tr shp c o -> follows tr shp c o'.
Proof. intros ->. auto. Qed.

(** One step of a computation and of its computation on shapes. *)
Ltac follows_step :=
  eapply follows_bind; [| intros ?; cbv beta].

Lemma list_set_map {A B} (f : A -> B) (l : list A) v :
  forall i, list_set (map f l) i (f v) = map f (list_set l i v).
Proof.
  induction l as [| x l IH]; intros [| i]; simpl; auto.
  now rewrite IH.
Qed.

Lemma conv_dim_ok_exact n k s p : conv_dim_ok false n k s p = true.
Proof. reflexivity. Qed.

Lemma add_ok_exact s1 s2 : add_ok exact s1 s2 = true.
Proof.
  unfold add_ok. simpl.
  destruct s1 as [| ? [| ? [| ? [| ? [| ? ?]]]]]; try reflexivity.
  destruct s2 as [| ? [| ? [| ? [| ? [| ? ?]]]]]; reflexivity.
Qed.

Section Follows.
Variable params : string -> index -> fval.
Variable tr : bool.

Lemma follows_conv2d path cin cout k s p bias x :
  follows tr (@tshape fval) (lift (conv2d params path cin cout k s p bias x))
          (conv2d_shape exact cin cout k s p (tshape x)).
Proof.
  eapply follows_eq; [| apply follows_lift].
  unfold conv2d, conv2d_shape.
  destruct (tshape x) as [| b [| c [| h [| w [| ? ?]]]]]; try reflexivity.
  destruct (c =? cin); [| reflexivity].
  destruct (conv_out h k s p); [| reflexivity].
  destruct (conv_out w k s p); reflexivity.
Qed.

Lemma follows_batch_norm path n mo x :
  follows tr (@tshape fval) (batch_norm params path n mo x)
          (batch_norm_shape exact tr n (tshape x)).
Proof.
  intros st Hst. unfold batch_norm, batch_norm_shape. rewrite Hst.
  destruct (tshape x) as [| b [| c [| h [| w [| ? ?]]]]] eqn:Ex; try exact I.
  destruct (c =? n); [| exact I].
  destruct tr; simpl.
  - destruct (negb (b * h * w =? 1)); simpl; auto.
  - auto.
Qed.

Lemma follows_upsample k x :
  follows tr (@tshape fval) (lift (upsample k x))
          (upsample_shape k (tshape x)).
Proof.
  eapply follows_eq; [| apply follows_lift].
  unfold upsample, upsample_shape.
  destruct (tshape x) as [| b [| c spatial]]; try reflexivity.
  destruct (_ && _); reflexivity.
Qed.

Lemma follows_tensor_add x y :
  follows tr (@tshape fval) (lift (tensor_add x y))
          (tensor_add_shape exact (tshape x) (tshape y)).
Proof.
  eapply follows_eq; [| apply follows_lift].
  unfold tensor_add, tensor_add_shape. rewrite add_ok_exact.
  destruct (broadcast_shapes (tshape x) (tshape y)); reflexivity.
Qed.

Lemma follows_tensor_iadd x y :
  follows tr (@tshape fval) (lift (tensor_iadd x y))
          (tensor_iadd_shape exact (tshape x) (tshape y)).
Proof.
  eapply follows_eq; [| apply follows_lift].
  unfold tensor_iadd, tensor_iadd_shape. rewrite add_ok_exact.
  destruct (broadcast_shapes (tshape x) (tshape y)); [| reflexivity].
  destruct (_ && _); reflexivity.
Qed.

Lemma follows_call_seq path l :
  Forall (fun m => forall path x,
            follows tr (@tshape fval) (call params path m x)
                    (call_shape exact tr m (tshape x))) l ->
  forall i x,
    follows tr (@tshape fval) (call_seq params path l i x)
            (call_seq_shape exact tr l (tshape x)).
Proof.
  induction 1 as [| m l Hm _ IH]; intros i x; simpl.
  - apply follows_ret.
  - follows_step; [apply Hm | apply IH].
Qed.

Lemma follows_call m :
  forall path x,
    follows tr (@tshape fval) (call params path m x)
            (call_shape exact tr m (tshape x)).
Proof.
  induction m using module_tree_ind; intros path x.
  - apply follows_conv2d.
  - apply follows_batch_norm.
  - apply (@follows_ret _ _ tr (@tshape fval) (relu_forward x)).
  - apply follows_upsample.
  - change (follows tr (@tshape fval) (call_seq params path l 0 x)
                    (call_seq_shape exact tr l (tshape x))).
    now apply follows_call_seq.
  - simpl.
    follows_step; [apply IHm1 |].
    follows_step; [apply IHm2 |].
    follows_step; [apply IHm3 |].
    follows_step; [apply IHm4 |].
    follows_step; [apply IHm5 |].
    follows_step.
    { destruct d; [apply (H _ eq_refl) | apply follows_ret]. }
    follows_step; [apply follows_tensor_iadd |].
    apply IHm3.
  - simpl.
    follows_step; [apply IHm1 |].
    follows_step; [apply IHm2 |].
    follows_step; [apply IHm7 |].
    follows_step; [apply IHm3 |].
    follows_step; [apply IHm4 |].
    follows_step; [apply IHm7 |].
    follows_step; [apply IHm5 |].
    follows_step; [apply IHm6 |].
    follows_step.
    { destruct d; [apply (H _ eq_refl) | apply follows_ret]. }
    follows_step; [apply follows_tensor_iadd |].
    apply IHm7.
Qed.

Lemma follows_call_entry path e x :
  follows tr (@tshape fval) (call_entry params path e x)
          (call_entry_shape exact tr e (tshape x)).
Proof.
  destruct e; simpl; [apply follows_call |].
  apply (@follows_lift _ _ tr (@tshape fval) None).
Qed.

Lemma follows_run_branches path bs :
  forall count x i,
    follows tr (map (@tshape fval)) (run_branches params path bs x i count)
            (run_branches_shape exact tr bs (map (@tshape fval) x) i count).
Proof.
  induction count as [| count IH]; intros x i; simpl.
  - apply follows_ret.
  - follows_step; [apply follows_lift_id |].
    follows_step; [apply follows_lift_nth |].
    follows_step; [apply follows_call |].
    rewrite list_set_map. apply IH.
Qed.

Lemma follows_fuse_sum path fl x i :
  forall count y j,
    follows tr (@tshape fval) (fuse_sum params path fl x i y j count)
            (fuse_sum_shape exact tr fl (map (@tshape fval) x) i (tshape y) j
                            count).
Proof.
  induction count as [| count IH]; intros y j; simpl.
  - apply follows_ret.
  - follows_step; [| apply IH].
    destruct (i =? j).
    + follows_step; [apply follows_lift_nth |].
      apply follows_tensor_add.
    + follows_step; [apply follows_lift_id |].
      follows_step; [apply follows_lift_id |].
      follows_step; [apply follows_lift_nth |].
      follows_step; [apply follows_call_entry |].
      apply follows_tensor_add.
Qed.

Lemma follows_fuse_outputs path B fl r x :
  forall count i,
    follows tr (map (@tshape fval))
            (fuse_outputs params path B fl r x i count)
            (fuse_outputs_shape exact tr B fl r (map (@tshape fval) x) i
                                count).
Proof.
  induction count as [| count IH]; intros i; cbn [fuse_outputs
                                                    fuse_outputs_shape].
  - apply (@follows_ret _ _ tr (map (@tshape fval)) []).
  - follows_step.
    { destruct (i =? 0).
      - apply follows_lift_nth.
      - follows_step; [apply follows_lift_id |].
        follows_step; [apply follows_lift_id |].
        follows_step; [apply follows_lift_nth |].
        apply follows_call_entry. }
    follows_step; [apply follows_fuse_sum |].
    follows_step; [apply follows_call |].
    follows_step; [apply IH |].
    apply (@follows_ret _ _ tr (map (@tshape fval)) (_ :: _)).
Qed.

Lemma follows_HighResolutionModule_forward path self x :
  follows tr (map (@tshape fval))
          (HighResolutionModule_forward params path self x)
          (HighResolutionModule_forward_shape exact tr self
             (map (@tshape fval) x)).
Proof.
  unfold HighResolutionModule_forward, HighResolutionModule_forward_shape.
  destruct (num_branches self =? 1).
  - follows_step; [apply follows_lift_id |].
    follows_step; [apply follows_lift_nth |].
    follows_step; [apply follows_call |].
    apply (@follows_ret _ _ tr (map (@tshape fval)) [_]).
  - follows_step; [apply follows_run_branches |].
    follows_step; [apply follows_lift_id |].
    apply follows_fuse_outputs.
Qed.

Lemma follows_stage_forward path ms :
  forall i x,
    follows tr (map (@tshape fval)) (stage_forward params path ms i x)
            (stage_forward_shape exact tr ms (map (@tshape fval) x)).
Proof.
  induction ms as [| m ms IH]; intros i x; simpl.
  - apply follows_ret.
  - follows_step; [apply follows_HighResolutionModule_forward | apply IH].
Qed.

Lemma follows_transition_forward path transition input pass :
  forall count i,
    follows tr (map (@tshape fval))
            (transition_forward params path transition input pass i count)
            (transition_forward_shape exact tr transition
               (option_map (@tshape fval) input)
               (fun k => option_map (@tshape fval) (pass k)) i count).
Proof.
  induction count as [| count IH]; intros i; simpl.
  - apply (@follows_ret _ _ tr (map (@tshape fval)) []).
  - follows_step; [apply follows_lift_id |].
    follows_step.
    { destruct a as [layer |].
      - follows_step; [apply follows_lift |]. apply follows_call.
      - apply follows_lift. }
    follows_step; [apply IH |].
    apply (@follows_ret _ _ tr (map (@tshape fval)) (_ :: _)).
Qed.

Lemma last_error_map {A B} (f : A -> B) (l : list A) :
  last_error (map f l) = option_map f (last_error l).
Proof. unfold last_error. now rewrite nth_error_map, length_map. Qed.

Lemma transition_forward_shape_ext sc transition input pass pass' :
  (forall k, pass k = pass' k) ->
  forall count i,
    transition_forward_shape sc tr transition input pass i count
    = transition_forward_shape sc tr transition input pass' i count.
Proof.
  intros H. induction count as [| count IH]; intros i; simpl;
    [reflexivity |].
  rewrite H, IH. reflexivity.
Qed.

Lemma follows_transition_lists path transition (y_list : list (tensor fval))
    count :
  follows tr (map (@tshape fval))
          (transition_forward params path transition (last_error y_list)
             (nth_error y_list) 0 count)
          (transition_forward_shape exact tr transition
             (last_error (map (@tshape fval) y_list))
             (nth_error (map (@tshape fval) y_list)) 0 count).
Proof.
  eapply follows_eq; [| apply follows_transition_forward].
  rewrite last_error_map. apply transition_forward_shape_ext.
  intros k. now rewrite nth_error_map.
Qed.

Lemma follows_HigherResolutionNet_layers path self x :
  follows tr (@tshape fval)
          (x <- call params (child path "conv1") (conv1 self) x ;;
           HigherResolutionNet_forward_rest params path self x)
          (HigherResolutionNet_layers_shape exact tr self (tshape x)).
Proof.
  unfold HigherResolutionNet_forward_rest, HigherResolutionNet_layers_shape.
  do 7 (follows_step; [apply follows_call |]).
  follows_step.
  { apply (@follows_transition_forward _ (transition1 self) (Some a5)
             (fun _ => Some a5)). }
  follows_step; [apply follows_stage_forward |].
  follows_step; [apply follows_transition_lists |].
  follows_step; [apply follows_stage_forward |].
  follows_step; [apply follows_transition_lists |].
  follows_step; [apply follows_stage_forward |].
  apply follows_lift_nth.
Qed.

(** The shape that [normalise_image] returns depends on the shape of its
    argument only. *)
Lemma normalise_image_shape (x : tensor fval) :
  shape_of (normalise_image x) = shape_of (normalise_image (blank (tshape x))).
Proof.
  destruct x as [s d].
  unfold normalise_image, BHWC_to_BCHW, unsqueeze, transpose, squeeze, blank.
  cbn [tshape].
  destruct (norm_dim (S (length s)) 1) as [k |]; [| reflexivity].
  cbn [tshape].
  destruct (norm_dim _ 1) as [k0 |]; [| reflexivity].
  destruct (norm_dim _ (-1)) as [k1 |]; [| reflexivity].
  cbn [tshape].
  destruct (norm_dim _ (-1)) as [k2 |]; [| reflexivity].
  destruct (_ =? 1); reflexivity.
Qed.

Lemma follows_HigherResolutionNet_forward path self x :
  follows tr (@tshape fval)
          (HigherResolutionNet_forward params path self x)
          (HigherResolutionNet_forward_shape tr self (tshape x)).
Proof.
  unfold HigherResolutionNet_forward, HigherResolutionNet_forward_shape.
  rewrite <- normalise_image_shape.
  follows_step; [apply follows_lift |].
  apply follows_HigherResolutionNet_layers.
Qed.

(** So does the shape of a concatenation of two tensors. *)
Lemma cat_shapes (x y x' y' : tensor fval) dim :
  tshape x = tshape x' -> tshape y = tshape y' ->
  shape_of (cat NaN [x; y] dim) = shape_of (cat NaN [x'; y'] dim).
Proof.
  intros Hx Hy. unfold cat. cbn [forallb fold_right]. rewrite Hx, Hy.
  destruct (norm_dim _ dim) as [k |]; [| reflexivity].
  destruct (_ && _); reflexivity.
Qed.

Lemma cat_shape (x y : tensor fval) dim :
  shape_of (cat NaN [x; y] dim) = shape_of (cat NaN [blank (tshape x); y] dim).
Proof. now apply cat_shapes. Qed.

Lemma follows_ROMPv1_features self image :
  follows tr (@tshape fval) (ROMPv1_features params self image)
          (ROMPv1_features_shape tr self (tshape image)).
Proof.
  unfold ROMPv1_features, ROMPv1_features_shape.
  follows_step; [apply follows_HigherResolutionNet_forward |].
  follows_step; [apply follows_lift_id |].
  follows_step; [apply follows_lift_id |].
  rewrite <- cat_shape. apply follows_lift.
Qed.

Lemma follows_ROMPv1_heads self x :
  follows tr
          (fun r : tensor fval * tensor fval * tensor fval =>
             let '(pm, cm, cam) := r in (tshape pm, tshape cm, tshape cam))
          (ROMPv1_heads params self x)
          (ROMPv1_heads_shape exact tr self (tshape x)).
Proof.
  unfold ROMPv1_heads, ROMPv1_heads_shape.
  follows_step; [apply follows_lift_id |].
  follows_step; [apply follows_call_entry |].
  follows_step; [apply follows_lift_id |].
  follows_step; [apply follows_call_entry |].
  follows_step; [apply follows_lift_id |].
  follows_step; [apply follows_call_entry |].
  apply (@follows_ret _ _ tr
           (fun r : tensor fval * tensor fval * tensor fval =>
              let '(pm, cm, cam) := r in (tshape pm, tshape cm, tshape cam))
           (_, _, _)).
Qed.

(** So do the shapes that the last statements of [ROMPv1.forward]
    return. *)
Lemma ROMPv1_outputs_shape (pm cm cam : tensor fval) :
  option_map (fun r : tensor fval * tensor fval =>
                (tshape (fst r), tshape (snd r)))
             (ROMPv1_outputs pm cm cam)
  = match ROMPv1_outputs (blank (tshape pm)) (blank (tshape cm))
                         (blank (tshape cam)) with
    | Some (c, p) => Some (tshape c, tshape p)
    | None => None
    end.
Proof.
  destruct pm as [spm dpm], cm as [scm dcm], cam as [scam dcam].
  unfold ROMPv1_outputs, setitem1, select1, blank. cbn [tshape tmap].
  destruct scam as [| b [| c rest]]; try reflexivity.
  destruct (0 <? c); [| reflexivity]. cbn [tshape].
  destruct (broadcast_shapes (b :: rest) (b :: rest)); [| reflexivity].
  destruct (_ && _); [| reflexivity].
  match goal with
  | |- option_map _ (let? _ := cat NaN [?x; ?y] 1 in _)
       = match (let? _ := cat NaN [?x'; ?y'] 1 in _) with _ => _ end =>
      pose proof (@cat_shapes x y x' y' 1 eq_refl eq_refl) as H
  end.
  destruct (cat NaN [_; {| tshape := spm; tdata := dpm |}] 1),
    (cat NaN [_; _] 1); simpl in *; congruence.
Qed.


Lemma follows_ROMPv1_forward self image :
  follows tr
          (fun r : tensor fval * tensor fval =>
             (tshape (fst r), tshape (snd r)))
          (ROMPv1_forward params self image)
          (ROMPv1_forward_shape tr self (tshape image)).
Proof.
  unfold ROMPv1_forward, ROMPv1_forward_shape.
  follows_step; [apply follows_ROMPv1_features |].
  follows_step; [apply follows_ROMPv1_heads |].
  destruct a0 as [[pm cm] cam].
  rewrite <- ROMPv1_outputs_shape. apply follows_lift.
Qed.
End Follows.

(** The shapes that [ROMPv1.forward] returns. *)
Lemma ROMPv1_forward_shape_exact params self image st :
  output_shapes (ROMPv1_forward params self image st)
  = ROMPv1_forward_shape (training st) self (tshape image).
Proof.
  pose proof (@follows_ROMPv1_forward params (training st) self image st
                eq_refl) as H.
  destruct (ROMPv1_forward params self image st) as [[[c p] st'] |],
    (ROMPv1_forward_shape (training st) self (tshape image)) as [s |];
    try contradiction; [| reflexivity].
  destruct H as [<- _]. reflexivity.
Qed.

Lemma HigherResolutionNet_forward_shape_exact params path self image st :
  shape_of (option_map fst
              (HigherResolutionNet_forward params path self image st))
  = HigherResolutionNet_forward_shape (training st) self (tshape image).
Proof.
  pose proof (@follows_HigherResolutionNet_forward params (training st) path
                self image st eq_refl) as H.
  destruct (HigherResolutionNet_forward params path self image st)
    as [[y st'] |],
    (HigherResolutionNet_forward_shape (training st) self (tshape image))
    as [s |]; try contradiction; [| reflexivity].
  destruct H as [<- _]. reflexivity.
Qed.

(** ** Scaling the input of a computation on shapes *)

Lemma scales_to_bind {S T} (R : S -> S -> Prop) (R' : T -> T -> Prop)
    (o1 o2 : option S) (g1 g2 : S -> option T) :
  scales_to R o1 o2 ->
  (forall s1 s2, R s1 s2 -> scales_to R' (g1 s1) (g2 s2)) ->
  scales_to R' (let? s := o1 in g1 s) (let? s := o2 in g2 s).
Proof.
  intros Ho Hg. destruct o1 as [s1 |]; [| exact I].
  destruct Ho as (s2 & -> & HR). apply Hg. exact HR.
Qed.

Lemma scales_to_Some {S} (R : S -> S -> Prop) s1 s2 :
  R s1 s2 -> scales_to R (Some s1) (Some s2).
Proof. intros H. exists s2. auto. Qed.

Ltac scales_step := eapply scales_to_bind; [| intros ? ? ?].

(** Same scrutinee on both sides. *)
Ltac same_step :=
  match goal with
  | |- scales_to _ (match ?o with Some _ => _ | None => _ end)
                   (match ?o with Some _ => _ | None => _ end) =>
      destruct o; [| exact I]
  end.

Lemma div_stride s q : 1 <= s -> 1 <= q -> (s * q - 1) / s + 1 = q.
Proof.
  intros Hs Hq.
  assert (E : q - 1 = (s * q - 1) / s)
    by (apply Nat.div_unique with (r := s - 1); nia).
  rewrite <- E. lia.
Qed.

Lemma conv_out_scaled on n h k s p ho :
  conv_out h k s p = Some ho ->
  conv_dim_ok on h k s p = true ->
  1 <= n -> (on = false -> n = 1) ->
  conv_out (n * h) k s p = Some (n * ho).
Proof.
  intros Ho Hok Hn Hon. destruct on.
  - unfold conv_dim_ok in Hok. cbn [negb orb] in Hok.
    apply andb_prop in Hok. destruct Hok as [Hk Hm].
    apply Nat.eqb_eq in Hk, Hm.
    apply Nat.Div0.div_exact in Hm.
    unfold conv_out in *.
    destruct (Nat.leb_spec 1 k); [| discriminate].
    destruct (Nat.leb_spec 1 s); [| discriminate].
    destruct (Nat.leb_spec k (h + 2 * p)); [| discriminate].
    destruct (Nat.leb_spec k (n * h + 2 * p)); [| nia].
    cbn [andb] in *.
    set (q := h / s) in *.
    assert (Hq : 1 <= q) by (destruct q; [nia | lia]).
    assert (E1 : forall a, a = s * q - 1 -> a / s + 1 = q)
      by (intros a ->; now apply div_stride).
    assert (E2 : forall a, a = s * (n * q) - 1 -> a / s + 1 = n * q)
      by (intros a ->; apply div_stride; nia).
    rewrite (E1 (h + 2 * p - k)) in Ho by lia.
    rewrite (E2 (n * h + 2 * p - k)) by nia.
    congruence.
  - rewrite (Hon eq_refl), !Nat.mul_1_l. exact Ho.
Qed.

Lemma broadcast_rev_cons x y a b :
  broadcast_rev (x :: a) (y :: b)
  = let? r := broadcast_rev a b in
    let? z := bdim x y in Some (z :: r).
Proof.
  simpl. destruct (broadcast_rev a b); [| reflexivity].
  unfold bdim. destruct (x =? y); [reflexivity |].
  destruct (x =? 1); [reflexivity |]. destruct (y =? 1); reflexivity.
Qed.

Lemma broadcast_shapes_4 b1 c1 h1 w1 b2 c2 h2 w2 :
  broadcast_shapes [b1; c1; h1; w1] [b2; c2; h2; w2]
  = let? b := bdim b1 b2 in
    let? c := bdim c1 c2 in
    let? h := bdim h1 h2 in
    let? w := bdim w1 w2 in
    Some [b; c; h; w].
Proof.
  unfold broadcast_shapes. cbn [rev app].
  rewrite !broadcast_rev_cons. cbn [broadcast_rev].
  destruct (bdim b1 b2), (bdim c1 c2), (bdim h1 h2), (bdim w1 w2);
    reflexivity.
Qed.

Lemma bdim_scaled on n x y z :
  bdim x y = Some z -> dim_ok on x y = true ->
  1 <= n -> (on = false -> n = 1) ->
  bdim (n * x) (n * y) = Some (n * z).
Proof.
  intros Hz Hok Hn Hon. destruct on.
  - unfold dim_ok in Hok. simpl in Hok. apply Nat.eqb_eq in Hok. subst y.
    unfold bdim in *. rewrite Nat.eqb_refl in *. congruence.
  - rewrite (Hon eq_refl), !Nat.mul_1_l. exact Hz.
Qed.

Lemma bdim_same x : bdim x x = Some x.
Proof. unfold bdim. now rewrite Nat.eqb_refl. Qed.

Section Scaling.
Variable sc : scaling.
Variable tr : bool.
Variable f : factors.
Hypothesis Hf : scales sc f.

Lemma conv2d_shape_scaled cin cout k s p s1 s2 :
  scaled f s1 s2 ->
  scales_to (scaled f) (conv2d_shape sc cin cout k s p s1)
            (conv2d_shape exact cin cout k s p s2).
Proof.
  intros (b & c & h & w & -> & ->).
  destruct Hf as (Hb & Hh & Hw & Fb & Fh & Fw & _).
  unfold conv2d_shape. destruct (c =? cin); [| exact I].
  destruct (conv_out h k s p) as [ho |] eqn:Eh; [| exact I].
  destruct (conv_out w k s p) as [wo |] eqn:Ew; [| exact I].
  destruct (conv_dim_ok (sc_height sc) h k s p) eqn:Oh; [| exact I].
  destruct (conv_dim_ok (sc_width sc) w k s p) eqn:Ow; [| exact I].
  rewrite (@conv_out_scaled _ _ _ _ _ _ _ Eh Oh Hh Fh),
    (@conv_out_scaled _ _ _ _ _ _ _ Ew Ow Hw Fw).
  simpl. eexists. split; [reflexivity |].
  exists b, cout, ho, wo. auto.
Qed.

Lemma batch_norm_shape_scaled n s1 s2 :
  scaled f s1 s2 ->
  scales_to (scaled f) (batch_norm_shape sc tr n s1)
            (batch_norm_shape exact tr n s2).
Proof.
  intros (b & c & h & w & -> & ->).
  destruct Hf as (Hb & Hh & Hw & _ & _ & _ & Fbig).
  unfold batch_norm_shape. destruct (c =? n); [| exact I].
  destruct tr.
  - destruct (sc_big sc || negb (b * h * w =? 1)) eqn:E; [| exact I].
    simpl.
    destruct (Nat.eqb_spec (f_batch f * b * (f_height f * h)
                            * (f_width f * w)) 1) as [E1 | E1].
    + exfalso.
      apply Nat.eq_mul_1 in E1. destruct E1 as [E1 E3].
      apply Nat.eq_mul_1 in E1. destruct E1 as [E1 E2].
      apply Nat.eq_mul_1 in E1, E2, E3.
      destruct E1 as [Eb1 Eb2], E2 as [Eh1 Eh2], E3 as [Ew1 Ew2].
      apply orb_prop in E. destruct E as [E | E].
      * specialize (Fbig E). rewrite Eb1, Eh1, Ew1 in Fbig. simpl in Fbig. lia.
      * apply negb_true_iff, Nat.eqb_neq in E. subst b h w. now apply E.
    + simpl. eexists. split; [reflexivity |]. exists b, c, h, w. auto.
  - eexists. split; [reflexivity |]. exists b, c, h, w. auto.
Qed.

Lemma upsample_shape_scaled k s1 s2 :
  scaled f s1 s2 ->
  scales_to (scaled f) (upsample_shape k s1) (upsample_shape k s2).
Proof.
  intros (b & c & h & w & -> & ->).
  destruct Hf as (Hb & Hh & Hw & _).
  unfold upsample_shape. cbn [length forallb map Nat.leb andb].
  destruct (Nat.ltb_spec 0 h); [| exact I].
  destruct (Nat.ltb_spec 0 (h * k)); [| exact I].
  destruct (Nat.ltb_spec 0 w); [| exact I].
  destruct (Nat.ltb_spec 0 (w * k)); [| exact I].
  cbn [andb].
  destruct (Nat.ltb_spec 0 (f_height f * h)); [| nia].
  destruct (Nat.ltb_spec 0 (f_height f * h * k)); [| nia].
  destruct (Nat.ltb_spec 0 (f_width f * w)); [| nia].
  destruct (Nat.ltb_spec 0 (f_width f * w * k)); [| nia].
  cbn [andb]. eexists. split; [reflexivity |].
  exists b, c, (h * k), (w * k). split; [reflexivity |].
  now rewrite !Nat.mul_assoc.
Qed.

Lemma broadcast_scaled s1 s2 t1 t2 r1 :
  scaled f s1 s2 -> scaled f t1 t2 ->
  add_ok sc s1 t1 = true ->
  broadcast_shapes s1 t1 = Some r1 ->
  exists r2, broadcast_shapes s2 t2 = Some r2 /\ scaled f r1 r2.
Proof.
  intros (b1 & c1 & h1 & w1 & -> & ->) (b2 & c2 & h2 & w2 & -> & ->) Hok E.
  destruct Hf as (Hb & Hh & Hw & Fb & Fh & Fw & _).
  unfold add_ok in Hok.
  apply andb_prop in Hok. destruct Hok as [Hok Ow].
  apply andb_prop in Hok. destruct Hok as [Ob Oh].
  rewrite broadcast_shapes_4 in *.
  destruct (bdim b1 b2) as [b |] eqn:Eb; [| discriminate].
  destruct (bdim c1 c2) as [c |] eqn:Ec; [| discriminate].
  destruct (bdim h1 h2) as [h |] eqn:Eh; [| discriminate].
  destruct (bdim w1 w2) as [w |] eqn:Ew; [| discriminate].
  inversion E; subst r1.
  rewrite (@bdim_scaled _ _ _ _ _ Eb Ob Hb Fb),
    (@bdim_scaled _ _ _ _ _ Eh Oh Hh Fh),
    (@bdim_scaled _ _ _ _ _ Ew Ow Hw Fw).
  eexists. split; [reflexivity |]. exists b, c, h, w. auto.
Qed.

Lemma scaled_fun s1 s2 s2' : scaled f s1 s2 -> scaled f s1 s2' -> s2 = s2'.
Proof.
  intros (b & c & h & w & -> & ->) (b' & c' & h' & w' & E & ->).
  inversion E. reflexivity.
Qed.

Lemma tensor_add_shape_scaled s1 s2 t1 t2 :
  scaled f s1 s2 -> scaled f t1 t2 ->
  scales_to (scaled f) (tensor_add_shape sc s1 t1)
            (tensor_add_shape exact s2 t2).
Proof.
  intros Hs Ht. unfold tensor_add_shape. rewrite add_ok_exact.
  destruct (add_ok sc s1 t1) eqn:Ok; [| exact I].
  destruct (broadcast_shapes s1 t1) as [r1 |] eqn:E; [| exact I].
  exact (@broadcast_scaled _ _ _ _ _ Hs Ht Ok E).
Qed.

Lemma tensor_iadd_shape_scaled s1 s2 t1 t2 :
  scaled f s1 s2 -> scaled f t1 t2 ->
  scales_to (scaled f) (tensor_iadd_shape sc s1 t1)
            (tensor_iadd_shape exact s2 t2).
Proof.
  intros Hs Ht. unfold tensor_iadd_shape. rewrite add_ok_exact.
  destruct (add_ok sc s1 t1) eqn:Ok; [| exact I].
  destruct (broadcast_shapes s1 t1) as [r1 |] eqn:E; [| exact I].
  destruct (forallb _ _ && _) eqn:Ec; [| exact I].
  apply andb_prop in Ec. destruct Ec as [Ec El].
  apply Nat.eqb_eq in El. apply forallb_eqb_combine in Ec; [| exact El].
  subst r1.
  destruct (@broadcast_scaled _ _ _ _ _ Hs Ht Ok E) as (r2 & E2 & Hr).
  rewrite E2. rewrite (@scaled_fun _ _ _ Hr Hs).
  rewrite forallb_eqb_refl, Nat.eqb_refl. simpl.
  exists s2. auto.
Qed.

Lemma call_seq_shape_scaled l :
  Forall (fun m => forall s1 s2,
            scaled f s1 s2 ->
            scales_to (scaled f) (call_shape sc tr m s1)
                      (call_shape exact tr m s2)) l ->
  forall s1 s2,
    scaled f s1 s2 ->
    scales_to (scaled f) (call_seq_shape sc tr l s1)
              (call_seq_shape exact tr l s2).
Proof.
  induction 1 as [| m l Hm _ IH]; intros s1 s2 Hs; simpl.
  - now apply scales_to_Some.
  - scales_step; [apply Hm; exact Hs | apply IH; assumption].
Qed.

Lemma call_shape_scaled m :
  forall s1 s2,
    scaled f s1 s2 ->
    scales_to (scaled f) (call_shape sc tr m s1) (call_shape exact tr m s2).
Proof.
  induction m using module_tree_ind; intros s1 s2 Hs.
  - now apply conv2d_shape_scaled.
  - now apply batch_norm_shape_scaled.
  - now apply scales_to_Some.
  - now apply upsample_shape_scaled.
  - change (scales_to (scaled f) (call_seq_shape sc tr l s1)
                      (call_seq_shape exact tr l s2)).
    now apply call_seq_shape_scaled.
  - simpl.
    scales_step; [apply IHm1; exact Hs |].
    scales_step; [apply IHm2; eassumption |].
    scales_step; [apply IHm3; eassumption |].
    scales_step; [apply IHm4; eassumption |].
    scales_step; [apply IHm5; eassumption |].
    scales_step.
    { destruct d; [apply (H _ eq_refl); exact Hs | now apply scales_to_Some]. }
    scales_step; [apply tensor_iadd_shape_scaled; eassumption |].
    apply IHm3; eassumption.
  - simpl.
    scales_step; [apply IHm1; exact Hs |].
    scales_step; [apply IHm2; eassumption |].
    scales_step; [apply IHm7; eassumption |].
    scales_step; [apply IHm3; eassumption |].
    scales_step; [apply IHm4; eassumption |].
    scales_step; [apply IHm7; eassumption |].
    scales_step; [apply IHm5; eassumption |].
    scales_step; [apply IHm6; eassumption |].
    scales_step.
    { destruct d; [apply (H _ eq_refl); exact Hs | now apply scales_to_Some]. }
    scales_step; [apply tensor_iadd_shape_scaled; eassumption |].
    apply IHm7; eassumption.
Qed.

Lemma call_entry_shape_scaled e s1 s2 :
  scaled f s1 s2 ->
  scales_to (scaled f) (call_entry_shape sc tr e s1)
            (call_entry_shape exact tr e s2).
Proof.
  intros Hs. destruct e; simpl; [now apply call_shape_scaled | exact I].
Qed.

Lemma nth_error_scaled x1 x2 i :
  Forall2 (scaled f) x1 x2 ->
  scales_to (scaled f) (nth_error x1 i) (nth_error x2 i).
Proof.
  intros H. revert i. induction H as [| a b l1 l2 Hab _ IH]; intros [| i];
    simpl; try exact I.
  - now apply scales_to_Some.
  - apply IH.
Qed.

Lemma list_set_scaled x1 x2 i y1 y2 :
  Forall2 (scaled f) x1 x2 -> scaled f y1 y2 ->
  Forall2 (scaled f) (list_set x1 i y1) (list_set x2 i y2).
Proof.
  intros H Hy. revert i. induction H as [| a b l1 l2 Hab Hl IH]; intros [| i];
    simpl; constructor; auto.
Qed.

Lemma run_branches_shape_scaled bs :
  forall count x1 x2 i,
    Forall2 (scaled f) x1 x2 ->
    scales_to (Forall2 (scaled f))
              (run_branches_shape sc tr bs x1 i count)
              (run_branches_shape exact tr bs x2 i count).
Proof.
  induction count as [| count IH]; intros x1 x2 i Hx; simpl.
  - now apply scales_to_Some.
  - same_step.
    scales_step; [apply nth_error_scaled; exact Hx |].
    scales_step; [apply call_shape_scaled; eassumption |].
    apply IH. now apply list_set_scaled.
Qed.

Lemma fuse_sum_shape_scaled fl x1 x2 i :
  Forall2 (scaled f) x1 x2 ->
  forall count y1 y2 j,
    scaled f y1 y2 ->
    scales_to (scaled f) (fuse_sum_shape sc tr fl x1 i y1 j count)
              (fuse_sum_shape exact tr fl x2 i y2 j count).
Proof.
  intros Hx. induction count as [| count IH]; intros y1 y2 j Hy; simpl.
  - now apply scales_to_Some.
  - scales_step.
    { destruct (i =? j).
      - scales_step; [apply nth_error_scaled; exact Hx |].
        now apply tensor_add_shape_scaled.
      - same_step. same_step.
        scales_step; [apply nth_error_scaled; exact Hx |].
        scales_step; [apply call_entry_shape_scaled; eassumption |].
        now apply tensor_add_shape_scaled. }
    apply IH; assumption.
Qed.

Lemma fuse_outputs_shape_scaled B fl r x1 x2 :
  Forall2 (scaled f) x1 x2 ->
  forall count i,
    scales_to (Forall2 (scaled f))
              (fuse_outputs_shape sc tr B fl r x1 i count)
              (fuse_outputs_shape exact tr B fl r x2 i count).
Proof.
  intros Hx. induction count as [| count IH]; intros i;
    cbn [fuse_outputs_shape].
  - apply scales_to_Some. constructor.
  - scales_step.
    { destruct (i =? 0).
      - apply nth_error_scaled; exact Hx.
      - same_step. same_step.
        scales_step; [apply nth_error_scaled; exact Hx |].
        now apply call_entry_shape_scaled. }
    scales_step; [apply fuse_sum_shape_scaled; eassumption |].
    scales_step; [apply call_shape_scaled; eassumption |].
    scales_step; [apply IH |].
    apply scales_to_Some. constructor; assumption.
Qed.

Lemma HighResolutionModule_forward_shape_scaled self x1 x2 :
  Forall2 (scaled f) x1 x2 ->
  scales_to (Forall2 (scaled f))
            (HighResolutionModule_forward_shape sc tr self x1)
            (HighResolutionModule_forward_shape exact tr self x2).
Proof.
  intros Hx. unfold HighResolutionModule_forward_shape.
  destruct (num_branches self =? 1).
  - same_step.
    scales_step; [apply nth_error_scaled; exact Hx |].
    scales_step; [apply call_shape_scaled; eassumption |].
    apply scales_to_Some. repeat constructor. assumption.
  - scales_step; [apply run_branches_shape_scaled; exact Hx |].
    same_step. now apply fuse_outputs_shape_scaled.
Qed.

Lemma stage_forward_shape_scaled ms :
  forall x1 x2,
    Forall2 (scaled f) x1 x2 ->
    scales_to (Forall2 (scaled f)) (stage_forward_shape sc tr ms x1)
              (stage_forward_shape exact tr ms x2).
Proof.
  induction ms as [| m ms IH]; intros x1 x2 Hx; simpl.
  - now apply scales_to_Some.
  - scales_step; [apply HighResolutionModule_forward_shape_scaled; exact Hx |].
    now apply IH.
Qed.

Lemma transition_forward_shape_scaled transition input1 input2 pass1 pass2 :
  scales_to (scaled f) input1 input2 ->
  (forall k, scales_to (scaled f) (pass1 k) (pass2 k)) ->
  forall count i,
    scales_to (Forall2 (scaled f))
              (transition_forward_shape sc tr transition input1 pass1 i count)
              (transition_forward_shape exact tr transition input2 pass2 i
                 count).
Proof.
  intros Hin Hpass. induction count as [| count IH]; intros i; simpl.
  - apply scales_to_Some. constructor.
  - same_step.
    scales_step.
    { destruct o as [layer |]; [| apply Hpass].
      scales_step; [exact Hin |]. now apply call_shape_scaled. }
    scales_step; [apply IH |].
    apply scales_to_Some. constructor; assumption.
Qed.

Lemma last_error_scaled x1 x2 :
  Forall2 (scaled f) x1 x2 ->
  scales_to (scaled f) (last_error x1) (last_error x2).
Proof.
  intros H. unfold last_error. rewrite (Forall2_length H).
  now apply nth_error_scaled.
Qed.

Lemma HigherResolutionNet_layers_shape_scaled self s1 s2 :
  scaled f s1 s2 ->
  scales_to (scaled f) (HigherResolutionNet_layers_shape sc tr self s1)
            (HigherResolutionNet_layers_shape exact tr self s2).
Proof.
  intros Hs. unfold HigherResolutionNet_layers_shape.
  scales_step; [apply call_shape_scaled; exact Hs |].
  do 6 (scales_step; [apply call_shape_scaled; eassumption |]).
  scales_step.
  { apply transition_forward_shape_scaled.
    - apply scales_to_Some; eassumption.
    - intros _. apply scales_to_Some; eassumption. }
  scales_step; [apply stage_forward_shape_scaled; eassumption |].
  scales_step.
  { apply transition_forward_shape_scaled.
    - apply last_error_scaled; eassumption.
    - intros k. apply nth_error_scaled; eassumption. }
  scales_step; [apply stage_forward_shape_scaled; eassumption |].
  scales_step.
  { apply transition_forward_shape_scaled.
    - apply last_error_scaled; eassumption.
    - intros k. apply nth_error_scaled; eassumption. }
  scales_step; [apply stage_forward_shape_scaled; eassumption |].
  apply nth_error_scaled; eassumption.
Qed.
End Scaling.

(** ** The backbone on images of any batch size, height and width *)

Lemma normalise_image_4d (x : tensor fval) b h w c :
  tshape x = [b; h; w; c] ->
  exists t, normalise_image x = Some t /\ tshape t = [b; c; h; w].
Proof.
  intros Hx.
  unfold normalise_image, BHWC_to_BCHW, unsqueeze, transpose, squeeze.
  rewrite Hx. simpl. eexists. split; reflexivity.
Qed.

(** The computation on shapes of the backbone on one 32 x 32 image: every
    convolution of stride 2 sees an even size and the operands of every
    addition have the same shape, so that the result scales. *)
Lemma make_baseline_shape_32 tr :
  match make_baseline with
  | Some self =>
      HigherResolutionNet_layers_shape (mkScaling true true true tr) tr self
        [1; 3; 32; 32]
      = Some [1; 32; 8; 8]
  | None => False
  end.
Proof. destruct tr; vm_compute; reflexivity. Qed.

(** In training mode the backbone raises on one 32 x 32 image: the
    normalisation of the lowest-resolution branch gets one value per
    channel. *)
Lemma make_baseline_shape_32_training :
  match make_baseline with
  | Some self =>
      HigherResolutionNet_forward_shape true self [1; 32; 32; 3] = None
  | None => False
  end.
Proof. vm_compute. reflexivity. Qed.

Lemma HigherResolutionNet_forward_scaled params path self image st b n m :
  make_baseline = Some self ->
  tshape image = [b; 32 * n; 32 * m; 3] ->
  1 <= b -> 1 <= n -> 1 <= m ->
  (training st = true -> 2 <= b * n * m) ->
  exists y st',
    HigherResolutionNet_forward params path self image st = Some (y, st')
    /\ tshape y = [b; 32; 8 * n; 8 * m]
    /\ training st' = training st.
Proof.
  intros Hself Hx Hb Hn Hm Hbig.
  pose proof (make_baseline_shape_32 (training st)) as Hbase.
  rewrite Hself in Hbase.
  assert (Hf : scales (mkScaling true true true (training st))
                      (mkFactors b n m)).
  { unfold scales. simpl. repeat split; auto; discriminate. }
  pose proof (@HigherResolutionNet_layers_shape_scaled _ (training st) _ Hf
                self [1; 3; 32; 32] [b; 3; 32 * n; 32 * m]) as Hs.
  rewrite Hbase in Hs. destruct Hs as (s2 & Es & Hs2).
  { exists 1, 3, 32, 32. simpl f_batch. simpl f_height. simpl f_width.
    split; [reflexivity |].
    now rewrite Nat.mul_1_r, (Nat.mul_comm n), (Nat.mul_comm m). }
  destruct Hs2 as (b' & c' & h' & w' & E1 & ->).
  inversion E1; subst b' c' h' w'. clear E1.
  simpl f_batch in Es. simpl f_height in Es. simpl f_width in Es.
  destruct (normalise_image_4d _ Hx) as (t & Et & Ht).
  unfold HigherResolutionNet_forward. rewrite Et.
  change (bind (lift (Some t)) ?k st) with (k t st).
  pose proof (@follows_HigherResolutionNet_layers params (training st) path
                self t st eq_refl) as Hfol.
  cbv beta in Hfol. rewrite Ht, Es in Hfol.
  match type of Hfol with
  | match ?c with _ => _ end => destruct c as [[y st'] |]; [| contradiction]
  end.
  destruct Hfol as [Hy Hst]. exists y, st'.
  split; [reflexivity |]. split; [| exact Hst].
  rewrite Hy, Nat.mul_1_r, (Nat.mul_comm n), (Nat.mul_comm m). reflexivity.
Qed.

(** ** The model on batches of images *)

(** The backbone on one image of each accepted size. *)
Lemma make_baseline_shape_512 tr h w :
  In h [509; 510; 511; 512] -> In w [509; 510; 511; 512] ->
  match make_baseline with
  | Some self =>
      HigherResolutionNet_layers_shape (mkScaling true false false false) tr
        self [1; 3; h; w]
      = Some [1; 32; 128; 128]
  | None => False
  end.
Proof.
  simpl. intros Hh Hw.
  repeat (destruct Hh as [<- | Hh]); try contradiction;
    repeat (destruct Hw as [<- | Hw]); try contradiction;
    destruct tr; vm_compute; reflexivity.
Qed.

(** The heads on the features of one image. *)
Lemma ROMPv1_heads_shape_128 tr :
  match ROMPv1_init with
  | Some self =>
      ROMPv1_heads_shape (mkScaling true false false false) tr self
        [1; 34; 128; 128]
      = Some ([1; 142; 64; 64], [1; 1; 64; 64], [1; 3; 64; 64])
  | None => False
  end.
Proof. destruct tr; vm_compute; reflexivity. Qed.

Lemma ROMPv1_heads_shape_scaled sc tr f self s1 s2 :
  scales sc f -> scaled f s1 s2 ->
  scales_to (fun r1 r2 : shape * shape * shape =>
               scaled f (fst (fst r1)) (fst (fst r2))
               /\ scaled f (snd (fst r1)) (snd (fst r2))
               /\ scaled f (snd r1) (snd r2))
            (ROMPv1_heads_shape sc tr self s1)
            (ROMPv1_heads_shape exact tr self s2).
Proof.
  intros Hf Hs. unfold ROMPv1_heads_shape.
  same_step.
  scales_step; [apply call_entry_shape_scaled; eassumption |].
  same_step.
  scales_step; [apply call_entry_shape_scaled; eassumption |].
  same_step.
  scales_step; [apply call_entry_shape_scaled; eassumption |].
  apply scales_to_Some. simpl. auto.
Qed.

(** The shape of a concatenation along dimension 1. *)
Lemma cat_dim1_shape {A} (d : A) (x y : tensor A) b cx cy rest :
  tshape x = b :: cx :: rest -> tshape y = b :: cy :: rest ->
  shape_of (cat d [x; y] 1) = Some (b :: (cx + cy) :: rest).
Proof.
  intros Ex Ey. unfold cat. rewrite Ex.
  change 1%Z with (Z.of_nat 1). rewrite norm_dim_nat by (simpl; lia).
  cbn [forallb remove_at firstn skipn app length nth fold_right].
  rewrite Ex, Ey.
  cbn [forallb remove_at firstn skipn app length nth fold_right].
  rewrite !Nat.eqb_refl, !forallb_eqb_refl. cbn [andb shape_of tshape].
  unfold replace_at. cbn. now rewrite Nat.add_0_r.
Qed.

Lemma ROMPv1_outputs_shapes (pm cm cam : tensor fval) b cp cc rest :
  tshape pm = b :: cp :: rest -> tshape cam = b :: S cc :: rest ->
  exists c p,
    ROMPv1_outputs pm cm cam = Some (c, p)
    /\ tshape c = tshape cm
    /\ tshape p = b :: (S cc + cp) :: rest.
Proof.
  intros Epm Ecam. unfold ROMPv1_outputs, setitem1, select1.
  rewrite Ecam. cbn [Nat.ltb Nat.leb tshape tmap].
  rewrite broadcast_shapes_same, forallb_eqb_refl, Nat.eqb_refl. cbn [andb].
  match goal with
  | |- context [cat NaN [?x; pm] 1] =>
      pose proof (@cat_dim1_shape _ NaN x pm b (S cc) cp rest eq_refl Epm)
        as Hcat;
      destruct (cat NaN [x; pm] 1) as [p |]; [| discriminate]
  end.
  exists cm, p. split; [reflexivity |]. split; [reflexivity |].
  simpl in Hcat. now inversion Hcat.
Qed.

(** X19: the model accepts a batch of any size of images whose height
    and width lie between 509 and 512, in either mode, and returns a
    centre map of one channel and a parameter map of 3 + 142 channels,
    both of 64 x 64 entries for every image. *)
Theorem X19_forward_any_batch params self image st b h w :
  ROMPv1_init = Some self ->
  tshape image = [b; h; w; 3] ->
  1 <= b -> 509 <= h <= 512 -> 509 <= w <= 512 ->
  output_shapes (ROMPv1_forward params self image st)
  = Some ([b; 1; 64; 64], [b; 3 + (22 * 6 + 10); 64; 64]).
Proof.
  intros Hinit Hx Hb Hh Hw.
  rewrite ROMPv1_forward_shape_exact, Hx.
  set (tr := training st).
  assert (Hf : scales (mkScaling true false false false) (mkFactors b 1 1)).
  { unfold scales. simpl. repeat split; auto; discriminate. }
  (* the backbone *)
  pose proof (@make_baseline_shape_512 tr h w) as Hbase.
  rewrite (ROMPv1_init_backbone Hinit) in Hbase.
  pose proof (@HigherResolutionNet_layers_shape_scaled _ tr _ Hf
                (backbone self) [1; 3; h; w] [b; 3; h; w]) as Hs.
  rewrite Hbase in Hs by (simpl; lia).
  destruct Hs as (s2 & Es & Hs2).
  { exists 1, 3, h, w. simpl. split; [reflexivity |].
    now rewrite Nat.mul_1_r, !Nat.add_0_r. }
  destruct Hs2 as (b' & c' & h' & w' & E1 & ->).
  inversion E1; subst b' c' h' w'. clear E1.
  simpl in Es. rewrite Nat.mul_1_r in Es.
  (* the coordinate maps *)
  destruct (get_coord_maps_shape 128) as (t & Et & Hshape).
  rewrite (ROMPv1_init_coordmaps Hinit) in Et. inversion Et; subst t.
  destruct (@repeat_tensor_batch _ (coordmaps self) b 2 128 128 Hshape)
    as (coords & Ec & Hc & _).
  (* the heads *)
  pose proof (ROMPv1_heads_shape_128 tr) as Hheads. rewrite Hinit in Hheads.
  pose proof (@ROMPv1_heads_shape_scaled _ tr _ self [1; 34; 128; 128]
                [b; 34; 128; 128] Hf) as Hh2.
  rewrite Hheads in Hh2. destruct Hh2 as ([[pm cm] cam] & Eh & H1 & H2 & H3).
  { exists 1, 34, 128, 128. simpl. split; [reflexivity |].
    now rewrite Nat.mul_1_r. }
  simpl in H1, H2, H3.
  destruct H1 as (? & ? & ? & ? & E1 & ->). inversion E1; subst. clear E1.
  destruct H2 as (? & ? & ? & ? & E1 & ->). inversion E1; subst. clear E1.
  destruct H3 as (? & ? & ? & ? & E1 & ->). inversion E1; subst. clear E1.
  simpl in Eh. rewrite Nat.mul_1_r in Eh.
  (* the whole *)
  unfold ROMPv1_forward_shape, ROMPv1_features_shape,
    HigherResolutionNet_forward_shape.
  destruct (@normalise_image_4d (blank [b; h; w; 3]) b h w 3 eq_refl)
    as (t0 & Et0 & Ht0).
  rewrite Et0. cbn [shape_of]. rewrite Ht0, Es. cbn [nth_error].
  rewrite Ec.
  rewrite (@cat_dim1_shape _ NaN (blank [b; 32; 128; 128]) coords b 32 2
             [128; 128] eq_refl Hc).
  cbn [Nat.add]. rewrite Eh.
  destruct (@ROMPv1_outputs_shapes (blank [b; 142; 64; 64])
              (blank [b; 1; 64; 64]) (blank [b; 3; 64; 64]) b 142 2 [64; 64]
              eq_refl eq_refl) as (c & p & Eo & Hc' & Hp).
  rewrite Eo, Hc', Hp. reflexivity.
Qed.

(** One image just outside the accepted sizes: the backbone already
    raises. *)
Lemma HigherResolutionNet_forward_shape_outside tr :
  match make_baseline with
  | Some self =>
      HigherResolutionNet_forward_shape tr self [1; 508; 508; 3] = None
      /\ HigherResolutionNet_forward_shape tr self [1; 513; 513; 3] = None
  | None => False
  end.
Proof. destruct tr; vm_compute; split; reflexivity. Qed.

Lemma ROMPv1_forward_shape_outside tr :
  match ROMPv1_init with
  | Some self =>
      ROMPv1_forward_shape tr self [1; 508; 508; 3] = None
      /\ ROMPv1_forward_shape tr self [1; 513; 513; 3] = None
  | None => False
  end.
Proof. destruct tr; vm_compute; split; reflexivity. Qed.

(** * [BHWC_to_BCHW] on tensors of any rank *)

Lemma norm_dim_last rank : 1 <= rank -> norm_dim rank (-1) = Some (rank - 1).
Proof.
  intros H. unfold norm_dim.
  destruct (Z.leb_spec 0 (-1)); [lia |]. cbn [andb].
  destruct (Z.leb_spec (- Z.of_nat rank) (-1)); [| lia].
  destruct (Z.ltb_spec (-1) 0); [| lia]. cbn [andb].
  f_equal. lia.
Qed.

Lemma nth_seq_map {B} (g : nat -> B) d len n :
  n < len -> nth n (map g (seq 0 len)) d = g n.
Proof.
  intros H. rewrite (nth_indep _ d (g 0)) by (now rewrite length_map, length_seq).
  rewrite (map_nth g (seq 0 len) 0 n), seq_nth by assumption. reflexivity.
Qed.

Lemma nth_last_app (mid : list nat) v k :
  k = length mid -> nth k (mid ++ [v]) 0 = v.
Proof. intros ->. rewrite app_nth2, Nat.sub_diag by lia. reflexivity. Qed.

(** Swapping positions 1 and last. *)
Lemma swap_at_1_last a u mid v :
  swap_at 1 (S (S (length mid))) (a :: u :: mid ++ [v])
  = a :: v :: mid ++ [u].
Proof.
  unfold swap_at. apply nth_ext with (d := 0) (d' := 0).
  - rewrite length_map, length_seq. simpl. now rewrite !length_app.
  - intros n Hn. rewrite length_map, length_seq in Hn.
    rewrite nth_seq_map by assumption.
    simpl in Hn. rewrite length_app in Hn. simpl in Hn.
    destruct n as [| [| n]].
    + reflexivity.
    + cbn [Nat.eqb nth]. now apply nth_last_app.
    + cbn [Nat.eqb].
      destruct (Nat.eqb_spec n (length mid)) as [E | E].
      * cbn [nth]. symmetry. now apply nth_last_app.
      * cbn [nth]. rewrite !app_nth1 by lia. reflexivity.
Qed.

Lemma swap_at_same i (l : list nat) : swap_at i i l = l.
Proof.
  unfold swap_at. apply nth_ext with (d := 0) (d' := 0).
  - now rewrite length_map, length_seq.
  - intros n Hn. rewrite length_map, length_seq in Hn.
    rewrite nth_seq_map by assumption.
    destruct (Nat.eqb_spec n i); [subst; reflexivity | reflexivity].
Qed.

Lemma remove_at_cons {B} k (a : B) l :
  remove_at (S k) (a :: l) = a :: remove_at k l.
Proof. reflexivity. Qed.

Lemma remove_at_last {B} (l : list B) v : remove_at (length l) (l ++ [v]) = l.
Proof.
  induction l as [| a l IH]; [reflexivity |].
  cbn [length app]. now rewrite remove_at_cons, IH.
Qed.

Lemma insert_at_cons {B} k (x a : B) l :
  insert_at (S k) x (a :: l) = a :: insert_at k x l.
Proof. reflexivity. Qed.

Lemma insert_at_last {B} (l : list B) x : insert_at (length l) x l = l ++ [x].
Proof.
  induction l as [| a l IH]; [reflexivity |].
  cbn [length app]. now rewrite insert_at_cons, IH.
Qed.

Lemma BHWC_to_BCHW_rank0 {A} (x : tensor A) :
  tshape x = [] -> BHWC_to_BCHW x = None.
Proof. intros H. unfold BHWC_to_BCHW, unsqueeze. rewrite H. reflexivity. Qed.

Lemma BHWC_to_BCHW_rank1 {A} (x : tensor A) n :
  tshape x = [n] ->
  exists t,
    BHWC_to_BCHW x = Some t
    /\ tshape t = [n]
    /\ forall i, tdata t [i] = tdata x [i].
Proof.
  intros H. unfold BHWC_to_BCHW, unsqueeze, transpose, squeeze.
  rewrite H. simpl. eexists. split; [reflexivity |].
  split; reflexivity.
Qed.

Lemma BHWC_to_BCHW_rank2 {A} (x : tensor A) b mid c :
  tshape x = b :: mid ++ [c] ->
  exists t,
    BHWC_to_BCHW x = Some t
    /\ tshape t = b :: c :: mid
    /\ forall bi ci idx,
         length idx = length mid ->
         tdata t (bi :: ci :: idx) = tdata x (bi :: idx ++ [ci]).
Proof.
  intros H. unfold BHWC_to_BCHW, unsqueeze, transpose, squeeze.
  rewrite H. cbn [length]. rewrite length_app. cbn [length].
  change 1%Z with (Z.of_nat 1). rewrite norm_dim_nat by lia.
  cbn [tshape insert_at firstn skipn app length].
  rewrite length_app. cbn [length].
  rewrite norm_dim_nat by lia. rewrite norm_dim_last by lia.
  cbn [tshape].
  replace (S (S (length mid + 1)) - 1) with (S (S (length mid))) by lia.
  rewrite swap_at_1_last.
  cbn [length]. rewrite length_app. cbn [length].
  rewrite norm_dim_last by lia.
  replace (S (S (length mid + 1)) - 1) with (S (S (length mid))) by lia.
  cbn [nth]. rewrite nth_last_app by reflexivity. cbn [Nat.eqb].
  eexists. split; [reflexivity |]. split.
  - cbn [tshape]. now rewrite !remove_at_cons, remove_at_last.
  - intros bi ci idx Hlen. cbn [tdata].
    rewrite <- Hlen, !insert_at_cons, insert_at_last, swap_at_1_last.
    reflexivity.
Qed.

(** ** The input that the backbone accepts *)

Lemma make_baseline_conv1 :
  match make_baseline with
  | Some self => conv1 self = Conv2d 3 64 3 2 1 false
  | None => False
  end.
Proof. vm_compute. reflexivity. Qed.

Lemma conv_out_3_2_1 n r : conv_out n 3 2 1 = Some r -> 1 <= n.
Proof.
  unfold conv_out.
  destruct (Nat.leb_spec 3 (n + 2 * 1)) as [H | H]; [intros _; lia |].
  rewrite Bool.andb_false_r. discriminate.
Qed.

(** X12: [HigherResolutionNet.forward] returns only for a 4-dimensional
    input whose last dimension is 3, the channels of the first
    convolution, and whose height and width are at least 1. *)
Theorem X12_backbone_input_contract params path self image st r :
  make_baseline = Some self ->
  HigherResolutionNet_forward params path self image st = Some r ->
  exists b h w, tshape image = [b; h; w; 3] /\ 1 <= h /\ 1 <= w.
Proof.
  intros Hself E. destruct r as [y st'].
  pose proof make_baseline_conv1 as Hc. rewrite Hself in Hc.
  unfold HigherResolutionNet_forward in E.
  apply bind_Some in E. destruct E as (t & st1 & En & E).
  apply lift_Some in En. destruct En as [En _].
  apply bind_Some in E. destruct E as (y1 & st2 & Ec & _).
  rewrite Hc in Ec. simpl in Ec.
  apply lift_Some in Ec. destruct Ec as [Ec _].
  unfold conv2d in Ec.
  destruct (tshape t) as [| b [| c [| h [| w [| ? ?]]]]] eqn:Et;
    try discriminate.
  destruct (Nat.eqb_spec c 3) as [-> |]; [| discriminate].
  destruct (conv_out h 3 2 1) as [ho |] eqn:Eh; [| discriminate].
  destruct (conv_out w 3 2 1) as [wo |] eqn:Ew; [| discriminate].
  apply conv_out_3_2_1 in Eh, Ew.
  unfold normalise_image in En.
  destruct (BHWC_to_BCHW image) as [t0 |] eqn:E0; [| discriminate].
  inversion En; subst t. cbn [tshape sub_scalar mul_scalar div_scalar tmap]
    in Et. clear En.
  destruct (tshape image) as [| b0 rest] eqn:Ei.
  - rewrite (@BHWC_to_BCHW_rank0 _ image Ei) in E0. discriminate.
  - destruct rest as [| h0 rest].
    + destruct (@BHWC_to_BCHW_rank1 _ image _ Ei) as (t1 & E1 & S1 & _).
      rewrite E1 in E0. inversion E0; subst t1. rewrite S1 in Et.
      discriminate.
    + destruct (@exists_last _ (h0 :: rest) ltac:(discriminate))
        as (mid & c & Em).
      rewrite Em in Ei.
      destruct (@BHWC_to_BCHW_rank2 _ image _ _ _ Ei) as (t1 & E1 & S1 & _).
      rewrite E1 in E0. inversion E0; subst t1. rewrite S1 in Et.
      inversion Et; subst. rewrite Em. exists b, h, w. auto.
Qed.

(** * Further properties of the coordinate map *)

(** X25: whatever the size, the second channel of the coordinate map is
    the first one transposed. *)
Theorem X25_coord_maps_transposed N r c :
  exists t,
    get_coord_maps N = Some t
    /\ tdata t [0; 1; r; c] = tdata t [0; 0; c; r].
Proof.
  run_get_coord_maps. eexists. split; [reflexivity |]. simpl.
  rewrite !zsum_1.
  replace (Z.of_nat r * 1 + 0)%Z with (1 * Z.of_nat r + 0)%Z by lia.
  reflexivity.
Qed.

Lemma coord_increasing (c c' N : nat) :
  2 <= N -> c < c' ->
  (INR c / (INR N - 1) * 2 - 1 < INR c' / (INR N - 1) * 2 - 1)%R.
Proof.
  intros HN Hc.
  assert (H1 : (0 < INR N - 1)%R).
  { replace 1%R with (INR 1) by reflexivity. rewrite <- minus_INR by lia.
    apply lt_0_INR. lia. }
  assert (H2 : (INR c < INR c')%R) by (apply lt_INR; exact Hc).
  assert (H3 : (INR c / (INR N - 1) < INR c' / (INR N - 1))%R).
  { unfold Rdiv. apply Rmult_lt_compat_r; [| exact H2].
    now apply Rinv_0_lt_compat. }
  lra.
Qed.


(** * In evaluation mode every image of a batch is processed on its own *)

Lemma agree_ret {A} (R : A -> A -> Prop) a1 a2 :
  R a1 a2 -> agree R (ret a1) (ret a2).
Proof. intros H st Hst. simpl. auto. Qed.

Lemma agree_lift {A} (R : A -> A -> Prop) (o1 o2 : option A) :
  match o1, o2 with
  | Some a1, Some a2 => R a1 a2
  | None, None => True
  | _, _ => False
  end ->
  agree R (lift o1) (lift o2).
Proof.
  intros H st Hst. unfold lift. destruct o1, o2; simpl; auto.
Qed.

Lemma agree_lift_same {A} (o : option A) : agree eq (lift o) (lift o).
Proof. apply agree_lift. destruct o; auto. Qed.

Lemma agree_bind {A B} (R : A -> A -> Prop) (R' : B -> B -> Prop)
    (c1 c2 : M A) (k1 k2 : A -> M B) :
  agree R c1 c2 ->
  (forall a1 a2, R a1 a2 -> agree R' (k1 a1) (k2 a2)) ->
  agree R' (bind c1 k1) (bind c2 k2).
Proof.
  intros Hc Hk st Hst. unfold bind. specialize (Hc st Hst).
  destruct (c1 st) as [[a1 s1] |], (c2 st) as [[a2 s2] |];
    try contradiction; [| exact I].
  destruct Hc as (HR & -> & ->). apply Hk; assumption.
Qed.

Ltac agree_step := eapply agree_bind; [| intros ? ? ?].

(** Same scrutinee on both sides. *)
Ltac agree_same :=
  eapply agree_bind; [apply agree_lift_same | intros ? ? <-].

Lemma fsum_ext n (f g : nat -> fval) :
  (forall k, k < n -> f k = g k) -> fsum n f = fsum n g.
Proof.
  intros H. unfold fsum.
  assert (Hl : forall k, In k (seq 0 n) -> f k = g k).
  { intros k Hk. apply in_seq in Hk. apply H. lia. }
  clear H. induction (seq 0 n) as [| a l IH]; simpl; [reflexivity |].
  rewrite (Hl a) by now left.
  rewrite IH; [reflexivity |]. intros k Hk. apply Hl. now right.
Qed.

(** The entry that an operand contributes along one dimension of a sum is
    within the operand. *)
Lemma bdim_index x y z k :
  bdim x y = Some z -> k < z ->
  (if x =? 1 then 0 else k) < x /\ (if y =? 1 then 0 else k) < y.
Proof.
  unfold bdim. intros H Hk.
  destruct (Nat.eqb_spec x y) as [-> | Hxy].
  - inversion H; subst z. destruct (Nat.eqb_spec y 1); lia.
  - destruct (Nat.eqb_spec x 1) as [-> | Hx].
    + inversion H; subst z. destruct (Nat.eqb_spec y 1); lia.
    + destruct (Nat.eqb_spec y 1) as [-> | Hy]; [| discriminate].
      inversion H; subst z. lia.
Qed.

Section BatchIndependence.
Variable params : string -> index -> fval.
Variable bp : batch_pos.
Hypothesis Hbi1 : bp_index1 bp < bp_size1 bp.
Hypothesis Hbi2 : bp_index2 bp < bp_size2 bp.

Lemma batch_index_1 : (if bp_size1 bp =? 1 then 0 else bp_index1 bp)
                      = bp_index1 bp.
Proof. destruct (Nat.eqb_spec (bp_size1 bp) 1); lia. Qed.

Lemma batch_index_2 : (if bp_size2 bp =? 1 then 0 else bp_index2 bp)
                      = bp_index2 bp.
Proof. destruct (Nat.eqb_spec (bp_size2 bp) 1); lia. Qed.

Lemma same_image_conv2d path cin cout k s p bias x1 x2 :
  same_image bp x1 x2 ->
  agree (same_image bp) (lift (conv2d params path cin cout k s p bias x1))
        (lift (conv2d params path cin cout k s p bias x2)).
Proof.
  intros (c & h & w & E1 & E2 & Hd). apply agree_lift.
  unfold conv2d. rewrite E1, E2.
  destruct (Nat.eqb_spec c cin) as [<- |]; [| exact I].
  destruct (conv_out h k s p) as [ho |]; [| exact I].
  destruct (conv_out w k s p) as [wo |]; [| exact I].
  exists cout, ho, wo. split; [reflexivity |]. split; [reflexivity |].
  intros o i j _ _ _. cbn [tdata nth]. f_equal.
  apply fsum_ext. intros ci Hci. apply fsum_ext. intros ki _.
  apply fsum_ext. intros kj _. f_equal.
  unfold padded. rewrite E1, E2. cbn [nth].
  destruct (_ && _) eqn:Eb; [| reflexivity].
  apply andb_prop in Eb. destruct Eb as [Eb Hq].
  apply andb_prop in Eb. destruct Eb as [Eb _].
  apply andb_prop in Eb. destruct Eb as [_ Hr].
  apply Nat.ltb_lt in Hq, Hr.
  apply Hd; assumption.
Qed.

Lemma same_image_batch_norm path n mo x1 x2 :
  same_image bp x1 x2 ->
  agree (same_image bp) (batch_norm params path n mo x1)
        (batch_norm params path n mo x2).
Proof.
  intros (c & h & w & E1 & E2 & Hd) st Hst.
  unfold batch_norm. rewrite E1, E2, Hst.
  destruct (c =? n); [| exact I].
  split; [| auto].
  exists c, h, w. unfold normalise. cbn [tshape].
  repeat split; try assumption.
  intros k i j Hk Hi Hj. cbn [tdata nth]. now rewrite Hd.
Qed.

Lemma same_image_relu x1 x2 :
  same_image bp x1 x2 -> same_image bp (relu_forward x1) (relu_forward x2).
Proof.
  intros (c & h & w & E1 & E2 & Hd). exists c, h, w.
  repeat split; try assumption.
  intros k i j Hk Hi Hj. cbn [relu_forward tmap tdata]. now rewrite Hd.
Qed.

Lemma same_image_upsample k x1 x2 :
  same_image bp x1 x2 ->
  agree (same_image bp) (lift (upsample k x1)) (lift (upsample k x2)).
Proof.
  intros (c & h & w & E1 & E2 & Hd). apply agree_lift.
  unfold upsample. rewrite E1, E2.
  destruct (_ && _); [| exact I].
  exists c, (h * k), (w * k). split; [reflexivity |]. split; [reflexivity |].
  intros o i j Ho Hi Hj. cbn [tdata firstn skipn map app].
  apply Hd; [assumption | |]; apply Nat.Div0.div_lt_upper_bound; lia.
Qed.

(** The entry that an operand of shape [b; c; h; w] contributes to an
    entry of a sum. *)
Lemma bidx_4 s b c h w bi k i j :
  length s = 4 ->
  bidx s [b; c; h; w] [bi; k; i; j]
  = [if b =? 1 then 0 else bi; if c =? 1 then 0 else k;
     if h =? 1 then 0 else i; if w =? 1 then 0 else j].
Proof. intros H. unfold bidx. rewrite H. reflexivity. Qed.

Lemma broadcast_shapes_batch b c1 h1 w1 c2 h2 w2 :
  broadcast_shapes [b; c1; h1; w1] [b; c2; h2; w2]
  = let? c := bdim c1 c2 in
    let? h := bdim h1 h2 in
    let? w := bdim w1 w2 in
    Some [b; c; h; w].
Proof. now rewrite broadcast_shapes_4, bdim_same. Qed.

Lemma same_image_tensor_add x1 x2 y1 y2 :
  same_image bp x1 x2 -> same_image bp y1 y2 ->
  agree (same_image bp) (lift (tensor_add x1 y1)) (lift (tensor_add x2 y2)).
Proof.
  intros (c & h & w & E1 & E2 & Hd) (c' & h' & w' & F1 & F2 & Hd').
  apply agree_lift. unfold tensor_add. rewrite E1, E2, F1, F2.
  rewrite !broadcast_shapes_batch.
  destruct (bdim c c') as [c0 |] eqn:Ec; [| exact I].
  destruct (bdim h h') as [h0 |] eqn:Eh; [| exact I].
  destruct (bdim w w') as [w0 |] eqn:Ew; [| exact I].
  exists c0, h0, w0. split; [reflexivity |]. split; [reflexivity |].
  intros k i j Hk Hi Hj. cbn [tdata].
  rewrite !bidx_4 by reflexivity.
  destruct (@bdim_index _ _ _ _ Ec Hk), (@bdim_index _ _ _ _ Eh Hi),
    (@bdim_index _ _ _ _ Ew Hj).
  rewrite batch_index_1, batch_index_2, Hd, Hd' by assumption.
  reflexivity.
Qed.

Lemma same_image_tensor_iadd x1 x2 y1 y2 :
  same_image bp x1 x2 -> same_image bp y1 y2 ->
  agree (same_image bp) (lift (tensor_iadd x1 y1))
        (lift (tensor_iadd x2 y2)).
Proof.
  intros (c & h & w & E1 & E2 & Hd) (c' & h' & w' & F1 & F2 & Hd').
  apply agree_lift. unfold tensor_iadd. rewrite E1, E2, F1, F2.
  rewrite !broadcast_shapes_batch.
  destruct (bdim c c') as [c0 |] eqn:Ec; [| exact I].
  destruct (bdim h h') as [h0 |] eqn:Eh; [| exact I].
  destruct (bdim w w') as [w0 |] eqn:Ew; [| exact I].
  cbn [combine forallb fst snd length]. rewrite !Nat.eqb_refl. cbn [andb].
  destruct (Nat.eqb_spec c0 c) as [-> |]; [| exact I].
  destruct (Nat.eqb_spec h0 h) as [-> |]; [| exact I].
  destruct (Nat.eqb_spec w0 w) as [-> |]; [| exact I].
  cbn [andb].
  exists c, h, w. split; [reflexivity |]. split; [reflexivity |].
  intros k i j Hk Hi Hj. cbn [tdata].
  rewrite !bidx_4 by reflexivity.
  destruct (@bdim_index _ _ _ _ Ec Hk), (@bdim_index _ _ _ _ Eh Hi),
    (@bdim_index _ _ _ _ Ew Hj).
  rewrite batch_index_1, batch_index_2, Hd, Hd' by assumption.
  reflexivity.
Qed.

Lemma same_image_call_seq path l :
  Forall (fun m => forall path x1 x2,
            same_image bp x1 x2 ->
            agree (same_image bp) (call params path m x1)
                  (call params path m x2)) l ->
  forall i x1 x2,
    same_image bp x1 x2 ->
    agree (same_image bp) (call_seq params path l i x1)
          (call_seq params path l i x2).
Proof.
  induction 1 as [| m l Hm _ IH]; intros i x1 x2 Hx; simpl.
  - now apply agree_ret.
  - agree_step; [apply Hm; exact Hx | now apply IH].
Qed.

Lemma same_image_call m :
  forall path x1 x2,
    same_image bp x1 x2 ->
    agree (same_image bp) (call params path m x1) (call params path m x2).
Proof.
  induction m using module_tree_ind; intros path x1 x2 Hx.
  - now apply same_image_conv2d.
  - now apply same_image_batch_norm.
  - apply agree_ret. now apply same_image_relu.
  - now apply same_image_upsample.
  - change (agree (same_image bp) (call_seq params path l 0 x1)
                  (call_seq params path l 0 x2)).
    now apply same_image_call_seq.
  - simpl.
    agree_step; [apply IHm1; exact Hx |].
    agree_step; [apply IHm2; eassumption |].
    agree_step; [apply IHm3; eassumption |].
    agree_step; [apply IHm4; eassumption |].
    agree_step; [apply IHm5; eassumption |].
    agree_step.
    { destruct d; [apply (H _ eq_refl); exact Hx | now apply agree_ret]. }
    agree_step; [apply same_image_tensor_iadd; eassumption |].
    apply IHm3; eassumption.
  - simpl.
    agree_step; [apply IHm1; exact Hx |].
    agree_step; [apply IHm2; eassumption |].
    agree_step; [apply IHm7; eassumption |].
    agree_step; [apply IHm3; eassumption |].
    agree_step; [apply IHm4; eassumption |].
    agree_step; [apply IHm7; eassumption |].
    agree_step; [apply IHm5; eassumption |].
    agree_step; [apply IHm6; eassumption |].
    agree_step.
    { destruct d; [apply (H _ eq_refl); exact Hx | now apply agree_ret]. }
    agree_step; [apply same_image_tensor_iadd; eassumption |].
    apply IHm7; eassumption.
Qed.

Lemma same_image_call_entry path e x1 x2 :
  same_image bp x1 x2 ->
  agree (same_image bp) (call_entry params path e x1)
        (call_entry params path e x2).
Proof.
  intros Hx. destruct e; simpl; [now apply same_image_call |].
  now apply agree_lift.
Qed.

Lemma same_image_nth x1 x2 i :
  Forall2 (same_image bp) x1 x2 ->
  agree (same_image bp) (lift (nth_error x1 i)) (lift (nth_error x2 i)).
Proof.
  intros H. apply agree_lift. revert i.
  induction H as [| a b l1 l2 Hab _ IH]; intros [| i]; simpl; auto.
  apply IH.
Qed.

Lemma same_image_list_set x1 x2 i y1 y2 :
  Forall2 (same_image bp) x1 x2 -> same_image bp y1 y2 ->
  Forall2 (same_image bp) (list_set x1 i y1) (list_set x2 i y2).
Proof.
  intros H Hy. revert i. induction H as [| a b l1 l2 Hab Hl IH]; intros [| i];
    simpl; constructor; auto.
Qed.

Lemma same_image_run_branches path bs :
  forall count x1 x2 i,
    Forall2 (same_image bp) x1 x2 ->
    agree (Forall2 (same_image bp))
          (run_branches params path bs x1 i count)
          (run_branches params path bs x2 i count).
Proof.
  induction count as [| count IH]; intros x1 x2 i Hx; simpl.
  - now apply agree_ret.
  - agree_same.
    agree_step; [apply same_image_nth; exact Hx |].
    agree_step; [apply same_image_call; eassumption |].
    apply IH. now apply same_image_list_set.
Qed.

Lemma same_image_fuse_sum path fl x1 x2 i :
  Forall2 (same_image bp) x1 x2 ->
  forall count y1 y2 j,
    same_image bp y1 y2 ->
    agree (same_image bp) (fuse_sum params path fl x1 i y1 j count)
          (fuse_sum params path fl x2 i y2 j count).
Proof.
  intros Hx. induction count as [| count IH]; intros y1 y2 j Hy; simpl.
  - now apply agree_ret.
  - agree_step.
    { destruct (i =? j).
      - agree_step; [apply same_image_nth; exact Hx |].
        now apply same_image_tensor_add.
      - agree_same. agree_same.
        agree_step; [apply same_image_nth; exact Hx |].
        agree_step; [apply same_image_call_entry; eassumption |].
        now apply same_image_tensor_add. }
    apply IH; assumption.
Qed.

Lemma same_image_fuse_outputs path B fl r x1 x2 :
  Forall2 (same_image bp) x1 x2 ->
  forall count i,
    agree (Forall2 (same_image bp))
          (fuse_outputs params path B fl r x1 i count)
          (fuse_outputs params path B fl r x2 i count).
Proof.
  intros Hx. induction count as [| count IH]; intros i; cbn [fuse_outputs].
  - apply agree_ret. constructor.
  - agree_step.
    { destruct (i =? 0).
      - apply same_image_nth; exact Hx.
      - agree_same. agree_same.
        agree_step; [apply same_image_nth; exact Hx |].
        now apply same_image_call_entry. }
    agree_step; [apply same_image_fuse_sum; eassumption |].
    agree_step; [apply same_image_call; eassumption |].
    agree_step; [apply IH |].
    apply agree_ret. constructor; assumption.
Qed.

Lemma same_image_HighResolutionModule_forward path self x1 x2 :
  Forall2 (same_image bp) x1 x2 ->
  agree (Forall2 (same_image bp))
        (HighResolutionModule_forward params path self x1)
        (HighResolutionModule_forward params path self x2).
Proof.
  intros Hx. unfold HighResolutionModule_forward.
  destruct (num_branches self =? 1).
  - agree_same.
    agree_step; [apply same_image_nth; exact Hx |].
    agree_step; [apply same_image_call; eassumption |].
    apply agree_ret. repeat constructor. assumption.
  - agree_step; [apply same_image_run_branches; exact Hx |].
    agree_same. now apply same_image_fuse_outputs.
Qed.

Lemma same_image_stage_forward path ms :
  forall i x1 x2,
    Forall2 (same_image bp) x1 x2 ->
    agree (Forall2 (same_image bp)) (stage_forward params path ms i x1)
          (stage_forward params path ms i x2).
Proof.
  induction ms as [| m ms IH]; intros i x1 x2 Hx; simpl.
  - now apply agree_ret.
  - agree_step; [apply same_image_HighResolutionModule_forward; exact Hx |].
    now apply IH.
Qed.

Lemma same_image_transition_forward path transition input1 input2 pass1
    pass2 :
  agree (same_image bp) (lift input1) (lift input2) ->
  (forall k, agree (same_image bp) (lift (pass1 k)) (lift (pass2 k))) ->
  forall count i,
    agree (Forall2 (same_image bp))
          (transition_forward params path transition input1 pass1 i count)
          (transition_forward params path transition input2 pass2 i count).
Proof.
  intros Hin Hpass. induction count as [| count IH]; intros i; simpl.
  - apply agree_ret. constructor.
  - agree_same.
    agree_step.
    { destruct a1 as [layer |]; [| apply Hpass].
      agree_step; [exact Hin |]. now apply same_image_call. }
    agree_step; [apply IH |].
    apply agree_ret. constructor; assumption.
Qed.

Lemma same_image_last x1 x2 :
  Forall2 (same_image bp) x1 x2 ->
  agree (same_image bp) (lift (last_error x1)) (lift (last_error x2)).
Proof.
  intros H. unfold last_error. rewrite (Forall2_length H).
  now apply same_image_nth.
Qed.


Lemma same_image_normalise_image image1 image2 h w c :
  tshape image1 = [bp_size1 bp; h; w; c] ->
  tshape image2 = [bp_size2 bp; h; w; c] ->
  (forall i j k, i < h -> j < w -> k < c ->
     tdata image1 [bp_index1 bp; i; j; k]
     = tdata image2 [bp_index2 bp; i; j; k]) ->
  agree (same_image bp) (lift (normalise_image image1))
        (lift (normalise_image image2)).
Proof.
  intros E1 E2 Hd. apply agree_lift. unfold normalise_image.
  destruct (@BHWC_to_BCHW_rank2 _ image1 (bp_size1 bp) [h; w] c E1)
    as (t1 & -> & S1 & D1).
  destruct (@BHWC_to_BCHW_rank2 _ image2 (bp_size2 bp) [h; w] c E2)
    as (t2 & -> & S2 & D2).
  cbn beta iota. exists c, h, w. split; [exact S1 |]. split; [exact S2 |].
  intros k i j Hk Hi Hj. unfold sub_scalar, mul_scalar, div_scalar.
  cbn [tmap tdata tshape].
  rewrite (D1 _ _ [i; j] eq_refl), (D2 _ _ [i; j] eq_refl).
  cbn [app]. now rewrite Hd.
Qed.

Lemma same_image_HigherResolutionNet_forward path self image1 image2 h w c :
  tshape image1 = [bp_size1 bp; h; w; c] ->
  tshape image2 = [bp_size2 bp; h; w; c] ->
  (forall i j k, i < h -> j < w -> k < c ->
     tdata image1 [bp_index1 bp; i; j; k]
     = tdata image2 [bp_index2 bp; i; j; k]) ->
  agree (same_image bp)
        (HigherResolutionNet_forward params path self image1)
        (HigherResolutionNet_forward params path self image2).
Proof.
  intros E1 E2 Hd.
  unfold HigherResolutionNet_forward, HigherResolutionNet_forward_rest.
  agree_step; [eapply same_image_normalise_image; eassumption |].
  do 7 (agree_step; [apply same_image_call; eassumption |]).
  agree_step.
  { apply same_image_transition_forward; intros; apply agree_lift;
      assumption. }
  agree_step; [apply same_image_stage_forward; eassumption |].
  agree_step.
  { apply same_image_transition_forward;
      [apply same_image_last; assumption
      | intros; apply same_image_nth; assumption]. }
  agree_step; [apply same_image_stage_forward; eassumption |].
  agree_step.
  { apply same_image_transition_forward;
      [apply same_image_last; assumption
      | intros; apply same_image_nth; assumption]. }
  agree_step; [apply same_image_stage_forward; eassumption |].
  apply same_image_nth; assumption.
Qed.

(** The coordinate maps are repeated along the batch: every image gets
    the same ones. *)
Lemma same_image_repeat_tensor (t : tensor fval) c h w :
  tshape t = [1; c; h; w] ->
  agree (same_image bp) (lift (repeat_tensor [bp_size1 bp; 1; 1; 1] t))
        (lift (repeat_tensor [bp_size2 bp; 1; 1; 1] t)).
Proof.
  intros Ht. apply agree_lift. unfold repeat_tensor. rewrite Ht.
  cbn [length Nat.ltb Nat.leb Nat.sub repeat app combine map fst snd].
  exists (1 * c), (1 * h), (1 * w).
  cbn [tshape]. rewrite !Nat.mul_1_r.
  split; [reflexivity |]. split; [reflexivity |].
  intros k i j _ _ _. cbn [tdata skipn combine map fst snd].
  now rewrite !Nat.mod_1_r.
Qed.

Lemma same_image_cat x1 x2 y1 y2 :
  same_image bp x1 x2 -> same_image bp y1 y2 ->
  agree (same_image bp) (lift (cat NaN [x1; y1] 1))
        (lift (cat NaN [x2; y2] 1)).
Proof.
  intros (c & h & w & E1 & E2 & Hd) (c' & h' & w' & F1 & F2 & Hd').
  apply agree_lift. unfold cat. rewrite E1, E2. cbn [length].
  change 1%Z with (Z.of_nat 1). rewrite norm_dim_nat by lia.
  cbn [forallb remove_at firstn skipn app length nth fold_right].
  rewrite ?E1, ?E2, ?F1, ?F2.
  cbn [forallb remove_at firstn skipn app length nth fold_right combine
       fst snd].
  rewrite !Nat.eqb_refl. cbn [andb].
  destruct (Nat.eqb_spec h' h) as [-> |]; [| exact I].
  destruct (Nat.eqb_spec w' w) as [-> |]; [| exact I].
  cbn [andb]. unfold replace_at.
  cbn [forallb remove_at firstn skipn app length nth fold_right].
  exists (c + (c' + 0)), h, w. split; [reflexivity |]. split; [reflexivity |].
  intros k i j Hk Hi Hj. cbn [tdata nth cat_select].
  rewrite E1, E2, F1, F2. cbn [nth firstn skipn app].
  destruct (Nat.ltb_spec k c); [now apply Hd |].
  destruct (Nat.ltb_spec (k - c) c'); [now apply Hd' | reflexivity].
Qed.

Lemma same_image_ROMPv1_features self image1 image2 h w c :
  ROMPv1_init = Some self ->
  tshape image1 = [bp_size1 bp; h; w; c] ->
  tshape image2 = [bp_size2 bp; h; w; c] ->
  (forall i j k, i < h -> j < w -> k < c ->
     tdata image1 [bp_index1 bp; i; j; k]
     = tdata image2 [bp_index2 bp; i; j; k]) ->
  agree (same_image bp) (ROMPv1_features params self image1)
        (ROMPv1_features params self image2).
Proof.
  intros Hinit E1 E2 Hd. unfold ROMPv1_features.
  agree_step;
    [eapply same_image_HigherResolutionNet_forward; eassumption |].
  destruct H as (c0 & h0 & w0 & S1 & S2 & Hx).
  rewrite S1, S2. cbn [nth_error].
  eapply agree_bind with (R := fun n1 n2 => n1 = bp_size1 bp
                                           /\ n2 = bp_size2 bp).
  { apply agree_lift. split; reflexivity. }
  intros n1 n2 [-> ->].
  apply ROMPv1_init_coordmaps in Hinit.
  destruct (get_coord_maps_shape 128) as (t & Et & Hshape).
  rewrite Hinit in Et. inversion Et; subst t. clear Et.
  agree_step; [eapply same_image_repeat_tensor; exact Hshape |].
  apply same_image_cat; [| assumption].
  exists c0, h0, w0. auto.
Qed.

Lemma same_image_ROMPv1_heads self x1 x2 :
  same_image bp x1 x2 ->
  agree (fun r1 r2 =>
           same_image bp (fst (fst r1)) (fst (fst r2))
           /\ same_image bp (snd (fst r1)) (snd (fst r2))
           /\ same_image bp (snd r1) (snd r2))
        (ROMPv1_heads params self x1) (ROMPv1_heads params self x2).
Proof.
  intros Hx. unfold ROMPv1_heads.
  agree_same. agree_step; [apply same_image_call_entry; exact Hx |].
  agree_same. agree_step; [apply same_image_call_entry; exact Hx |].
  agree_same. agree_step; [apply same_image_call_entry; exact Hx |].
  apply agree_ret. simpl. auto.
Qed.

(** Writing back the exponentiated scale channel. *)
Lemma same_image_scale cam1 cam2 f :
  same_image bp cam1 cam2 ->
  agree (same_image bp)
        (lift (let? scale := select1 cam1 0 in
               setitem1 cam1 0 (tmap f scale)))
        (lift (let? scale := select1 cam2 0 in
               setitem1 cam2 0 (tmap f scale))).
Proof.
  intros (c & h & w & E1 & E2 & Hd). apply agree_lift.
  unfold setitem1, select1. rewrite E1, E2.
  destruct (Nat.ltb_spec 0 c); [| exact I].
  cbn [tshape tmap].
  rewrite !broadcast_shapes_same, !forallb_eqb_refl, !Nat.eqb_refl.
  cbn [andb].
  exists c, h, w. split; [reflexivity |]. split; [reflexivity |].
  intros k i j Hk Hi Hj. cbn [tdata nth]. unfold remove_at.
  cbn [firstn skipn app].
  destruct (k =? 0); [| now apply Hd].
  unfold bidx. cbn [length Nat.sub skipn combine map fst snd].
  rewrite batch_index_1, batch_index_2.
  unfold insert_at. cbn [tmap tdata firstn skipn app].
  rewrite Hd; [reflexivity | lia | |].
  - destruct (Nat.eqb_spec h 1); lia.
  - destruct (Nat.eqb_spec w 1); lia.
Qed.

Lemma ROMPv1_outputs_steps pm cm cam :
  ROMPv1_outputs pm cm cam
  = let? cam' := (let? scale := select1 cam 0 in
                  setitem1 cam 0 (tmap (fpow_base (11 / 10)%R) scale)) in
    let? p := cat NaN [cam'; pm] 1 in
    Some (cm, p).
Proof. unfold ROMPv1_outputs. destruct (select1 cam 0); reflexivity. Qed.

Lemma same_image_ROMPv1_outputs pm1 pm2 cm1 cm2 cam1 cam2 :
  same_image bp pm1 pm2 -> same_image bp cm1 cm2 ->
  same_image bp cam1 cam2 ->
  agree (fun r1 r2 => same_image bp (fst r1) (fst r2)
                      /\ same_image bp (snd r1) (snd r2))
        (lift (ROMPv1_outputs pm1 cm1 cam1))
        (lift (ROMPv1_outputs pm2 cm2 cam2)).
Proof.
  intros Hpm Hcm Hcam st Hst.
  pose proof (@same_image_scale cam1 cam2 (fpow_base (11 / 10)%R) Hcam
                st Hst) as Hs.
  rewrite !ROMPv1_outputs_steps. unfold lift in *.
  destruct (let? scale := select1 cam1 0 in setitem1 cam1 0 _) as [c1 |],
           (let? scale := select1 cam2 0 in setitem1 cam2 0 _) as [c2 |];
    try contradiction; [| exact I].
  destruct Hs as (Hc & _ & _).
  pose proof (@same_image_cat c1 c2 pm1 pm2 Hc Hpm st Hst) as Hp.
  unfold lift in Hp.
  destruct (cat NaN [c1; pm1] 1) as [p1 |], (cat NaN [c2; pm2] 1) as [p2 |];
    try contradiction; [| exact I].
  destruct Hp as (Hp & _ & _). simpl. auto.
Qed.

Lemma same_image_ROMPv1_forward self image1 image2 h w c :
  ROMPv1_init = Some self ->
  tshape image1 = [bp_size1 bp; h; w; c] ->
  tshape image2 = [bp_size2 bp; h; w; c] ->
  (forall i j k, i < h -> j < w -> k < c ->
     tdata image1 [bp_index1 bp; i; j; k]
     = tdata image2 [bp_index2 bp; i; j; k]) ->
  agree (fun r1 r2 => same_image bp (fst r1) (fst r2)
                      /\ same_image bp (snd r1) (snd r2))
        (ROMPv1_forward params self image1)
        (ROMPv1_forward params self image2).
Proof.
  intros Hinit E1 E2 Hd. unfold ROMPv1_forward.
  agree_step; [eapply same_image_ROMPv1_features; eassumption |].
  agree_step; [apply same_image_ROMPv1_heads; eassumption |].
  destruct a0 as [[pm1 cm1] cam1], a3 as [[pm2 cm2] cam2].
  simpl in H0. destruct H0 as (Hpm & Hcm & Hcam).
  now apply same_image_ROMPv1_outputs.
Qed.
End BatchIndependence.

(** * Further properties of the fusion module *)

(** X8: [HighResolutionModule.forward] raises on a list with fewer
    tensors than the module has branches. *)
Theorem X8_module_forward_short_input params path self x st :
  length x < num_branches self ->
  HighResolutionModule_forward params path self x st = None.
Proof. apply HighResolutionModule_forward_short. Qed.

Lemma X8_module_forward_short_input_witness :
  exists self,
    HighResolutionModule_init 2 BasicBlock_class [1; 1] [4; 8] [4; 8]
      "SUM" true = Some self
    /\ HighResolutionModule_forward zero_params "m" self
         [blank [1; 4; 8; 8]] eval_state = None.
Proof.
  destruct (HighResolutionModule_init 2 BasicBlock_class [1; 1] [4; 8]
              [4; 8] "SUM" true) as [self |] eqn:E.
  - exists self. split; [reflexivity |].
    apply X8_module_forward_short_input.
    destruct (HighResolutionModule_init_fields _ _ _ _ _ _ _ E)
      as (bs & nic' & fl & _ & _ & ->).
    simpl. lia.
  - vm_compute in E. discriminate E.
Defined.

(** X9: [HighResolutionModule.forward] reads as many tensors of its input
    list as the module has branches: further tensors change neither the
    returned list nor the state. *)
Theorem X9_module_forward_extra_inputs params path self x extra st :
  1 <= num_branches self -> num_branches self <= length x ->
  HighResolutionModule_forward params path self (x ++ extra) st
  = HighResolutionModule_forward params path self x st.
Proof. apply HighResolutionModule_forward_app. Qed.

Lemma X9_module_forward_extra_inputs_witness :
  exists self,
    HighResolutionModule_init 2 BasicBlock_class [1; 1] [4; 8] [4; 8]
      "SUM" true = Some self
    /\ HighResolutionModule_forward zero_params "m" self
         ([blank [1; 4; 8; 8]; blank [1; 8; 4; 4]] ++ [blank [1; 16; 2; 2]])
         eval_state
       = HighResolutionModule_forward zero_params "m" self
           [blank [1; 4; 8; 8]; blank [1; 8; 4; 4]] eval_state.
Proof.
  destruct (HighResolutionModule_init 2 BasicBlock_class [1; 1] [4; 8]
              [4; 8] "SUM" true) as [self |] eqn:E.
  - exists self. split; [reflexivity |].
    destruct (HighResolutionModule_init_fields _ _ _ _ _ _ _ E)
      as (bs & nic' & fl & _ & _ & ->).
    apply X9_module_forward_extra_inputs; simpl; lia.
  - vm_compute in E. discriminate E.
Defined.

Lemma X10_fuse_method_unused_witness :
  exists self1 self2,
    HighResolutionModule_init 2 BasicBlock_class [1; 1] [4; 8] [4; 8]
      "SUM" true = Some self1
    /\ HighResolutionModule_init 2 BasicBlock_class [1; 1] [4; 8] [4; 8]
         "CAT" true = Some self2
    /\ fuse_method self1 <> fuse_method self2
    /\ forall path x st,
         HighResolutionModule_forward zero_params path self1 x st
         = HighResolutionModule_forward zero_params path self2 x st.
Proof.
  destruct (HighResolutionModule_init 2 BasicBlock_class [1; 1] [4; 8]
              [4; 8] "SUM" true) as [self1 |] eqn:E1;
    [| vm_compute in E1; discriminate E1].
  destruct (HighResolutionModule_init 2 BasicBlock_class [1; 1] [4; 8]
              [4; 8] "CAT" true) as [self2 |] eqn:E2;
    [| vm_compute in E2; discriminate E2].
  exists self1, self2. split; [reflexivity |]. split; [reflexivity |].
  split.
  - destruct (HighResolutionModule_init_fields _ _ _ _ _ _ _ E1)
      as (bs1 & n1 & fl1 & _ & _ & ->).
    destruct (HighResolutionModule_init_fields _ _ _ _ _ _ _ E2)
      as (bs2 & n2 & fl2 & _ & _ & ->).
    simpl. discriminate.
  - exact (X10_fuse_method_unused zero_params _ _ _ _ _ _ _ _ E1 E2).
Defined.

(** * Further properties of the backbone *)

(** X11: every entry of the feature map that the backbone returns is
    non-negative or not a number: the last thing computed for it is the
    activation of the last fusion module. *)
Theorem X11_backbone_features_nonnegative params path self image st y st' :
  make_baseline = Some self ->
  HigherResolutionNet_forward params path self image st = Some (y, st') ->
  forall idx, nonneg (tdata y idx).
Proof.
  intros Hself E idx.
  destruct (HigherResolutionNet_forward_relu _ _ _ _ Hself E) as [y0 ->].
  apply nonneg_relu_forward.
Qed.

Lemma X11_backbone_features_nonnegative_witness :
  exists self y st',
    make_baseline = Some self
    /\ HigherResolutionNet_forward zero_params "backbone" self gray_image
         eval_state = Some (y, st')
    /\ nonneg (tdata y [0; 5; 17; 100]).
Proof.
  destruct make_baseline as [self |] eqn:Hself;
    [| vm_compute in Hself; discriminate Hself].
  destruct (@HigherResolutionNet_forward_scaled zero_params "backbone" self
              gray_image eval_state 1 16 16 Hself eq_refl)
    as (y & st' & E & _);
    [lia | lia | lia | intros H; discriminate H |].
  exists self, y, st'. split; [reflexivity |]. split; [exact E |].
  exact (@X11_backbone_features_nonnegative _ _ _ _ _ _ _ Hself E
           [0; 5; 17; 100]).
Defined.

Lemma X12_backbone_input_contract_witness :
  exists self r,
    make_baseline = Some self
    /\ HigherResolutionNet_forward zero_params "backbone" self gray_image
         eval_state = Some r
    /\ exists b h w, tshape gray_image = [b; h; w; 3] /\ 1 <= h /\ 1 <= w.
Proof.
  destruct make_baseline as [self |] eqn:Hself;
    [| vm_compute in Hself; discriminate Hself].
  destruct (@HigherResolutionNet_forward_scaled zero_params "backbone" self
              gray_image eval_state 1 16 16 Hself eq_refl)
    as (y & st' & E & _);
    [lia | lia | lia | intros H; discriminate H |].
  exists self, (y, st'). split; [reflexivity |]. split; [exact E |].
  exact (@X12_backbone_input_contract _ _ _ _ _ _ Hself E).
Defined.

(** X13: the backbone accepts every batch of images whose height and
    width are multiples of 32 and returns 32 channels at a quarter of the
    resolution, in the mode it was called in.  In training mode the batch
    must hold more than one image of 32 x 32 pixels, for the normalisation
    of the lowest resolution. *)
Theorem X13_backbone_multiples_of_32 params path self image st b n m :
  make_baseline = Some self ->
  tshape image = [b; 32 * n; 32 * m; 3] ->
  1 <= b -> 1 <= n -> 1 <= m ->
  (training st = true -> 2 <= b * n * m) ->
  exists y st',
    HigherResolutionNet_forward params path self image st = Some (y, st')
    /\ tshape y = [b; 32; 8 * n; 8 * m]
    /\ training st' = training st.
Proof. apply HigherResolutionNet_forward_scaled. Qed.

Lemma X13_backbone_multiples_of_32_witness :
  exists self y st',
    make_baseline = Some self
    /\ HigherResolutionNet_forward zero_params "backbone" self
         (blank [2; 32; 64; 3]) fresh_state = Some (y, st')
    /\ tshape y = [2; 32; 8; 16]
    /\ training st' = true.
Proof.
  destruct make_baseline as [self |] eqn:Hself;
    [| vm_compute in Hself; discriminate Hself].
  destruct (@X13_backbone_multiples_of_32 zero_params "backbone" self
              (blank [2; 32; 64; 3]) fresh_state 2 1 2 Hself eq_refl)
    as (y & st' & E & Hy & Ht); [lia | lia | lia | simpl; lia |].
  exists self, y, st'. auto.
Defined.

(** X14: in training mode the backbone raises on a single image of
    32 x 32 pixels, whatever the pixels, the parameters and the running
    statistics: a normalisation layer of the lowest resolution gets one
    value per channel. *)
Theorem X14_backbone_training_single_value params path self image st :
  make_baseline = Some self ->
  training st = true ->
  tshape image = [1; 32; 32; 3] ->
  HigherResolutionNet_forward params path self image st = None.
Proof.
  intros Hself Hst Hx.
  pose proof (HigherResolutionNet_forward_shape_exact params path self image
                st) as H.
  pose proof make_baseline_shape_32_training as H32.
  rewrite Hself in H32. rewrite Hst, Hx, H32 in H.
  destruct (HigherResolutionNet_forward params path self image st)
    as [[y st'] |]; [discriminate H | reflexivity].
Qed.

Lemma X14_backbone_training_single_value_witness :
  exists self,
    make_baseline = Some self
    /\ HigherResolutionNet_forward zero_params "backbone" self
         (blank [1; 32; 32; 3]) fresh_state = None.
Proof.
  destruct make_baseline as [self |] eqn:Hself;
    [| vm_compute in Hself; discriminate Hself].
  exists self. split; [reflexivity |].
  apply X14_backbone_training_single_value;
    [exact Hself | reflexivity | reflexivity].
Defined.

(** * Further properties of the model *)

(** X15: the features that the heads read: the output of the backbone,
    of 128 x 128 entries, followed by two coordinate channels, the same
    for every image of the batch.  The first holds the column index and
    the second the row index, both mapped affinely onto [-1, 1]. *)
Theorem X15_features_coordinates params self image st x st' :
  ROMPv1_init = Some self ->
  ROMPv1_features params self image st = Some (x, st') ->
  exists feats b c,
    HigherResolutionNet_forward params "backbone" (backbone self) image st
      = Some (feats, st')
    /\ tshape feats = [b; c; 128; 128]
    /\ tshape x = [b; c + 2; 128; 128]
    /\ forall bi i j, i < 128 -> j < 128 ->
         (forall k, k < c -> tdata x [bi; k; i; j] = tdata feats [bi; k; i; j])
         /\ tdata x [bi; c; i; j] = Fin (INR j / 127 * 2 - 1)%R
         /\ tdata x [bi; c + 1; i; j] = Fin (INR i / 127 * 2 - 1)%R.
Proof. apply ROMPv1_features_coordinates. Qed.

Lemma X15_features_coordinates_witness :
  exists self x st' c,
    ROMPv1_init = Some self
    /\ ROMPv1_features zero_params self gray_image eval_state = Some (x, st')
    /\ tshape x = [1; c + 2; 128; 128]
    /\ tdata x [0; c; 0; 127] = Fin (INR 127 / 127 * 2 - 1)%R.
Proof.
  destruct ROMPv1_forward_gray_image as (self & cm & pm & st' & Hi & Ef & _).
  destruct (ROMPv1_forward_inv _ _ _ _ Ef) as (x & st1 & _ & _ & Ex & _).
  destruct (@X15_features_coordinates _ _ _ _ _ _ Hi Ex)
    as (feats & b & c & Eb & Hf & Hx & Hd).
  assert (Hb : b = 1).
  { destruct (@HigherResolutionNet_forward_scaled zero_params "backbone"
                (backbone self) gray_image eval_state 1 16 16
                (ROMPv1_init_backbone Hi) eq_refl)
      as (y & st2 & E & Hy & _);
      [lia | lia | lia | intros H; discriminate H |].
    rewrite Eb in E. inversion E; subst y. rewrite Hf in Hy.
    now inversion Hy. }
  subst b. exists self, x, st1, c. split; [exact Hi |].
  split; [exact Ex |]. split; [exact Hx |].
  apply (Hd 0 0 127); lia.
Defined.

(** X16: in evaluation mode a head built by [_make_head_layers], whatever
    its configuration, maps an input of the channel count it was built
    for to the channel count asked for at half the resolution (rounded
    up), and leaves the state as it was. *)
Theorem X16_head_output_shape params path cfg cin cout (x : tensor fval) st
    b h w :
  training st = false ->
  tshape x = [b; cin; h; w] -> 1 <= h -> 1 <= w ->
  exists y,
    call params path (_make_head_layers cfg cin cout) x st = Some (y, st)
    /\ tshape y = [b; cout; (h - 1) / 2 + 1; (w - 1) / 2 + 1].
Proof. apply _make_head_layers_shape. Qed.

Lemma X16_head_output_shape_witness :
  exists y,
    call zero_params "final_layers.1"
      (_make_head_layers (mkHeadConfig 1 128 2) 34 142)
      (blank [3; 34; 127; 128]) eval_state = Some (y, eval_state)
    /\ tshape y = [3; 142; 64; 64].
Proof.
  destruct (@X16_head_output_shape zero_params "final_layers.1"
              (mkHeadConfig 1 128 2) 34 142 (blank [3; 34; 127; 128])
              eval_state 3 127 128 eq_refl eq_refl)
    as (y & E & Hy); [lia | lia |].
  exists y. split; [exact E | exact Hy].
Defined.

(** X17: a head raises on a 4-dimensional input whose channel count is
    not the one it was built for, in either mode. *)
Theorem X17_head_channel_mismatch params path cfg cin cout (x : tensor fval)
    st b c h w :
  tshape x = [b; c; h; w] -> c <> cin ->
  call params path (_make_head_layers cfg cin cout) x st = None.
Proof. apply _make_head_layers_channels. Qed.

Lemma X17_head_channel_mismatch_witness :
  call zero_params "final_layers.1"
    (_make_head_layers (mkHeadConfig 1 128 2) 34 142)
    (blank [1; 32; 128; 128]) eval_state = None.
Proof.
  apply (@X17_head_channel_mismatch zero_params "final_layers.1"
           (mkHeadConfig 1 128 2) 34 142 (blank [1; 32; 128; 128])
           eval_state 1 32 128 128 eq_refl).
  lia.
Defined.

(** X18: whether [ROMPv1.forward] raises, and the shapes it returns,
    depend on the shape of the input and on the mode only: not on the
    pixels, the parameters or the running statistics. *)
Theorem X18_shapes_depend_on_shape_and_mode params1 params2 self
    image1 image2 st1 st2 :
  tshape image1 = tshape image2 ->
  training st1 = training st2 ->
  output_shapes (ROMPv1_forward params1 self image1 st1)
  = output_shapes (ROMPv1_forward params2 self image2 st2).
Proof.
  intros Hs Ht. rewrite !ROMPv1_forward_shape_exact. now rewrite Hs, Ht.
Qed.

Lemma X18_shapes_depend_on_shape_and_mode_witness :
  exists self,
    ROMPv1_init = Some self
    /\ output_shapes (ROMPv1_forward zero_params self gray_image eval_state)
       = output_shapes (ROMPv1_forward (fun _ _ => Fin 1%R) self
                          (blank [1; 512; 512; 3]) (used_state false)).
Proof.
  destruct ROMPv1_init_Some as [self Hi].
  exists self. split; [exact Hi |].
  apply X18_shapes_depend_on_shape_and_mode; reflexivity.
Defined.

Lemma X19_forward_any_batch_witness :
  exists self,
    ROMPv1_init = Some self
    /\ output_shapes (ROMPv1_forward zero_params self
                        (blank [4; 510; 512; 3]) fresh_state)
       = Some ([4; 1; 64; 64], [4; 145; 64; 64]).
Proof.
  destruct ROMPv1_init_Some as [self Hi].
  exists self. split; [exact Hi |].
  apply (@X19_forward_any_batch zero_params self (blank [4; 510; 512; 3])
           fresh_state 4 510 512 Hi eq_refl); lia.
Defined.



(** X21: in evaluation mode the model processes every image of a batch
    on its own.  If an image of one batch has the pixels of an image of
    another batch, of any other size, and the model returns on the first
    batch, then it returns on the second and the maps it returns for the
    two images have the same entries. *)
Theorem X21_forward_per_image params self image1 image2 st b1 b2 bi1 bi2
    h w c cm1 pm1 st1 :
  ROMPv1_init = Some self ->
  training st = false ->
  bi1 < b1 -> bi2 < b2 ->
  tshape image1 = [b1; h; w; c] -> tshape image2 = [b2; h; w; c] ->
  (forall i j k, i < h -> j < w -> k < c ->
     tdata image1 [bi1; i; j; k] = tdata image2 [bi2; i; j; k]) ->
  ROMPv1_forward params self image1 st = Some ((cm1, pm1), st1) ->
  exists cm2 pm2,
    ROMPv1_forward params self image2 st = Some ((cm2, pm2), st)
    /\ same_image (mkBatchPos b1 b2 bi1 bi2) cm1 cm2
    /\ same_image (mkBatchPos b1 b2 bi1 bi2) pm1 pm2.
Proof.
  intros Hi Hst H1 H2 E1 E2 Hd Ef.
  pose proof (@same_image_ROMPv1_forward params (mkBatchPos b1 b2 bi1 bi2)
                H1 H2 self image1 image2 h w c Hi E1 E2 Hd st Hst) as H.
  rewrite Ef in H.
  destruct (ROMPv1_forward params self image2 st) as [[[cm2 pm2] st2] |];
    [| contradiction].
  destruct H as ((Hc & Hp) & _ & ->). exists cm2, pm2. auto.
Qed.

Lemma X21_forward_per_image_witness :
  exists self cm1 pm1 st1 cm2 pm2,
    ROMPv1_forward zero_params self gray_image eval_state
      = Some ((cm1, pm1), st1)
    /\ ROMPv1_forward zero_params self black_and_gray eval_state
       = Some ((cm2, pm2), eval_state)
    /\ same_image (mkBatchPos 1 2 0 1) cm1 cm2
    /\ same_image (mkBatchPos 1 2 0 1) pm1 pm2.
Proof.
  destruct ROMPv1_forward_gray_image as (self & cm & pm & st' & Hi & Ef & _).
  destruct (@X21_forward_per_image zero_params self gray_image
              black_and_gray eval_state 1 2 0 1 512 512 3 cm pm st' Hi
              eq_refl ltac:(lia) ltac:(lia) eq_refl eq_refl)
    as (cm2 & pm2 & E2 & Hc & Hp); [reflexivity | exact Ef |].
  exists self, cm, pm, st', cm2, pm2. auto.
Defined.

(** X22: in training mode the maps that the model returns do not depend
    on the running statistics it starts from: from two states in training
    mode it raises in both or returns the same maps in both. *)
Theorem X22_training_ignores_running_statistics params self image st1 st2 :
  training st1 = true -> training st2 = true ->
  option_map fst (ROMPv1_forward params self image st1)
  = option_map fst (ROMPv1_forward params self image st2).
Proof.
  intros H1 H2.
  pose proof (@train_blind_ROMPv1_forward params self image st1 st2 H1 H2)
    as H.
  destruct (ROMPv1_forward params self image st1) as [[r1 s1] |],
    (ROMPv1_forward params self image st2) as [[r2 s2] |];
    try contradiction; [| reflexivity].
  destruct H as [-> _]. reflexivity.
Qed.

Lemma X22_training_ignores_running_statistics_witness :
  exists self,
    ROMPv1_init = Some self
    /\ option_map fst (ROMPv1_forward zero_params self gray_image
                         fresh_state)
       = option_map fst (ROMPv1_forward zero_params self gray_image
                           (used_state true)).
Proof.
  destruct ROMPv1_init_Some as [self Hi].
  exists self. split; [exact Hi |].
  apply X22_training_ignores_running_statistics; reflexivity.
Defined.

(** * Further properties of the helpers *)

(** X23: [BHWC_to_BCHW] on a tensor of two or more dimensions moves the
    last dimension to position 1 and keeps the order of the others. *)
Theorem X23_BHWC_to_BCHW_any_rank {A} (x : tensor A) b mid c :
  tshape x = b :: mid ++ [c] ->
  exists t,
    BHWC_to_BCHW x = Some t
    /\ tshape t = b :: c :: mid
    /\ forall bi ci idx,
         length idx = length mid ->
         tdata t (bi :: ci :: idx) = tdata x (bi :: idx ++ [ci]).
Proof. apply BHWC_to_BCHW_rank2. Qed.

Lemma X23_BHWC_to_BCHW_any_rank_witness :
  exists t,
    BHWC_to_BCHW (mkTensor [2; 5; 3] (fun idx => idx)) = Some t
    /\ tshape t = [2; 3; 5]
    /\ tdata t [1; 2; 4] = [1; 4; 2].
Proof.
  destruct (@X23_BHWC_to_BCHW_any_rank _ (mkTensor [2; 5; 3] (fun idx => idx))
              2 [5] 3 eq_refl) as (t & Et & Hs & Hd).
  exists t. split; [exact Et |]. split; [exact Hs |].
  exact (Hd 1 2 [4] eq_refl).
Defined.

(** X24: [BHWC_to_BCHW] raises on a tensor without dimensions and returns
    a tensor of one dimension as it is. *)
Theorem X24_BHWC_to_BCHW_low_rank {A} (x : tensor A) :
  length (tshape x) <= 1 ->
  match tshape x with
  | [] => BHWC_to_BCHW x = None
  | _ =>
      exists t,
        BHWC_to_BCHW x = Some t
        /\ tshape t = tshape x
        /\ forall i, tdata t [i] = tdata x [i]
  end.
Proof.
  intros H. destruct (tshape x) as [| n [| m rest]] eqn:E.
  - now apply BHWC_to_BCHW_rank0.
  - now apply BHWC_to_BCHW_rank1.
  - simpl in H. lia.
Qed.

Lemma X24_BHWC_to_BCHW_low_rank_witness :
  exists t,
    BHWC_to_BCHW (mkTensor [7] (fun idx => idx)) = Some t
    /\ tshape t = [7]
    /\ forall i, tdata t [i] = [i].
Proof.
  apply (@X24_BHWC_to_BCHW_low_rank _ (mkTensor [7] (fun idx => idx))).
  simpl. lia.
Defined.

